(** * Conversational entity linking: the [ConvEL] orchestrator

    A shallow embedding of [REL/crel/conv_el.py].  The class [ConvEL]
    sequences calls to pretrained collaborators (mention detector, entity
    disambiguation, personal-mention detector, pre/post-processing and scorer)
    and keeps two pieces of per-conversation bookkeeping on [self]: the
    conversation history used for personal-entity linking and the
    mention-to-entity map.

    Modelling conventions.
    - Python dicts and the lists this module appends to are objects in a
      store ([heap]); a reference [PRef l] names the object at address [l].
      Allocation takes the next free address.
    - Lists that are built once and only read afterwards (rows returned by the
      collaborators, the annotation rows, the [mentions] and [pems] lists)
      are taken by value ([PList], or a Rocq list at a collaborator's
      interface).
    - Collaborators are read-only: they see the store and their arguments and
      either return or fail; a failure propagates unmodified. *)

From Stdlib Require Import ZArith String.
From stdpp Require Import base option list strings gmap.

Set Warnings "-register-all".
Local Open Scope string_scope.
Local Open Scope Z_scope.
Local Open Scope list_scope.

(** ** Python values *)

Definition loc := nat.

(** Hashable atoms: what this module uses as dictionary keys. *)
Inductive pykey :=
  | KNone
  | KInt (z : Z)
  | KStr (s : string).

#[global] Instance pykey_eq_dec : EqDecision pykey.
Proof. solve_decision. Defined.

#[global] Instance pykey_countable : Countable pykey.
Proof.
  refine (inj_countable'
    (λ k, match k with
          | KNone => inl ()
          | KInt z => inr (inl z)
          | KStr s => inr (inr s)
          end)
    (λ x, match x with
          | inl _ => KNone
          | inr (inl z) => KInt z
          | inr (inr s) => KStr s
          end) _).
  by intros [].
Defined.

Inductive pyval :=
  | PNone
  | PInt (z : Z)
  | PStr (s : string)
  | PList (vs : list pyval)
  | PRef (l : loc).

Inductive pyobj :=
  | ODict (d : gmap pykey pyval)
  | OList (vs : list pyval).

Inductive pytype := TNoneType | TInt | TStr | TList | TDict | TObject.

#[global] Instance pytype_eq_dec : EqDecision pytype.
Proof. solve_decision. Defined.

(** ** Exceptions *)

(** The three assert statements of the module differ by their message: the
    structural checks carry none, the speaker check formats the offending
    speaker, the personal-entity step has a fixed text. *)
Inductive assert_msg :=
  | NoMessage
  | SpeakerMessage (got : pyval)
  | OnePemMessage.

Inductive exn :=
  | AssertionError (m : assert_msg)
  | KeyError (k : pykey)
  | IndexError
  | ValueError
  | TypeError
  | AttributeError
  | ModelError (what : string).

(** Results of computations that only read. *)
Inductive res (A : Type) :=
  | Val (a : A)
  | Exn (e : exn).
Arguments Val {A} a.
Arguments Exn {A} e.

Definition res_bind {A B} (r : res A) (k : A → res B) : res B :=
  match r with
  | Val a => k a
  | Exn e => Exn e
  end.

Notation "'let?' x ':=' r 'in' k" := (res_bind r (λ x, k))
  (at level 10, x pattern, r at level 100, k at level 200).

(** A list comprehension [[f r for r in l]]: left to right, the first
    failure aborts. *)
Fixpoint res_map {A B} (f : A → res B) (l : list A) : res (list B) :=
  match l with
  | [] => Val []
  | a :: l' =>
      let? b := f a in
      let? bs := res_map f l' in
      Val (b :: bs)
  end.

(** A loop that threads a local accumulator and only reads the store. *)
Fixpoint res_fold {A B} (f : B → A → res B) (l : list A) (b : B) : res B :=
  match l with
  | [] => Val b
  | a :: l' => let? b' := f b a in res_fold f l' b'
  end.

Definition of_option {A} (o : option A) (e : exn) : res A :=
  match o with
  | Some a => Val a
  | None => Exn e
  end.

(** ** Reading the store *)

(** [seq[i]] with Python's treatment of negative indices. *)
Definition py_index {A} (vs : list A) (i : Z) : res A :=
  let n := Z.of_nat (length vs) in
  let j := if i <? 0 then i + n else i in
  if (0 <=? j) && (j <? n)
  then of_option (vs !! Z.to_nat j) IndexError
  else Exn IndexError.

(** [hash(v)]: lists and dicts are unhashable. *)
Definition hashable (v : pyval) : res pykey :=
  match v with
  | PNone => Val KNone
  | PInt z => Val (KInt z)
  | PStr s => Val (KStr s)
  | PList _ | PRef _ => Exn TypeError
  end.

Definition of_key (k : pykey) : pyval :=
  match k with
  | KNone => PNone
  | KInt z => PInt z
  | KStr s => PStr s
  end.

(** [d[k]] on a dict taken by value. *)
Definition dict_getitem (d : gmap pykey pyval) (k : pyval) : res pyval :=
  let? key := hashable k in
  of_option (d !! key) (KeyError key).

Definition string_index (s : string) (i : Z) : res pyval :=
  let n := Z.of_nat (String.length s) in
  let j := if i <? 0 then i + n else i in
  if (0 <=? j) && (j <? n)
  then match String.get (Z.to_nat j) s with
       | Some c => Val (PStr (String c EmptyString))
       | None => Exn IndexError
       end
  else Exn IndexError.

Definition int_subscript (k : pyval) : res Z :=
  match k with
  | PInt i => Val i
  | _ => Exn TypeError
  end.

Definition py_type (σ : list pyobj) (v : pyval) : pytype :=
  match v with
  | PNone => TNoneType
  | PInt _ => TInt
  | PStr _ => TStr
  | PList _ => TList
  | PRef l =>
      match σ !! l with
      | Some (ODict _) => TDict
      | Some (OList _) => TList
      | None => TObject
      end
  end.

(** [iter(v)] for a list; the module only iterates values it has checked
    or built as lists.  The elements are read when the loop starts: no
    loop body of the module writes to the list it iterates. *)
Definition py_iter (σ : list pyobj) (v : pyval) : res (list pyval) :=
  match v with
  | PList vs => Val vs
  | PRef l =>
      match σ !! l with
      | Some (OList vs) => Val vs
      | _ => Exn TypeError
      end
  | _ => Exn TypeError
  end.

(** [set(v.keys())] *)
Definition py_keys (σ : list pyobj) (v : pyval) : res (gset pykey) :=
  match v with
  | PRef l =>
      match σ !! l with
      | Some (ODict d) => Val (dom d)
      | _ => Exn AttributeError
      end
  | _ => Exn AttributeError
  end.

(** [v[k]] *)
Definition py_getitem (σ : list pyobj) (v k : pyval) : res pyval :=
  match v with
  | PList vs => let? i := int_subscript k in py_index vs i
  | PStr s => let? i := int_subscript k in string_index s i
  | PRef l =>
      match σ !! l with
      | Some (ODict d) => dict_getitem d k
      | Some (OList vs) => let? i := int_subscript k in py_index vs i
      | None => Exn TypeError
      end
  | PNone | PInt _ => Exn TypeError
  end.

(** [v == "literal"] *)
Definition py_eq_str (v : pyval) (s : string) : bool :=
  match v with
  | PStr s' => bool_decide (s' = s)
  | _ => false
  end.

(** ** The interpreter state and its monad *)

(** The store together with the two mutable attributes of [self]. *)
Record state := State {
  heap : list pyobj;
  conv_hist_for_pe : pyval;
  ment2ent : pyval;
}.

Inductive outcome (A : Type) :=
  | Ok (a : A) (s : state)
  | Raise (e : exn) (s : state).
Arguments Ok {A} a s.
Arguments Raise {A} e s.

Definition M (A : Type) := state → outcome A.

Definition ret {A} (a : A) : M A := λ s, Ok a s.
Definition raise {A} (e : exn) : M A := λ s, Raise e s.
Definition bind {A B} (m : M A) (k : A → M B) : M B :=
  λ s, match m s with
       | Ok a s' => k a s'
       | Raise e s' => Raise e s'
       end.

Notation "'let*' x ':=' m 'in' k" := (bind m (λ x, k))
  (at level 10, x pattern, m at level 100, k at level 200).

(** Run a read-only computation against the current store. *)
Definition reading {A} (f : list pyobj → res A) : M A :=
  λ s, match f (heap s) with
       | Val a => Ok a s
       | Exn e => Raise e s
       end.

Definition pure {A} (r : res A) : M A := reading (λ _, r).

Definition py_assert (b : bool) (m : assert_msg) : M unit :=
  if b then ret tt else raise (AssertionError m).

Fixpoint for_each {A} (body : A → M unit) (l : list A) : M unit :=
  match l with
  | [] => ret tt
  | a :: l' => let* _ := body a in for_each body l'
  end.

(** A [for] loop that also threads a local variable. *)
Fixpoint for_fold {A B} (body : B → A → M B) (l : list A) (b : B) : M B :=
  match l with
  | [] => ret b
  | a :: l' => let* b' := body b a in for_fold body l' b'
  end.

(** A new object; its address is the next free one. *)
Definition alloc (o : pyobj) : M pyval :=
  λ s, Ok (PRef (length (heap s)))
          (State (heap s ++ [o]) (conv_hist_for_pe s) (ment2ent s)).

Definition write (l : loc) (o : pyobj) : M unit :=
  λ s, Ok tt (State (<[l := o]> (heap s)) (conv_hist_for_pe s) (ment2ent s)).

(** [v[k] = x] *)
Definition py_setitem (v k x : pyval) : M unit :=
  match v with
  | PRef l =>
      λ s, match heap s !! l with
           | Some (ODict d) =>
               (let* key := pure (hashable k) in
                write l (ODict (<[key := x]> d))) s
           | Some (OList vs) =>
               (let* i := pure (int_subscript k) in
                let n := Z.of_nat (length vs) in
                let j := if i <? 0 then i + n else i in
                if (0 <=? j) && (j <? n)
                then write l (OList (<[Z.to_nat j := x]> vs))
                else raise IndexError) s
           | None => Raise TypeError s
           end
  | _ => raise TypeError
  end.

(** [v.append] and [v.update]: looking the method up succeeds on an object
    of the right kind and yields the object it is bound to. *)
Definition py_method (σ : list pyobj) (v : pyval) (kind : pytype)
  : res loc :=
  match v with
  | PRef l => if bool_decide (py_type σ v = kind) then Val l
              else Exn AttributeError
  | _ => Exn AttributeError
  end.

(** [list.append(x)] on the list at [l] *)
Definition list_append (l : loc) (x : pyval) : M unit :=
  λ s, match heap s !! l with
       | Some (OList vs) => write l (OList (vs ++ [x])) s
       | _ => Raise TypeError s
       end.

(** [dict.update(d)] on the dict at [l]: the entries of [d] override. *)
Definition dict_update (l : loc) (d : gmap pykey pyval) : M unit :=
  λ s, match heap s !! l with
       | Some (ODict d0) => write l (ODict (d ∪ d0)) s
       | _ => Raise TypeError s
       end.

Definition get_conv_hist_for_pe : M pyval := λ s, Ok (conv_hist_for_pe s) s.
Definition get_ment2ent : M pyval := λ s, Ok (ment2ent s) s.
Definition set_conv_hist_for_pe (v : pyval) : M unit :=
  λ s, Ok tt (State (heap s) v (ment2ent s)).
Definition set_ment2ent (v : pyval) : M unit :=
  λ s, Ok tt (State (heap s) (conv_hist_for_pe s) v).

(** ** The class *)

(** A collaborator either returns or fails with an error of its own. *)
Inductive reply (A : Type) :=
  | Returned (a : A)
  | Failed (what : string).
Arguments Returned {A} a.
Arguments Failed {A} what.

Definition call {A} (f : list pyobj → reply A) : M A :=
  λ s, match f (heap s) with
       | Returned a => Ok a s
       | Failed w => Raise (ModelError w) s
       end.

Section ConvEL.

(** What the pre-processor, the scorer and the constructor's [threshold]
    argument carry is never inspected here. *)
Context {tokens item scores thr : Type}.

(** The attributes set once by [__init__].  The collaborators' code lies
    outside this module: each is taken as a function of the store and of
    its arguments.  Rows are the sequences they return; their fields are
    read by position below. *)
Record ConvEL := {
  threshold : thr;
  bert_md_md : list pyobj → pyval → reply (list (list pyval));
  response_model_generate_response :
    list pyobj → pyval → list (list pyval) → reply (list (list pyval));
  pemd_pem_detector : list pyobj → pyval → reply (list (list pyval));
  preprocess_get_tokens_with_info : list pyobj → pyval → reply tokens;
  preprocess_get_input_of_pe_linking :
    list pyobj → tokens → reply (list item);
  eemd_get_scores : list pyobj → item → reply scores;
  postprocess_get_results :
    list pyobj → item → pyval → thr → scores →
    reply (list (gmap pykey pyval));
}.

Variable self : ConvEL.

(** [turn["speaker"] in ["USER", "SYSTEM"]] *)
Definition is_speaker (v : pyval) : bool :=
  py_eq_str v "USER" || py_eq_str v "SYSTEM".

(** The speaker assertion, written twice in the source; the message
    reads the speaker again, and only when the test fails. *)
Definition assert_speaker (turn : pyval) : M unit :=
  let* sp := reading (λ σ, py_getitem σ turn (PStr "speaker")) in
  if is_speaker sp then ret tt
  else
    let* got := reading (λ σ, py_getitem σ turn (PStr "speaker")) in
    raise (AssertionError (SpeakerMessage got)).

Definition _error_check_turn (turn : pyval) : M unit :=
  let* ty := reading (λ σ, Val (py_type σ turn)) in
  let* _ := py_assert (bool_decide (ty = TDict)) NoMessage in
  let* ks := reading (λ σ, py_keys σ turn) in
  let* _ :=
    py_assert (bool_decide (ks = {[KStr "speaker"; KStr "utterance"]}))
      NoMessage in
  assert_speaker turn.

Definition _error_check (conv : pyval) : M unit :=
  let* ty := reading (λ σ, Val (py_type σ conv)) in
  let* _ := py_assert (bool_decide (ty = TList)) NoMessage in
  let* turns := reading (λ σ, py_iter σ conv) in
  for_each _error_check_turn turns.

(** [list(ent)]: rows are already taken by value. *)
Definition py_list (ent : list pyval) : list pyval := ent.

Definition ed (text : pyval) (spans : list (list pyval))
  : M (list (list pyval)) :=
  let* response :=
    call (λ σ, response_model_generate_response self σ text spans) in
  ret (map py_list response).

(** [[r[0], r[1]]] *)
Definition span_of (r : list pyval) : res (list pyval) :=
  let? start := py_index r 0 in
  let? len := py_index r 1 in
  Val [start; len].

(** [{r[2]: r[3] for r in el_results}], built left to right so that a
    later row overrides an earlier one with the same key. *)
Definition mention_entity (d : gmap pykey pyval) (r : list pyval)
  : res (gmap pykey pyval) :=
  let? k := py_index r 2 in
  let? v := py_index r 3 in
  let? key := hashable k in
  Val (<[key := v]> d).

(** [self.conv_hist_for_pe[-1][field] = x] *)
Definition set_last_history (field : string) (x : pyval) : M unit :=
  let* hist := get_conv_hist_for_pe in
  let* last := reading (λ σ, py_getitem σ hist (PInt (-1))) in
  py_setitem last (PStr field) x.

Definition _el (utt : pyval) : M (list (list pyval)) :=
  let* md_results := call (λ σ, bert_md_md self σ utt) in
  let* spans := pure (res_map span_of md_results) in
  let* el_results := ed utt spans in
  let* mentions := pure (res_map (λ r, py_index r 2) el_results) in
  let* _ := set_last_history "mentions" (PList mentions) in
  let* m2e := get_ment2ent in
  let* update := reading (λ σ, py_method σ m2e TDict) in
  let* upd := pure (res_fold mention_entity el_results ∅) in
  let* _ := dict_update update upd in
  ret (map (take 4) el_results).

(** [{r[2]: r for r in pem_results}] *)
Definition pem_entry (d : gmap pykey (list pyval)) (r : list pyval)
  : res (gmap pykey (list pyval)) :=
  let? k := py_index r 2 in
  let? key := hashable k in
  Val (<[key := r]> d).

(** [_, _, pem = r] *)
Definition unpack3 (r : list pyval) : res pyval :=
  match r with
  | [_; _; pem] => Val pem
  | _ => Exn ValueError
  end.

(** Body of the loop of step 2, for one detected personal mention. *)
Definition _pe_find (outputs : list (gmap pykey pyval)) (r : list pyval)
  : M (list (gmap pykey pyval)) :=
  let* pem := pure (unpack3 r) in
  let* _ := set_last_history "pems" (PList [pem]) in
  let* hist := get_conv_hist_for_pe in
  let* token_with_info :=
    call (λ σ, preprocess_get_tokens_with_info self σ hist) in
  let* input_data :=
    call (λ σ, preprocess_get_input_of_pe_linking self σ token_with_info) in
  let* _ :=
    py_assert (bool_decide (length input_data = 1%nat)) OnePemMessage in
  let* input_data := pure (py_index input_data 0) in
  let* scores := call (λ σ, eemd_get_scores self σ input_data) in
  let* hist := get_conv_hist_for_pe in
  let* results :=
    call (λ σ, postprocess_get_results self σ input_data hist
                 (threshold self) scores) in
  ret (outputs ++ results).

(** Body of the loop of step 3, for one accepted result. *)
Definition _pe_entity (pem2result : gmap pykey (list pyval))
    (ret_ : list (list pyval)) (r : gmap pykey pyval)
  : M (list (list pyval)) :=
  let* pem := pure (dict_getitem r (PStr "personal_entity_mention")) in
  let* pem_result :=
    pure (let? key := hashable pem in
          of_option (pem2result !! key) (KeyError key)) in
  let* eem := pure (dict_getitem r (PStr "mention")) in
  let* m2e := get_ment2ent in
  let* ent := reading (λ σ, py_getitem σ m2e eem) in
  let* start := pure (py_index pem_result 0) in
  let* len := pure (py_index pem_result 1) in
  let* text := pure (py_index pem_result 2) in
  ret (ret_ ++ [[start; len; text; ent]]).

Definition _pe (utt : pyval) : M (list (list pyval)) :=
  let* pem_results := call (λ σ, pemd_pem_detector self σ utt) in
  let* pem2result := pure (res_fold pem_entry pem_results ∅) in
  let* outputs := for_fold _pe_find pem_results [] in
  let* _ := set_last_history "pems" (PList []) in
  for_fold (_pe_entity pem2result) outputs [].

(** Body of the loop of [annotate], first half: the output record and
    the history record of the turn.  [ret_] is the local list [ret]. *)
Definition annotate_turn_record (ret_ : pyval) (turn : pyval) : M pyval :=
  let* utt := reading (λ σ, py_getitem σ turn (PStr "utterance")) in
  let* _ := assert_speaker turn in
  let* append := reading (λ σ, py_method σ ret_ TList) in
  let* sp := reading (λ σ, py_getitem σ turn (PStr "speaker")) in
  let* record :=
    alloc (ODict (<[KStr "utterance" := utt]> {[KStr "speaker" := sp]})) in
  let* _ := list_append append record in
  let* hist := get_conv_hist_for_pe in
  let* append := reading (λ σ, py_method σ hist TList) in
  let* fresh := alloc (ODict ∅) in
  let* _ := list_append append fresh in
  let* sp := reading (λ σ, py_getitem σ turn (PStr "speaker")) in
  let* _ := set_last_history "speaker" sp in
  let* _ := set_last_history "utterance" utt in
  ret utt.

(** Second half, the branch taken for a USER turn. *)
Definition annotate_turn_link (ret_ : pyval) (utt : pyval) : M unit :=
  let* el_results := _el utt in
  let* pe_results := _pe utt in
  let* last := reading (λ σ, py_getitem σ ret_ (PInt (-1))) in
  py_setitem last (PStr "annotations")
    (PList (map PList (el_results ++ pe_results))).

Definition annotate_turn (ret_ : pyval) (turn : pyval) : M unit :=
  let* utt := annotate_turn_record ret_ turn in
  let* sp := reading (λ σ, py_getitem σ turn (PStr "speaker")) in
  if py_eq_str sp "USER" then annotate_turn_link ret_ utt else ret tt.

Definition annotate (conv : pyval) : M pyval :=
  let* _ := _error_check conv in
  let* ret_ := alloc (OList []) in
  let* hist := alloc (OList []) in
  let* _ := set_conv_hist_for_pe hist in
  let* m2e := alloc (ODict ∅) in
  let* _ := set_ment2ent m2e in
  let* turns := reading (λ σ, py_iter σ conv) in
  let* _ := for_each (annotate_turn ret_) turns in
  ret ret_.

End ConvEL.

(** * Vocabulary of the specification *)

(** A conversation is valid in a store when it is a list of dicts, each with
    exactly the keys [speaker] and [utterance] and a speaker that is
    ["USER"] or ["SYSTEM"]. *)
Definition valid_turn (σ : list pyobj) (turn : pyval) : Prop :=
  ∃ l d sp,
    turn = PRef l ∧ σ !! l = Some (ODict d) ∧
    dom d = {[KStr "speaker"; KStr "utterance"]} ∧
    d !! KStr "speaker" = Some sp ∧ (sp = PStr "USER" ∨ sp = PStr "SYSTEM").

Definition valid_conversation (σ : list pyobj) (conv : pyval)
    (turns : list pyval) : Prop :=
  py_type σ conv = TList ∧ py_iter σ conv = Val turns ∧
  Forall (valid_turn σ) turns.

(** The input-validation failures: the asserts of [_error_check] and the
    speaker assert repeated in [annotate]. *)
Definition validation_error (e : exn) : Prop :=
  match e with
  | AssertionError NoMessage | AssertionError (SpeakerMessage _) => True
  | _ => False
  end.

(** The dictionaries a list refers to (the history records, the returned
    records), and a list-valued field of one of them. *)
Definition deref_dict (σ : list pyobj) (v : pyval)
  : option (gmap pykey pyval) :=
  match v with
  | PRef l => match σ !! l with Some (ODict d) => Some d | _ => None end
  | _ => None
  end.

Definition dicts_of (σ : list pyobj) (hist : pyval)
  : list (gmap pykey pyval) :=
  match py_iter σ hist with
  | Val vs => omap (deref_dict σ) vs
  | Exn _ => []
  end.

Definition field_list (d : gmap pykey pyval) (field : string) : list pyval :=
  match d !! KStr field with
  | Some (PList vs) => vs
  | _ => []
  end.

(** What the orchestrator relies on from its collaborators.  They return;
    detector and disambiguation rows have the fields read by position, with
    a hashable mention text; the pre-processor yields one item when the last
    history record names one target personal mention; the post-processor
    only accepts that target mention, with an antecedent taken from the
    [mentions] recorded in the history. *)
Definition linked_row (r : list pyval) : Prop :=
  ∃ start len text ent rest key,
    r = start :: len :: text :: ent :: rest ∧ hashable text = Val key.

Definition pem_row (r : list pyval) : Prop :=
  ∃ start len text key, r = [start; len; text] ∧ hashable text = Val key.

Definition accepted (σ : list pyobj) (hist : pyval)
    (r : gmap pykey pyval) : Prop :=
  ∃ pem eem target h,
    r !! KStr "personal_entity_mention" = Some pem ∧
    r !! KStr "mention" = Some eem ∧
    last (dicts_of σ hist) = Some target ∧
    pem ∈ field_list target "pems" ∧
    h ∈ dicts_of σ hist ∧ eem ∈ field_list h "mentions".

Record well_behaved {tokens item scores thr : Type}
    (self : @ConvEL tokens item scores thr) : Prop := {
  wb_md : ∀ σ utt, ∃ md,
    bert_md_md self σ utt = Returned md ∧ Forall (λ r, 2 ≤ length r)%nat md;
  wb_ed : ∀ σ utt spans, ∃ rows,
    response_model_generate_response self σ utt spans = Returned rows ∧
    Forall linked_row rows;
  wb_pemd : ∀ σ utt, ∃ pems,
    pemd_pem_detector self σ utt = Returned pems ∧ Forall pem_row pems;
  wb_pre : ∀ σ hist target pem,
    last (dicts_of σ hist) = Some target →
    field_list target "pems" = [pem] →
    ∃ tok x,
      preprocess_get_tokens_with_info self σ hist = Returned tok ∧
      preprocess_get_input_of_pe_linking self σ tok = Returned [x];
  wb_scores : ∀ σ x, ∃ sc, eemd_get_scores self σ x = Returned sc;
  wb_post : ∀ σ x hist sc, ∃ outs,
    postprocess_get_results self σ x hist (threshold self) sc = Returned outs ∧
    Forall (accepted σ hist) outs;
}.

(** The mention text and entity a result row contributes to the
    mention-to-entity map: its third and fourth fields. *)
Definition row_link (r : list pyval) : option (pykey * pyval) :=
  match r !! 2%nat, r !! 3%nat with
  | Some text, Some ent =>
      match hashable text with
      | Val key => Some (key, ent)
      | Exn _ => None
      end
  | _, _ => None
  end.

(** Every mention recorded in the history is a key of the map. *)
Definition mentions_mapped (mm : gmap pykey pyval)
    (hs : list (gmap pykey pyval)) : Prop :=
  ∀ h eem, h ∈ hs → eem ∈ field_list h "mentions" →
    ∃ key, hashable eem = Val key ∧ is_Some (mm !! key).

(** The course of a call.  For a USER turn, [linking] records the states in
    which the two linking steps ran and what they returned. *)
Record linking := Linking {
  lk_utt : pyval;
  lk_before_el : state;
  lk_el : list (list pyval);
  lk_before_pe : state;
  lk_pe : list (list pyval);
  lk_after_pe : state;
}.

Section Course.
Context {tokens item scores thr : Type} (self : @ConvEL tokens item scores thr).

Inductive turn_steps (ret_ turn : pyval) (s : state)
  : option linking → state → Prop :=
  | turn_other utt sp s1 :
      annotate_turn_record ret_ turn s = Ok utt s1 →
      py_getitem (heap s1) turn (PStr "speaker") = Val sp →
      py_eq_str sp "USER" = false →
      annotate_turn self ret_ turn s = Ok tt s1 →
      turn_steps ret_ turn s None s1
  | turn_user utt sp el pe s1 s2 s3 s4 :
      annotate_turn_record ret_ turn s = Ok utt s1 →
      py_getitem (heap s1) turn (PStr "speaker") = Val sp →
      py_eq_str sp "USER" = true →
      _el self utt s1 = Ok el s2 →
      _pe self utt s2 = Ok pe s3 →
      annotate_turn self ret_ turn s = Ok tt s4 →
      turn_steps ret_ turn s (Some (Linking utt s1 el s2 pe s3)) s4.

Inductive conv_steps (ret_ : pyval)
  : list pyval → state → list (option linking) → state → Prop :=
  | conv_steps_nil s : conv_steps ret_ [] s [] s
  | conv_steps_cons turn turns s ev s1 evs s' :
      turn_steps ret_ turn s ev s1 →
      conv_steps ret_ turns s1 evs s' →
      conv_steps ret_ (turn :: turns) s (ev :: evs) s'.

(** The explicit results of the whole call, in the order recorded. *)
Definition links (evs : list (option linking)) : list (list pyval) :=
  flat_map (λ ev, match ev with Some lk => lk_el lk | None => [] end) evs.

End Course.

(** The state in which the loop of [annotate] starts: the list [ret], an
    empty history and an empty map freshly allocated, the two attributes
    pointing to the latter. *)
Definition fresh_call (s : state) : state :=
  State (heap s ++ [OList []; OList []; ODict ∅])
        (PRef (length (heap s) + 1)%nat) (PRef (length (heap s) + 2)%nat).

(** The history and the map, as the attributes of [self] give them. *)
Definition history (s : state) : list (gmap pykey pyval) :=
  dicts_of (heap s) (conv_hist_for_pe s).

Definition mention_map (s : state) : option (gmap pykey pyval) :=
  deref_dict (heap s) (ment2ent s).

Local Close Scope Z_scope.
Local Arguments Nat.mul : simpl never.

(** * The store during a call, and what the steps leave in it *)

Definition St (σ0 : list pyobj) (rr hr : list pyval)
    (mm : gmap pykey pyval) (cs : list pyobj) : state :=
  State (σ0 ++ OList rr :: OList hr :: ODict mm :: cs)
        (PRef (length σ0 + 1)) (PRef (length σ0 + 2)).

(** The dictionaries of the turns processed so far, as pairs (output record,
    history record), and the addresses the two lists hold. *)
Definition cells (recs : list (gmap pykey pyval * gmap pykey pyval))
  : list pyobj :=
  flat_map (λ p, [ODict p.1; ODict p.2]) recs.

Definition refs (base k : nat) : list pyval :=
  map (λ j, PRef (base + 2 * j)) (seq 0 k).

Definition run (σ0 : list pyobj) (mm : gmap pykey pyval)
    (recs : list (gmap pykey pyval * gmap pykey pyval)) : state :=
  St σ0 (refs (length σ0 + 3) (length recs))
        (refs (length σ0 + 4) (length recs)) mm (cells recs).

(** The map built from the rows, as a left-to-right sequence of writes. *)
Definition write_link (d : gmap pykey pyval) (r : list pyval)
  : gmap pykey pyval :=
  match row_link r with
  | Some (key, ent) => <[key := ent]> d
  | None => d
  end.

(** The record written for a turn, and copied into the history. *)
Definition turn_record (sp utt : pyval) : gmap pykey pyval :=
  <[KStr "utterance" := utt]> {[KStr "speaker" := sp]}.

(** One round of step 2 of [_pe], for a history whose last record is the
    dict at [l]: the target mention is written there, then the
    collaborators run on the store so updated. *)
Definition with_target (l : loc) (hd : gmap pykey pyval) (pem : pyval)
    (s : state) : state :=
  State (<[l := ODict (<[KStr "pems" := PList [pem]]> hd)]> (heap s))
        (conv_hist_for_pe s) (ment2ent s).

(** The history record of the current turn, up to its target mention. *)
Inductive retargeted (hd : gmap pykey pyval) : gmap pykey pyval → Prop :=
  | retargeted_same : retargeted hd hd
  | retargeted_to p : retargeted hd (<[KStr "pems" := p]> hd).

(** An accepted result that step 3 can resolve: its personal mention is
    the text of a detector row, its antecedent is a key of the map. *)
Definition resolvable (pems : list (list pyval)) (mm : gmap pykey pyval)
    (r : gmap pykey pyval) : Prop :=
  ∃ pem eem row ekey,
    r !! KStr "personal_entity_mention" = Some pem ∧
    row ∈ pems ∧ row !! 2 = Some pem ∧
    r !! KStr "mention" = Some eem ∧
    hashable eem = Val ekey ∧ is_Some (mm !! ekey).

(** Step 3 of [_pe] only reads: one accepted result resolved against
    the detector rows and the map. *)
Definition entity_of (pem2result : gmap pykey (list pyval))
    (mm : gmap pykey pyval) (r : gmap pykey pyval) : res (list pyval) :=
  let? pem := dict_getitem r (PStr "personal_entity_mention") in
  let? pem_result :=
    (let? key := hashable pem in
     of_option (pem2result !! key) (KeyError key)) in
  let? eem := dict_getitem r (PStr "mention") in
  let? ent := dict_getitem mm eem in
  let? start := py_index pem_result 0%Z in
  let? len := py_index pem_result 1%Z in
  let? text := py_index pem_result 2%Z in
  Val [start; len; text; ent].

Definition entities_of (pem2result : gmap pykey (list pyval))
    (mm : gmap pykey pyval) (acc : list (list pyval))
    (r : gmap pykey pyval) : res (list (list pyval)) :=
  let? a := entity_of pem2result mm r in Val (acc ++ [a]).

(** The personal annotation of an accepted result: a detector row whose
    text is the personal mention the result names, followed by the entity
    the map gives for the antecedent the result names. *)
Definition personal_annotation (pems : list (list pyval))
    (mm : gmap pykey pyval) (r : gmap pykey pyval) (a : list pyval) : Prop :=
  ∃ start len pem eem ent,
    r !! KStr "personal_entity_mention" = Some pem ∧
    r !! KStr "mention" = Some eem ∧
    [start; len; pem] ∈ pems ∧
    dict_getitem mm eem = Val ent ∧
    a = [start; len; pem; ent].

Section Shape.
Context {tokens item scores thr : Type} (self : @ConvEL tokens item scores thr).
Context (σ0 : list pyobj).

Definition find_outcome (outputs : list (gmap pykey pyval)) (s1 : state)
: outcome (list (gmap pykey pyval)) :=
match preprocess_get_tokens_with_info self (heap s1) (conv_hist_for_pe s1)
with
| Failed w => Raise (ModelError w) s1
| Returned tok =>
    match preprocess_get_input_of_pe_linking self (heap s1) tok with
    | Failed w => Raise (ModelError w) s1
    | Returned [x] =>
        match eemd_get_scores self (heap s1) x with
        | Failed w => Raise (ModelError w) s1
        | Returned sc =>
            match postprocess_get_results self (heap s1) x
                    (conv_hist_for_pe s1) (threshold self) sc with
            | Failed w => Raise (ModelError w) s1
            | Returned results => Ok (outputs ++ results) s1
            end
        end
    | Returned _ => Raise (AssertionError OnePemMessage) s1
    end
end.

(** States reached while the call is in progress, and what is known of a
  failure: it leaves the objects of the caller alone, it is not an
  input-validation failure, and some collaborator broke its contract. *)
Definition in_call (s : state) : Prop :=
∃ rr hr mm cs, s = St σ0 rr hr mm cs.

Definition failure (e : exn) (s : state) : Prop :=
in_call s ∧ ¬ validation_error e ∧ ¬ well_behaved self.

(** What a completed [_el] has done. *)
Definition el_done (σ : list pyobj) (utt : pyval)
  (rows : list (list pyval)) (ms : list pyval) : Prop :=
∃ md spans,
  bert_md_md self σ utt = Returned md ∧
  res_map span_of md = Val spans ∧
  response_model_generate_response self σ utt spans = Returned rows ∧
  res_map (λ r, py_index r 2%Z) rows = Val ms ∧
  Forall (λ r, is_Some (row_link r)) rows.

(** A linking step ran in a state of the expected shape. *)
Definition linking_ok (lk : linking) : Prop :=
  (∃ mm recs rd hd, lk_before_el lk = run σ0 mm (recs ++ [(rd, hd)])) ∧
  (∃ mm recs rd hd,
     lk_before_pe lk = run σ0 mm (recs ++ [(rd, hd)]) ∧
     mentions_mapped mm (recs.*2 ++ [hd])) ∧
  (∃ mm recs rd hd,
     lk_after_pe lk
     = run σ0 mm (recs ++ [(rd, <[KStr "pems" := PList []]> hd)])).

(** The two dictionaries a completed turn leaves behind. *)
Definition turn_shape (turn : pyval) (ev : option linking)
  (p : gmap pykey pyval * gmap pykey pyval) : Prop :=
∃ l d sp utt,
  turn = PRef l ∧ σ0 !! l = Some (ODict d) ∧
  d !! KStr "speaker" = Some sp ∧ d !! KStr "utterance" = Some utt ∧
  match ev with
  | None =>
      sp = PStr "SYSTEM" ∧ p = (turn_record sp utt, turn_record sp utt)
  | Some lk =>
      sp = PStr "USER" ∧ lk_utt lk = utt ∧ linking_ok lk ∧
      ∃ ms,
        p = (<[KStr "annotations" :=
                 PList (map PList (lk_el lk ++ lk_pe lk))]>
               (turn_record sp utt),
             <[KStr "pems" := PList []]>
               (<[KStr "mentions" := PList ms]> (turn_record sp utt)))
  end.

End Shape.

(** What a caller can read from a result: a list of dictionaries. *)
Definition list_of_dicts (σ : list pyobj) (r : pyval)
    (ds : list (gmap pykey pyval)) : Prop :=
  ∃ vs, py_type σ r = TList ∧ py_iter σ r = Val vs ∧
        Forall2 (λ v d, deref_dict σ v = Some d) vs ds.

(** An output record against the input turn it stands for. *)
Definition augmented (σ : list pyobj) (turn : pyval)
    (d : gmap pykey pyval) : Prop :=
  ∃ sp utt,
    py_getitem σ turn (PStr "speaker") = Val sp ∧
    py_getitem σ turn (PStr "utterance") = Val utt ∧
    d !! KStr "speaker" = Some sp ∧ d !! KStr "utterance" = Some utt ∧
    ((sp = PStr "USER" ∧
      dom d = {[KStr "speaker"; KStr "utterance"; KStr "annotations"]}) ∨
     (sp = PStr "SYSTEM" ∧ dom d = {[KStr "speaker"; KStr "utterance"]})).

Definition final_state {A} (o : outcome A) : state :=
  match o with
  | Ok _ s => s
  | Raise _ s => s
  end.

(** An accepted result that step 3 of [_pe] cannot resolve, and one whose
    two texts are at least hashable. *)
Definition unresolved (pem2result : gmap pykey (list pyval))
    (mm : gmap pykey pyval) (r : gmap pykey pyval) : Prop :=
  (∃ pem key, r !! KStr "personal_entity_mention" = Some pem ∧
              hashable pem = Val key ∧ pem2result !! key = None) ∨
  (∃ eem key, r !! KStr "mention" = Some eem ∧
              hashable eem = Val key ∧ mm !! key = None).

Definition is_hashable (v : pyval) : Prop :=
  match hashable v with
  | Val _ => True
  | Exn _ => False
  end.

Definition texts_hashable (r : gmap pykey pyval) : Prop :=
  (∀ v, r !! KStr "personal_entity_mention" = Some v → is_hashable v) ∧
  (∀ v, r !! KStr "mention" = Some v → is_hashable v).

(** A history record between two turns: a USER record has its mentions
    and an empty list of target mentions, a SYSTEM record has neither. *)
Definition settled (σ : list pyobj) (turn : pyval)
    (h : gmap pykey pyval) : Prop :=
  ∃ sp,
    py_getitem σ turn (PStr "speaker") = Val sp ∧
    h !! KStr "speaker" = Some sp ∧
    ((sp = PStr "USER" ∧ h !! KStr "pems" = Some (PList []) ∧
      ∃ ms, h !! KStr "mentions" = Some (PList ms)) ∨
     (sp = PStr "SYSTEM" ∧ h !! KStr "pems" = None ∧
      h !! KStr "mentions" = None)).

(** What the two linking steps of a USER turn returned, against what the
    collaborators gave them. *)
Section Linked.
Context {tokens item scores thr : Type} (self : @ConvEL tokens item scores thr).

Definition explicit_annotations (lk : linking) : Prop :=
  ∃ md spans rows,
    bert_md_md self (heap (lk_before_el lk)) (lk_utt lk) = Returned md ∧
    res_map span_of md = Val spans ∧
    response_model_generate_response self (heap (lk_before_el lk))
      (lk_utt lk) spans = Returned rows ∧
    lk_el lk = map (take 4) rows.

(** The disambiguation rows of the turn: what [self.ed] gave for the
    spans of the detected mentions. *)
Definition disambiguated (lk : linking) (rows : list (list pyval)) : Prop :=
  ∃ md spans,
    bert_md_md self (heap (lk_before_el lk)) (lk_utt lk) = Returned md ∧
    res_map span_of md = Val spans ∧
    response_model_generate_response self (heap (lk_before_el lk))
      (lk_utt lk) spans = Returned rows.

(** The rows as [_el] records them: the last history record holds their
    mention texts, in order, under [mentions]. *)
Definition mentions_recorded (lk : linking) (rows : list (list pyval))
  : Prop :=
  ∃ h ms,
    last (history (lk_before_pe lk)) = Some h ∧
    h !! KStr "mentions" = Some (PList ms) ∧
    Forall2 (λ r m, r !! 2 = Some m) rows ms.

(** [outputs] are the results step 2 collected from the post-processor,
    one detected personal mention after the other; step 3 turns each of
    them, in order, into one annotation, resolved against the table of
    detector rows and the map. *)
Definition personal_annotations (lk : linking) : Prop :=
  ∃ pems table outputs s_found mm,
    pemd_pem_detector self (heap (lk_before_pe lk)) (lk_utt lk)
      = Returned pems ∧
    res_fold pem_entry pems ∅ = Val table ∧
    for_fold (_pe_find self) pems [] (lk_before_pe lk)
      = Ok outputs s_found ∧
    mention_map (lk_before_pe lk) = Some mm ∧
    Forall2 (λ r a, entity_of table mm r = Val a) outputs (lk_pe lk) ∧
    Forall2 (personal_annotation pems mm) outputs (lk_pe lk).

End Linked.

(** * A small instance

    Collaborators simple enough to run: the detector knows one name, the
    personal-mention detector one possessive, and the antecedent of a
    personal mention is the most recent mention of the history. *)
Module Demo.

Definition mentions_of (recs : list (gmap pykey pyval)) : list pyval :=
  flat_map (λ d, field_list d "mentions") recs.

Definition targets_of (recs : list (gmap pykey pyval)) : list pyval :=
  match last recs with
  | Some d => field_list d "pems"
  | None => []
  end.

Definition accept (pem eem : pyval) : gmap pykey pyval :=
  <[KStr "mention" := eem]> {[KStr "personal_entity_mention" := pem]}.

Definition el : @ConvEL (list (gmap pykey pyval)) (pyval * list pyval)
                        unit unit := {|
  threshold := tt;
  bert_md_md := λ _ utt,
    if py_eq_str utt "I love Rex" then Returned [[PInt 7; PInt 3]]
    else Returned [];
  response_model_generate_response := λ _ _ spans,
    Returned (map (λ sp, [default PNone (sp !! 0); default PNone (sp !! 1);
                          PStr "Rex"; PStr "Rex_(dog)"; PInt 1;
                          PStr "ANIMAL"]) spans);
  pemd_pem_detector := λ _ utt,
    if py_eq_str utt "my dog is cute"
    then Returned [[PInt 0; PInt 6; PStr "my dog"]]
    else Returned [];
  preprocess_get_tokens_with_info := λ σ hist, Returned (dicts_of σ hist);
  preprocess_get_input_of_pe_linking := λ _ recs,
    Returned (map (λ pem, (pem, mentions_of recs)) (targets_of recs));
  eemd_get_scores := λ _ _, Returned tt;
  postprocess_get_results := λ σ _ hist _ _,
    let recs := dicts_of σ hist in
    match targets_of recs, last (mentions_of recs) with
    | pem :: _, Some eem => Returned [accept pem eem]
    | _, _ => Returned []
    end;
|}.

(** The same, with a pre-processor that yields no item ... *)
Definition no_item : @ConvEL (list (gmap pykey pyval)) (pyval * list pyval)
                             unit unit := {|
  threshold := threshold el;
  bert_md_md := bert_md_md el;
  response_model_generate_response := response_model_generate_response el;
  pemd_pem_detector := pemd_pem_detector el;
  preprocess_get_tokens_with_info := preprocess_get_tokens_with_info el;
  preprocess_get_input_of_pe_linking := λ _ _, Returned [];
  eemd_get_scores := eemd_get_scores el;
  postprocess_get_results := postprocess_get_results el;
|}.

(** ... and with a post-processor that accepts a name nobody linked. *)
Definition stray : @ConvEL (list (gmap pykey pyval)) (pyval * list pyval)
                           unit unit := {|
  threshold := threshold el;
  bert_md_md := bert_md_md el;
  response_model_generate_response := response_model_generate_response el;
  pemd_pem_detector := pemd_pem_detector el;
  preprocess_get_tokens_with_info := preprocess_get_tokens_with_info el;
  preprocess_get_input_of_pe_linking :=
    preprocess_get_input_of_pe_linking el;
  eemd_get_scores := eemd_get_scores el;
  postprocess_get_results := λ σ _ hist _ _,
    match targets_of (dicts_of σ hist) with
    | pem :: _ => Returned [accept pem (PStr "Lassie")]
    | [] => Returned []
    end;
|}.

Definition turn (sp utt : string) : pyobj :=
  ODict (turn_record (PStr sp) (PStr utt)).

(** Three turns and the list holding them; the attributes of [self] still
    hold what [__init__] or an earlier call left. *)
Definition turns : list pyval := [PRef 0; PRef 1; PRef 2].

Definition start : state :=
  State [turn "USER" "I love Rex"; turn "SYSTEM" "Nice name";
         turn "USER" "my dog is cute"; OList turns]
        PNone PNone.

Definition conv : pyval := PRef 3.

(** Where the call ends, and where it stands after two turns. *)
Definition final : state := final_state (annotate el conv start).

Definition between : state :=
  final_state (for_each (annotate_turn el (PRef 4)) (take 2 turns)
                 (fresh_call start)).

(** The call with the stray post-processor, followed up to step 3 of the
    third turn. *)
Definition utt3 : pyval := PStr "my dog is cute".

Definition before3 : state :=
  final_state (for_each (annotate_turn stray (PRef 4)) [PRef 0; PRef 1]
                 (fresh_call start)).

Definition recorded3 : state :=
  final_state (annotate_turn_record (PRef 4) (PRef 2) before3).

Definition linked3 : state := final_state (_el stray utt3 recorded3).

Definition pems3 : list (list pyval) := [[PInt 0; PInt 6; PStr "my dog"]].

Definition found3 : state :=
  final_state (for_fold (_pe_find stray) pems3 [] linked3).

(** A history of one record, as step 2 of [_pe] finds it. *)
Definition one_record : state :=
  State [ODict (turn_record (PStr "USER") utt3); OList [PRef 0]]
        (PRef 1) PNone.

End Demo.

(** The records a conversation of SYSTEM turns leaves: for each turn the
    output record and its copy in the history. *)
Definition system_records (σ : list pyobj) (turns : list pyval)
  : list (gmap pykey pyval * gmap pykey pyval) :=
  omap (λ turn,
    match py_getitem σ turn (PStr "utterance") with
    | Val utt => Some (turn_record (PStr "SYSTEM") utt,
                       turn_record (PStr "SYSTEM") utt)
    | Exn _ => None
    end) turns.

(** A detector row whose mention text is not the given key. *)
Definition other_text (key : pykey) (r : list pyval) : Prop :=
  ∀ text, r !! 2 = Some text → hashable text ≠ Val key.

(** * Further instances

    Variations of the collaborators above that fail or return rows of
    another width, and two more conversations. *)
Module Edge.

Definition offline : @ConvEL (list (gmap pykey pyval)) (pyval * list pyval)
                             unit unit := {|
  threshold := threshold Demo.el;
  bert_md_md := λ _ _, Failed "detector not loaded";
  response_model_generate_response :=
    response_model_generate_response Demo.el;
  pemd_pem_detector := pemd_pem_detector Demo.el;
  preprocess_get_tokens_with_info := preprocess_get_tokens_with_info Demo.el;
  preprocess_get_input_of_pe_linking :=
    preprocess_get_input_of_pe_linking Demo.el;
  eemd_get_scores := eemd_get_scores Demo.el;
  postprocess_get_results := postprocess_get_results Demo.el;
|}.

(** Disambiguation rows without the entity, and without the text. *)
Definition no_entity : @ConvEL (list (gmap pykey pyval)) (pyval * list pyval)
                               unit unit := {|
  threshold := threshold Demo.el;
  bert_md_md := bert_md_md Demo.el;
  response_model_generate_response := λ _ _ spans,
    Returned (map (λ sp, [default PNone (sp !! 0); default PNone (sp !! 1);
                          PStr "Rex"]) spans);
  pemd_pem_detector := pemd_pem_detector Demo.el;
  preprocess_get_tokens_with_info := preprocess_get_tokens_with_info Demo.el;
  preprocess_get_input_of_pe_linking :=
    preprocess_get_input_of_pe_linking Demo.el;
  eemd_get_scores := eemd_get_scores Demo.el;
  postprocess_get_results := postprocess_get_results Demo.el;
|}.

Definition no_text : @ConvEL (list (gmap pykey pyval)) (pyval * list pyval)
                             unit unit := {|
  threshold := threshold Demo.el;
  bert_md_md := bert_md_md Demo.el;
  response_model_generate_response := λ _ _ spans, Returned spans;
  pemd_pem_detector := pemd_pem_detector Demo.el;
  preprocess_get_tokens_with_info := preprocess_get_tokens_with_info Demo.el;
  preprocess_get_input_of_pe_linking :=
    preprocess_get_input_of_pe_linking Demo.el;
  eemd_get_scores := eemd_get_scores Demo.el;
  postprocess_get_results := postprocess_get_results Demo.el;
|}.

(** A personal-mention detector that finds the same words twice, and one
    whose rows carry a fourth field. *)
Definition twice : @ConvEL (list (gmap pykey pyval)) (pyval * list pyval)
                           unit unit := {|
  threshold := threshold Demo.el;
  bert_md_md := bert_md_md Demo.el;
  response_model_generate_response :=
    response_model_generate_response Demo.el;
  pemd_pem_detector := λ _ utt,
    if py_eq_str utt "my dog is cute"
    then Returned [[PInt 0; PInt 6; PStr "my dog"];
                   [PInt 20; PInt 6; PStr "my dog"]]
    else Returned [];
  preprocess_get_tokens_with_info := preprocess_get_tokens_with_info Demo.el;
  preprocess_get_input_of_pe_linking :=
    preprocess_get_input_of_pe_linking Demo.el;
  eemd_get_scores := eemd_get_scores Demo.el;
  postprocess_get_results := postprocess_get_results Demo.el;
|}.

Definition wide : @ConvEL (list (gmap pykey pyval)) (pyval * list pyval)
                          unit unit := {|
  threshold := threshold Demo.el;
  bert_md_md := bert_md_md Demo.el;
  response_model_generate_response :=
    response_model_generate_response Demo.el;
  pemd_pem_detector := λ _ _,
    Returned [[PInt 0; PInt 6; PStr "my dog"; PInt 1]];
  preprocess_get_tokens_with_info := preprocess_get_tokens_with_info Demo.el;
  preprocess_get_input_of_pe_linking :=
    preprocess_get_input_of_pe_linking Demo.el;
  eemd_get_scores := eemd_get_scores Demo.el;
  postprocess_get_results := postprocess_get_results Demo.el;
|}.

(** A conversation with a speaker that is neither USER nor SYSTEM, and one
    in which only the system speaks. *)
Definition intruder : state :=
  State [Demo.turn "USER" "hi"; Demo.turn "BOT" "beep";
         OList [PRef 0; PRef 1]]
        PNone PNone.

Definition quiet : state :=
  State [Demo.turn "SYSTEM" "Hello"; Demo.turn "SYSTEM" "Anyone there?";
         OList [PRef 0; PRef 1]]
        PNone PNone.

(** The state in which the first turn of [Demo.start] is linked. *)
Definition recorded1 : state :=
  final_state (annotate_turn_record (PRef 4) (PRef 0)
                 (fresh_call Demo.start)).

(** The call of [Demo.start] with the detector that finds a mention
    twice. *)
Definition final_twice : state :=
  final_state (annotate twice Demo.conv Demo.start).

(** The first turn of [Demo.start] recorded and about to be linked, in the
    form the steps are stated for. *)
Definition utt1 : pyval := PStr "I love Rex".

Definition record1 : gmap pykey pyval := turn_record (PStr "USER") utt1.

Definition linking1 : state :=
  run (heap Demo.start) ∅ ([] ++ [(record1, record1)]).

(** A name that is linked twice, to another entity the second time: the
    dog of the first turn is a band in the second. *)
Definition utt2 : pyval := PStr "Rex rocks".

Definition relinking : @ConvEL (list (gmap pykey pyval)) (pyval * list pyval)
                               unit unit := {|
  threshold := threshold Demo.el;
  bert_md_md := λ _ utt,
    if py_eq_str utt "I love Rex" then Returned [[PInt 7; PInt 3]]
    else if py_eq_str utt "Rex rocks" then Returned [[PInt 0; PInt 3]]
    else Returned [];
  response_model_generate_response := λ _ utt spans,
    Returned (map (λ sp, [default PNone (sp !! 0); default PNone (sp !! 1);
                          PStr "Rex";
                          PStr (if py_eq_str utt "Rex rocks"
                                then "Rex_(band)" else "Rex_(dog)");
                          PInt 1; PStr "ANY"]) spans);
  pemd_pem_detector := pemd_pem_detector Demo.el;
  preprocess_get_tokens_with_info := preprocess_get_tokens_with_info Demo.el;
  preprocess_get_input_of_pe_linking :=
    preprocess_get_input_of_pe_linking Demo.el;
  eemd_get_scores := eemd_get_scores Demo.el;
  postprocess_get_results := postprocess_get_results Demo.el;
|}.

Definition fan : state :=
  State [Demo.turn "USER" "I love Rex"; Demo.turn "USER" "Rex rocks";
         OList [PRef 0; PRef 1]]
        PNone PNone.

Definition final_fan : state :=
  final_state (annotate relinking (PRef 2) fan).

(** The states the call on [fan] goes through: for each of the two turns,
    after the records are made, after [_el], after [_pe], and at the end
    of the turn. *)
Definition fan_recorded1 : state :=
  final_state (annotate_turn_record (PRef 3) (PRef 0) (fresh_call fan)).

Definition fan_linked1 : state :=
  final_state (_el relinking utt1 fan_recorded1).

Definition fan_resolved1 : state :=
  final_state (_pe relinking utt1 fan_linked1).

Definition fan_after1 : state :=
  final_state (annotate_turn relinking (PRef 3) (PRef 0) (fresh_call fan)).

Definition fan_recorded2 : state :=
  final_state (annotate_turn_record (PRef 3) (PRef 1) fan_after1).

Definition fan_linked2 : state :=
  final_state (_el relinking utt2 fan_recorded2).

Definition fan_resolved2 : state :=
  final_state (_pe relinking utt2 fan_linked2).

Definition fan_after2 : state :=
  final_state (annotate_turn relinking (PRef 3) (PRef 1) fan_after1).

Definition row_dog : list pyval :=
  [PInt 7; PInt 3; PStr "Rex"; PStr "Rex_(dog)"; PInt 1; PStr "ANY"].

Definition row_band : list pyval :=
  [PInt 0; PInt 3; PStr "Rex"; PStr "Rex_(band)"; PInt 1; PStr "ANY"].

Definition fan_course : list (option linking) :=
  [Some (Linking utt1 fan_recorded1 [take 4 row_dog] fan_linked1 []
           fan_resolved1);
   Some (Linking utt2 fan_recorded2 [take 4 row_band] fan_linked2 []
           fan_resolved2)].

End Edge.

(** * Reasoning about runs *)


(** ** Outcomes of sequenced computations *)

Lemma bind_Ok {A B} (m : M A) (k : A → M B) s a s' :
  m s = Ok a s' → bind m k s = k a s'.
Proof. unfold bind. by intros ->. Qed.

Lemma bind_Raise {A B} (m : M A) (k : A → M B) s e s' :
  m s = Raise e s' → bind m k s = Raise e s'.
Proof. unfold bind. by intros ->. Qed.

Lemma bind_Ok_inv {A B} (m : M A) (k : A → M B) s b s' :
  bind m k s = Ok b s' → ∃ a s1, m s = Ok a s1 ∧ k a s1 = Ok b s'.
Proof. unfold bind. destruct (m s) as [a s1|e s1]; [eauto | done]. Qed.

Lemma reading_Val {A} (f : list pyobj → res A) s a :
  f (heap s) = Val a → reading f s = Ok a s.
Proof. unfold reading. by intros ->. Qed.

Lemma reading_Exn {A} (f : list pyobj → res A) s e :
  f (heap s) = Exn e → reading f s = Raise e s.
Proof. unfold reading. by intros ->. Qed.

Lemma for_each_app {A} (body : A → M unit) l1 l2 s :
  for_each body (l1 ++ l2) s
  = bind (for_each body l1) (λ _, for_each body l2) s.
Proof.
  revert s. induction l1 as [|a l1 IH]; intros s; simpl; [done|].
  unfold bind. destruct (body a s) as [[] s1|e s1]; [|done].
  exact (IH s1).
Qed.

Lemma for_fold_app {A B} (body : B → A → M B) l1 l2 b s :
  for_fold body (l1 ++ l2) b s
  = bind (for_fold body l1 b) (for_fold body l2) s.
Proof.
  revert b s. induction l1 as [|a l1 IH]; intros b s; simpl; [done|].
  unfold bind. destruct (body b a s) as [b' s1|e s1]; [|done].
  exact (IH b' s1).
Qed.

Lemma call_Returned {A} (f : list pyobj → reply A) s a :
  f (heap s) = Returned a → call f s = Ok a s.
Proof. unfold call. by intros ->. Qed.

Lemma call_Failed {A} (f : list pyobj → reply A) s w :
  f (heap s) = Failed w → call f s = Raise (ModelError w) s.
Proof. unfold call. by intros ->. Qed.

Lemma pure_Val {A} (r : res A) s a : r = Val a → pure r s = Ok a s.
Proof. by intros ->. Qed.

Lemma pure_Exn {A} (r : res A) s e : r = Exn e → pure r s = Raise e s.
Proof. by intros ->. Qed.

(** ** Rows read by position *)

Lemma py_index_Exn {A} (l : list A) i e : py_index l i = Exn e → e = IndexError.
Proof.
  unfold py_index. destruct (_ && _); [|congruence].
  destruct (l !! _); simpl; congruence.
Qed.

Lemma py_index_nat {A} (l : list A) (i : nat) :
  py_index l (Z.of_nat i) = of_option (l !! i) IndexError.
Proof.
  unfold py_index.
  destruct (Z.ltb_spec (Z.of_nat i) 0); [lia|].
  destruct (Z.leb_spec 0 (Z.of_nat i)); [|lia].
  rewrite Nat2Z.id.
  destruct (Z.ltb_spec (Z.of_nat i) (Z.of_nat (length l))); simpl; [done|].
  rewrite lookup_ge_None_2 by lia. done.
Qed.

Lemma py_index_Val {A} (l : list A) (i : nat) a :
  py_index l (Z.of_nat i) = Val a ↔ l !! i = Some a.
Proof.
  rewrite py_index_nat. destruct (l !! i); simpl; split; congruence.
Qed.

Lemma hashable_Exn v e : hashable v = Exn e → e = TypeError.
Proof. destruct v; simpl; congruence. Qed.

Lemma hashable_of_key v key : hashable v = Val key → v = of_key key.
Proof. destruct v; simpl; intros; simplify_eq; done. Qed.

Lemma res_map_Exn {A B} (f : A → res B) (P : exn → Prop) l e :
  (∀ a e, a ∈ l → f a = Exn e → P e) → res_map f l = Exn e → P e.
Proof.
  induction l as [|a l IH]; simpl; intros Hf; [done|].
  destruct (f a) as [b|e'] eqn:Ha; simpl.
  - destruct (res_map f l) as [bs|e'] eqn:Hl; simpl; [done|].
    intros [= ->]. apply IH; [|done]. intros ????. eapply Hf; [|done].
    by apply list_elem_of_further.
  - intros [= ->]. eapply Hf; [|done]. apply list_elem_of_here.
Qed.

Lemma res_map_Val {A B} (f : A → res B) l bs :
  res_map f l = Val bs → Forall2 (λ a b, f a = Val b) l bs.
Proof.
  revert bs. induction l as [|a l IH]; simpl; intros bs.
  - intros [= <-]. constructor.
  - destruct (f a) as [b|] eqn:Ha; simpl; [|done].
    destruct (res_map f l) as [bs'|]; simpl; [|done].
    intros [= <-]. constructor; auto.
Qed.

Lemma res_map_total {A B} (f : A → res B) l :
  Forall (λ a, ∃ b, f a = Val b) l → ∃ bs, res_map f l = Val bs.
Proof.
  induction 1 as [|a l [b Hb] _ [bs IH]]; simpl; [eauto|].
  rewrite Hb, IH. simpl. eauto.
Qed.

Lemma res_fold_Exn {A B} (f : B → A → res B) (P : exn → Prop) l b e :
  (∀ b a e, a ∈ l → f b a = Exn e → P e) → res_fold f l b = Exn e → P e.
Proof.
  revert b. induction l as [|a l IH]; simpl; intros b Hf; [done|].
  destruct (f b a) as [b'|e'] eqn:Ha; simpl.
  - apply IH. intros ?????. eapply Hf; [|done]. by apply list_elem_of_further.
  - intros [= ->]. eapply Hf; [|done]. apply list_elem_of_here.
Qed.

Lemma res_fold_app {A B} (f : B → A → res B) l1 l2 b :
  res_fold f (l1 ++ l2) b = res_bind (res_fold f l1 b) (res_fold f l2).
Proof.
  revert b. induction l1 as [|a l1 IH]; simpl; intros b; [done|].
  destruct (f b a); simpl; [apply IH | done].
Qed.

Lemma span_of_total r : (2 ≤ length r)%nat → ∃ sp, span_of r = Val sp.
Proof.
  destruct r as [|a [|b r]]; simpl; try lia. intros _.
  unfold span_of. change 0%Z with (Z.of_nat 0). change 1%Z with (Z.of_nat 1).
  rewrite !py_index_nat. simpl. eauto.
Qed.

Lemma span_of_Exn r e : span_of r = Exn e → e = IndexError.
Proof.
  unfold span_of. destruct (py_index r 0) eqn:H0; simpl.
  - destruct (py_index r 1) eqn:H1; simpl; [done|].
    intros [= <-]. by eapply py_index_Exn.
  - intros [= <-]. by eapply py_index_Exn.
Qed.

Lemma mention_entity_Val d r d' :
  mention_entity d r = Val d' ↔
  ∃ key ent, row_link r = Some (key, ent) ∧ d' = <[key := ent]> d.
Proof.
  unfold mention_entity, row_link.
  change 2%Z with (Z.of_nat 2). change 3%Z with (Z.of_nat 3).
  rewrite !py_index_nat.
  destruct (r !! 2) as [text|]; simpl.
  2:{ split; [done|]. by intros (?&?&?&_). }
  destruct (r !! 3) as [ent|]; simpl.
  2:{ split; [done|]. by intros (?&?&?&_). }
  destruct (hashable text) as [key|]; simpl; split.
  - intros [= <-]. by exists key, ent.
  - by intros (?&?&[= <- <-]&->).
  - done.
  - by intros (?&?&?&_).
Qed.

Lemma mention_entity_Exn d r e :
  mention_entity d r = Exn e → (e = IndexError ∨ e = TypeError) ∧ ¬ linked_row r.
Proof.
  unfold mention_entity, linked_row.
  change 2%Z with (Z.of_nat 2). change 3%Z with (Z.of_nat 3).
  rewrite !py_index_nat.
  destruct r as [|a [|b [|text [|ent r]]]]; simpl;
    try (intros [= <-]; split; [by left|];
         intros (?&?&?&?&?&?&?&?); by simplify_eq).
  destruct (hashable text) as [key|e'] eqn:Hk; simpl; [done|].
  intros [= <-]. split; [right; by eapply hashable_Exn|].
  intros (?&?&?&?&?&?&?&?). simplify_eq. congruence.
Qed.

Lemma linked_row_text r : linked_row r → ∃ text, py_index r 2%Z = Val text.
Proof.
  intros (?&?&text&?&?&?&->&_). exists text.
  change 2%Z with (Z.of_nat 2). by rewrite py_index_nat.
Qed.

Lemma res_fold_mention_entity rows d d' :
  res_fold mention_entity rows d = Val d' →
  Forall (λ r, is_Some (row_link r)) rows ∧ d' = foldl write_link d rows.
Proof.
  revert d. induction rows as [|r rows IH]; simpl; intros d.
  - intros [= <-]. by split.
  - destruct (mention_entity d r) as [d1|] eqn:Hr; simpl; [|done].
    apply mention_entity_Val in Hr as (key & ent & Hr & ->).
    intros [Hall ->]%IH. split; [constructor; eauto|].
    simpl. f_equal. unfold write_link. by rewrite Hr.
Qed.

Lemma foldl_write_link_union rows d :
  foldl write_link d rows = foldl write_link ∅ rows ∪ d.
Proof.
  revert d. induction rows as [|r rows IH] using rev_ind; intros d; simpl.
  - by rewrite (left_id_L ∅ (∪)).
  - rewrite !foldl_snoc. unfold write_link at 1 3.
    destruct (row_link r) as [[key ent]|]; [|apply IH].
    by rewrite IH, insert_union_l.
Qed.

(** Last write wins. *)
Lemma foldl_write_link_last pre r post d key ent :
  row_link r = Some (key, ent) →
  Forall (λ r', fst <$> row_link r' ≠ Some key) post →
  foldl write_link d (pre ++ r :: post) !! key = Some ent.
Proof.
  intros Hr Hpost. rewrite foldl_app. simpl.
  unfold write_link at 2. rewrite Hr.
  generalize (foldl write_link d pre). intros d0.
  revert d0. induction Hpost as [|r' post Hr' _ IH]; intros d0; simpl.
  - apply lookup_insert_eq.
  - unfold write_link at 2.
    destruct (row_link r') as [[key' ent']|]; [|apply IH].
    assert (key' ≠ key) by (intros ->; by apply Hr').
    rewrite insert_insert_ne by done. apply IH.
Qed.

Lemma foldl_write_link_other rows d key :
  Forall (λ r', fst <$> row_link r' ≠ Some key) rows →
  foldl write_link d rows !! key = d !! key.
Proof.
  intros Hrows. revert d.
  induction Hrows as [|r' rows Hr' _ IH]; intros d; simpl; [done|].
  rewrite IH. unfold write_link.
  destruct (row_link r') as [[key' ent']|]; [|done].
  apply lookup_insert_ne. intros ->. by apply Hr'.
Qed.

Lemma foldl_write_link_dom rows d r key ent :
  r ∈ rows → row_link r = Some (key, ent) →
  is_Some (foldl write_link d rows !! key).
Proof.
  intros Hin Hr. revert d.
  induction rows as [|r' rows IH] using rev_ind; intros d.
  - by apply elem_of_nil in Hin.
  - rewrite foldl_snoc. apply elem_of_app in Hin as [Hin|Hin].
    + unfold write_link at 1.
      destruct (row_link r') as [[key' ent']|]; [|by apply IH].
      destruct (decide (key' = key)) as [->|Hne].
      * rewrite lookup_insert_eq. eauto.
      * rewrite lookup_insert_ne by done. by apply IH.
    + apply list_elem_of_singleton in Hin as <-.
      unfold write_link at 1. rewrite Hr, lookup_insert_eq. eauto.
Qed.

Lemma foldl_write_link_mono rows d key :
  is_Some (d !! key) → is_Some (foldl write_link d rows !! key).
Proof.
  revert d. induction rows as [|r rows IH]; intros d Hd; simpl; [done|].
  apply IH. unfold write_link. destruct (row_link r) as [[key' ent]|]; [|done].
  destruct (decide (key' = key)) as [->|Hne].
  - rewrite lookup_insert_eq. eauto.
  - by rewrite lookup_insert_ne.
Qed.

Lemma mentions_of_rows rows ms m :
  res_map (λ r, py_index r 2%Z) rows = Val ms →
  Forall (λ r, is_Some (row_link r)) rows →
  m ∈ ms →
  ∃ r key ent, r ∈ rows ∧ row_link r = Some (key, ent) ∧ hashable m = Val key.
Proof.
  intros Hms%res_map_Val Hall Hm.
  induction Hms as [|r m' rows ms Hr _ IH].
  { by apply elem_of_nil in Hm. }
  apply Forall_cons in Hall as [[[key ent] Hlink] Hall].
  apply elem_of_cons in Hm as [->|Hm].
  - exists r, key, ent. split; [apply list_elem_of_here|]. split; [done|].
    apply (py_index_Val r 2) in Hr. unfold row_link in Hlink. rewrite Hr in Hlink.
    destruct (r !! 3); [|done]. destruct (hashable m'); by simplify_eq.
  - destruct (IH Hall Hm) as (r' & key' & ent' & Hin & ? & ?).
    exists r', key', ent'. split; [by apply list_elem_of_further | done].
Qed.

Lemma row_link_take r : row_link (take 4 r) = row_link r.
Proof.
  unfold row_link. by rewrite !lookup_take_lt by lia.
Qed.

Lemma row_link_length r : is_Some (row_link r) → length (take 4 r) = 4.
Proof.
  unfold row_link. intros [x Hx].
  destruct (r !! 3) eqn:H3; [|by destruct (r !! 2)].
  apply lookup_lt_Some in H3. rewrite length_take. lia.
Qed.

(** ** The shape of the store during a call of [annotate]

    [annotate] allocates, after the objects [σ0] that exist on entry, the
    list [ret], the history list and the mention map, and then two
    dictionaries per turn: the output record and the history record. *)

Section St.
Context (σ0 : list pyobj) (rr hr : list pyval)
        (mm : gmap pykey pyval) (cs : list pyobj).

Lemma St_lookup_old l :
  l < length σ0 → heap (St σ0 rr hr mm cs) !! l = σ0 !! l.
Proof. intros. simpl. by rewrite lookup_app_l. Qed.

Lemma St_lookup_ret :
  heap (St σ0 rr hr mm cs) !! length σ0 = Some (OList rr).
Proof. simpl. by rewrite list_lookup_middle. Qed.

Lemma St_lookup_hist :
  heap (St σ0 rr hr mm cs) !! (length σ0 + 1) = Some (OList hr).
Proof.
  simpl. rewrite lookup_app_r by lia.
  by replace (length σ0 + 1 - length σ0) with 1 by lia.
Qed.

Lemma St_lookup_map :
  heap (St σ0 rr hr mm cs) !! (length σ0 + 2) = Some (ODict mm).
Proof.
  simpl. rewrite lookup_app_r by lia.
  by replace (length σ0 + 2 - length σ0) with 2 by lia.
Qed.

Lemma St_lookup_cell j :
  heap (St σ0 rr hr mm cs) !! (length σ0 + 3 + j) = cs !! j.
Proof.
  simpl. rewrite lookup_app_r by lia.
  by replace (length σ0 + 3 + j - length σ0) with (S (S (S j))) by lia.
Qed.

Lemma St_length :
  length (heap (St σ0 rr hr mm cs)) = length σ0 + 3 + length cs.
Proof. simpl. rewrite length_app. simpl. lia. Qed.

Lemma alloc_St o :
  alloc o (St σ0 rr hr mm cs)
  = Ok (PRef (length σ0 + 3 + length cs)) (St σ0 rr hr mm (cs ++ [o])).
Proof.
  unfold alloc. rewrite St_length. unfold St. simpl.
  by rewrite <- app_assoc.
Qed.

Lemma write_ret rr' :
  write (length σ0) (OList rr') (St σ0 rr hr mm cs)
  = Ok tt (St σ0 rr' hr mm cs).
Proof.
  unfold write, St. simpl. f_equal. f_equal.
  rewrite insert_app_r_alt by lia.
  by replace (length σ0 - length σ0) with 0 by lia.
Qed.

Lemma write_hist hr' :
  write (length σ0 + 1) (OList hr') (St σ0 rr hr mm cs)
  = Ok tt (St σ0 rr hr' mm cs).
Proof.
  unfold write, St. simpl. f_equal. f_equal.
  rewrite insert_app_r_alt by lia.
  by replace (length σ0 + 1 - length σ0) with 1 by lia.
Qed.

Lemma write_map mm' :
  write (length σ0 + 2) (ODict mm') (St σ0 rr hr mm cs)
  = Ok tt (St σ0 rr hr mm' cs).
Proof.
  unfold write, St. simpl. f_equal. f_equal.
  rewrite insert_app_r_alt by lia.
  by replace (length σ0 + 2 - length σ0) with 2 by lia.
Qed.

Lemma write_cell j o :
  write (length σ0 + 3 + j) o (St σ0 rr hr mm cs)
  = Ok tt (St σ0 rr hr mm (<[j := o]> cs)).
Proof.
  unfold write, St. simpl. f_equal. f_equal.
  rewrite insert_app_r_alt by lia.
  by replace (length σ0 + 3 + j - length σ0) with (S (S (S j))) by lia.
Qed.

Lemma St_take : take (length σ0) (heap (St σ0 rr hr mm cs)) = σ0.
Proof. simpl. by rewrite take_app_length. Qed.

End St.

Lemma cells_length recs : length (cells recs) = 2 * length recs.
Proof. induction recs; simpl; lia. Qed.

Lemma cells_snoc recs p : cells (recs ++ [p]) = cells recs ++ [ODict p.1; ODict p.2].
Proof. unfold cells. rewrite flat_map_app. simpl. done. Qed.

Lemma refs_S base k : refs base (S k) = refs base k ++ [PRef (base + 2 * k)].
Proof. unfold refs. by rewrite seq_S, map_app. Qed.

Lemma refs_length base k : length (refs base k) = k.
Proof. unfold refs. by rewrite length_map, length_seq. Qed.

Lemma refs_lookup base k j : j < k → refs base k !! j = Some (PRef (base + 2 * j)).
Proof.
  intros. unfold refs. rewrite list_lookup_fmap, lookup_seq_lt by done. done.
Qed.

Lemma cells_lookup_fst recs j :
  cells recs !! (2 * j) = (λ p, ODict p.1) <$> recs !! j.
Proof.
  revert j. induction recs as [|p recs IH]; intros j; [done|].
  destruct j as [|j]; [done|].
  replace (2 * S j) with (S (S (2 * j))) by lia. apply IH.
Qed.

Lemma cells_lookup_snd recs j :
  cells recs !! (2 * j + 1) = (λ p, ODict p.2) <$> recs !! j.
Proof.
  revert j. induction recs as [|p recs IH]; intros j; [done|].
  destruct j as [|j]; [done|].
  replace (2 * S j + 1) with (S (S (2 * j + 1))) by lia. apply IH.
Qed.

Lemma cells_insert_fst recs rd hd rd' :
  <[2 * length recs := ODict rd']> (cells (recs ++ [(rd, hd)]))
  = cells (recs ++ [(rd', hd)]).
Proof.
  rewrite !cells_snoc. rewrite insert_app_r_alt by (rewrite cells_length; lia).
  rewrite cells_length. by replace (2 * length recs - 2 * length recs) with 0 by lia.
Qed.

Lemma cells_insert_snd recs rd hd hd' :
  <[2 * length recs + 1 := ODict hd']> (cells (recs ++ [(rd, hd)]))
  = cells (recs ++ [(rd, hd')]).
Proof.
  rewrite !cells_snoc. rewrite insert_app_r_alt by (rewrite cells_length; lia).
  rewrite cells_length.
  by replace (2 * length recs + 1 - 2 * length recs) with 1 by lia.
Qed.

Lemma py_index_last {A} (l : list A) (x : A) : py_index (l ++ [x]) (-1) = Val x.
Proof.
  unfold py_index. rewrite length_app. simpl.
  replace (-1 <? 0)%Z with true by done.
  destruct (Z.leb_spec 0 (-1 + Z.of_nat (length l + 1)));
    destruct (Z.ltb_spec (-1 + Z.of_nat (length l + 1)) (Z.of_nat (length l + 1)));
    try lia; simpl.
  replace (Z.to_nat (-1 + Z.of_nat (length l + 1))) with (length l) by lia.
  by rewrite list_lookup_middle.
Qed.

Section Steps.
Context {tokens item scores thr : Type} (self : @ConvEL tokens item scores thr).
Context (σ0 : list pyobj).

Local Abbreviation n0 := (length σ0) (only parsing).

Lemma getitem_old rr hr mm cs l d f v :
  l < n0 → σ0 !! l = Some (ODict d) → d !! KStr f = Some v →
  py_getitem (heap (St σ0 rr hr mm cs)) (PRef l) (PStr f) = Val v.
Proof.
  intros Hl Hd Hv. unfold py_getitem. rewrite St_lookup_old, Hd by done.
  unfold dict_getitem. simpl. by rewrite Hv.
Qed.

Lemma method_ret rr hr mm cs :
  py_method (heap (St σ0 rr hr mm cs)) (PRef n0) TList = Val n0.
Proof. unfold py_method, py_type. by rewrite St_lookup_ret. Qed.

Lemma method_hist rr hr mm cs :
  py_method (heap (St σ0 rr hr mm cs)) (PRef (n0 + 1)) TList = Val (n0 + 1).
Proof. unfold py_method, py_type. by rewrite St_lookup_hist. Qed.

Lemma method_map rr hr mm cs :
  py_method (heap (St σ0 rr hr mm cs)) (PRef (n0 + 2)) TDict = Val (n0 + 2).
Proof. unfold py_method, py_type. by rewrite St_lookup_map. Qed.

Lemma list_append_ret rr hr mm cs x :
  list_append n0 x (St σ0 rr hr mm cs) = Ok tt (St σ0 (rr ++ [x]) hr mm cs).
Proof. unfold list_append. by rewrite St_lookup_ret, write_ret. Qed.

Lemma list_append_hist rr hr mm cs x :
  list_append (n0 + 1) x (St σ0 rr hr mm cs)
  = Ok tt (St σ0 rr (hr ++ [x]) mm cs).
Proof. unfold list_append. by rewrite St_lookup_hist, write_hist. Qed.

Lemma dict_update_map rr hr mm cs upd :
  dict_update (n0 + 2) upd (St σ0 rr hr mm cs)
  = Ok tt (St σ0 rr hr (upd ∪ mm) cs).
Proof. unfold dict_update. by rewrite St_lookup_map, write_map. Qed.

Lemma setitem_cell rr hr mm cs j d f x :
  cs !! j = Some (ODict d) →
  py_setitem (PRef (n0 + 3 + j)) (PStr f) x (St σ0 rr hr mm cs)
  = Ok tt (St σ0 rr hr mm (<[j := ODict (<[KStr f := x]> d)]> cs)).
Proof.
  intros Hj. unfold py_setitem. rewrite St_lookup_cell, Hj.
  erewrite bind_Ok by reflexivity. apply write_cell.
Qed.

Lemma set_last_history_St rr hr mm cs j d f x :
  cs !! j = Some (ODict d) →
  set_last_history f x (St σ0 rr (hr ++ [PRef (n0 + 3 + j)]) mm cs)
  = Ok tt (St σ0 rr (hr ++ [PRef (n0 + 3 + j)]) mm
             (<[j := ODict (<[KStr f := x]> d)]> cs)).
Proof.
  intros Hj. unfold set_last_history.
  erewrite bind_Ok by reflexivity.
  erewrite bind_Ok; cycle 1.
  { apply reading_Val. simpl conv_hist_for_pe. unfold py_getitem.
    rewrite St_lookup_hist. simpl. apply py_index_last. }
  by apply setitem_cell.
Qed.

Lemma set_last_history_run mm recs rd hd f x :
  set_last_history f x (run σ0 mm (recs ++ [(rd, hd)]))
  = Ok tt (run σ0 mm (recs ++ [(rd, <[KStr f := x]> hd)])).
Proof.
  unfold run. rewrite !length_app. simpl length.
  replace (length recs + 1) with (S (length recs)) by lia.
  rewrite (refs_S (n0 + 4)).
  replace (n0 + 4 + 2 * length recs) with (n0 + 3 + (2 * length recs + 1))
    by lia.
  erewrite set_last_history_St; cycle 1.
  { by rewrite cells_lookup_snd, list_lookup_middle. }
  by rewrite cells_insert_snd.
Qed.

Lemma annotate_turn_record_run mm recs l d sp utt :
  l < n0 → σ0 !! l = Some (ODict d) →
  d !! KStr "speaker" = Some sp → is_speaker sp = true →
  d !! KStr "utterance" = Some utt →
  annotate_turn_record (PRef n0) (PRef l) (run σ0 mm recs)
  = Ok utt (run σ0 mm (recs ++ [(turn_record sp utt, turn_record sp utt)])).
Proof.
  intros Hl Hd Hsp Hok Hutt. unfold annotate_turn_record, run.
  erewrite bind_Ok by (apply reading_Val; by eapply getitem_old).
  erewrite bind_Ok; cycle 1.
  { unfold assert_speaker.
    erewrite bind_Ok by (apply reading_Val; by eapply getitem_old).
    rewrite Hok. reflexivity. }
  erewrite bind_Ok by (apply reading_Val; apply method_ret).
  erewrite bind_Ok by (apply reading_Val; by eapply getitem_old).
  erewrite bind_Ok by apply alloc_St.
  erewrite bind_Ok by apply list_append_ret.
  erewrite bind_Ok by reflexivity.
  erewrite bind_Ok by (apply reading_Val; apply method_hist).
  erewrite bind_Ok by apply alloc_St.
  erewrite bind_Ok by apply list_append_hist.
  erewrite bind_Ok by (apply reading_Val; by eapply getitem_old).
  rewrite !length_app, cells_length. simpl length.
  erewrite bind_Ok; cycle 1.
  { apply set_last_history_St. apply list_lookup_middle.
    rewrite length_app, cells_length. simpl. lia. }
  erewrite bind_Ok; cycle 1.
  { apply set_last_history_St.
    apply list_lookup_insert_eq.
    rewrite !length_app, cells_length. simpl. lia. }
  rewrite list_insert_insert_eq.
  rewrite insert_app_r_alt by (rewrite length_app, cells_length; simpl; lia).
  rewrite length_app, cells_length. simpl length.
  replace (2 * length recs + 1 - (2 * length recs + 1)) with 0 by lia.
  replace (n0 + 3 + (2 * length recs + 1)) with (n0 + 4 + 2 * length recs)
    by lia.
  replace (length recs + 1) with (S (length recs)) by lia.
  rewrite <- !refs_S, cells_snoc, <- app_assoc. simpl.
  unfold ret, turn_record. by rewrite !insert_empty.
Qed.

Lemma set_annotations_run mm recs rd hd x :
  bind (reading (λ σ, py_getitem σ (PRef n0) (PInt (-1))))
       (λ last, py_setitem last (PStr "annotations") x)
       (run σ0 mm (recs ++ [(rd, hd)]))
  = Ok tt (run σ0 mm (recs ++ [(<[KStr "annotations" := x]> rd, hd)])).
Proof.
  unfold run. rewrite !length_app. simpl length.
  replace (length recs + 1) with (S (length recs)) by lia.
  erewrite bind_Ok; cycle 1.
  { apply reading_Val. unfold py_getitem. rewrite St_lookup_ret. simpl.
    rewrite refs_S. apply py_index_last. }
  erewrite setitem_cell; cycle 1.
  { by rewrite cells_lookup_fst, list_lookup_middle. }
  by rewrite cells_insert_fst.
Qed.

Lemma history_run mm recs :
  dicts_of (heap (run σ0 mm recs)) (PRef (n0 + 1)) = recs.*2.
Proof.
  unfold dicts_of, run, py_iter. rewrite St_lookup_hist.
  set (σ := heap _).
  assert (Hall : Forall2 (λ v d, deref_dict σ v = Some d)
                   (refs (n0 + 4) (length recs)) (recs.*2)).
  { apply Forall2_same_length_lookup_2.
    - by rewrite refs_length, length_fmap.
    - intros j v d Hv Hd.
      apply lookup_lt_Some in Hv as Hlt. rewrite refs_length in Hlt.
      rewrite refs_lookup in Hv by done. injection Hv as <-.
      unfold deref_dict, σ.
      replace (n0 + 4 + 2 * j) with (n0 + 3 + (2 * j + 1)) by lia.
      rewrite St_lookup_cell, cells_lookup_snd.
      rewrite list_lookup_fmap in Hd.
      destruct (recs !! j) as [[rd hd]|]; simpl in *; congruence. }
  clearbody σ.
  induction Hall as [|v d vs ds Hv _ IH]; simpl; [done|].
  rewrite Hv. f_equal. exact IH.
Qed.

Lemma pe_find_closed s h vs l hd outputs r :
  conv_hist_for_pe s = PRef h →
  heap s !! h = Some (OList (vs ++ [PRef l])) →
  heap s !! l = Some (ODict hd) →
  _pe_find self outputs r s
  = match unpack3 r with
    | Exn e => Raise e s
    | Val pem => find_outcome self outputs (with_target l hd pem s)
    end.
Proof.
  intros Hh Hvs Hl. unfold _pe_find.
  destruct (unpack3 r) as [pem|e] eqn:Hr.
  2:{ by erewrite bind_Raise by (by apply pure_Exn). }
  erewrite bind_Ok by (by apply pure_Val).
  erewrite bind_Ok; cycle 1.
  { unfold set_last_history. erewrite bind_Ok by reflexivity.
    erewrite bind_Ok; cycle 1.
    { apply reading_Val. rewrite Hh. unfold py_getitem. rewrite Hvs. simpl.
      apply py_index_last. }
    unfold py_setitem. rewrite Hl.
    erewrite bind_Ok by reflexivity. reflexivity. }
  fold (with_target l hd pem s). set (s1 := with_target l hd pem s).
  erewrite bind_Ok by reflexivity. unfold find_outcome.
  destruct (preprocess_get_tokens_with_info _ _ _) as [tok|w] eqn:Htok.
  2:{ by erewrite bind_Raise by (by apply call_Failed). }
  erewrite bind_Ok by (by apply call_Returned).
  destruct (preprocess_get_input_of_pe_linking _ _ _) as [items|w] eqn:Hit.
  2:{ by erewrite bind_Raise by (by apply call_Failed). }
  erewrite bind_Ok by (by apply call_Returned).
  destruct items as [|x [|y items]]; try done.
  erewrite bind_Ok by reflexivity.
  erewrite bind_Ok by reflexivity.
  destruct (eemd_get_scores _ _ _) as [sc|w] eqn:Hsc.
  2:{ by erewrite bind_Raise by (by apply call_Failed). }
  erewrite bind_Ok by (by apply call_Returned).
  erewrite bind_Ok by reflexivity.
  destruct (postprocess_get_results _ _ _ _ _ _) as [results|w] eqn:Hres.
  2:{ by erewrite bind_Raise by (by apply call_Failed). }
  by erewrite bind_Ok by (by apply call_Returned).
Qed.

Lemma run_in_call mm recs : in_call σ0 (run σ0 mm recs).
Proof. unfold in_call, run. eauto 10. Qed.

Lemma ed_run text spans s :
  ed self text spans s
  = match response_model_generate_response self (heap s) text spans with
    | Returned rows => Ok rows s
    | Failed w => Raise (ModelError w) s
    end.
Proof.
  unfold ed, bind, call, py_list.
  destruct (response_model_generate_response _ _ _ _); [|done].
  unfold ret. by rewrite map_id.
Qed.

Lemma with_target_St rr hr mm cs j hd pem :
  with_target (n0 + 3 + j) hd pem (St σ0 rr hr mm cs)
  = St σ0 rr hr mm (<[j := ODict (<[KStr "pems" := PList [pem]]> hd)]> cs).
Proof.
  pose proof (write_cell σ0 rr hr mm cs j
    (ODict (<[KStr "pems" := PList [pem]]> hd))) as Hw.
  unfold write in Hw. injection Hw as Hw.
  unfold with_target, St. simpl. by f_equal.
Qed.

Lemma with_target_run mm recs rd hd pem :
  with_target (n0 + 3 + (2 * length recs + 1)) hd pem
    (run σ0 mm (recs ++ [(rd, hd)]))
  = run σ0 mm (recs ++ [(rd, <[KStr "pems" := PList [pem]]> hd)]).
Proof.
  unfold run. rewrite with_target_St, cells_insert_snd.
  by rewrite !length_app.
Qed.

Lemma pe_find_run mm recs rd hd outputs r :
  _pe_find self outputs r (run σ0 mm (recs ++ [(rd, hd)]))
  = match unpack3 r with
    | Exn e => Raise e (run σ0 mm (recs ++ [(rd, hd)]))
    | Val pem =>
        find_outcome self outputs
          (run σ0 mm (recs ++ [(rd, <[KStr "pems" := PList [pem]]> hd)]))
    end.
Proof.
  erewrite pe_find_closed with (h := n0 + 1)
    (l := n0 + 3 + (2 * length recs + 1)) (hd := hd); cycle 1.
  - done.
  - unfold run. rewrite St_lookup_hist, length_app. simpl length.
    replace (length recs + 1) with (S (length recs)) by lia.
    rewrite refs_S.
    by replace (n0 + 4 + 2 * length recs)
      with (n0 + 3 + (2 * length recs + 1)) by lia.
  - unfold run. by rewrite St_lookup_cell, cells_lookup_snd,
      list_lookup_middle.
  - destruct (unpack3 r); [|done]. by rewrite with_target_run.
Qed.

Lemma retargeted_insert hd hd' q :
  retargeted hd hd' → <[KStr "pems" := q]> hd' = <[KStr "pems" := q]> hd.
Proof. destruct 1; [done|]. apply insert_insert_eq. Qed.

Lemma retargeted_step hd hd' q :
  retargeted hd hd' → retargeted hd (<[KStr "pems" := q]> hd').
Proof. intros H. rewrite (retargeted_insert _ _ _ H). constructor. Qed.

Lemma retargeted_mentions hd hd' :
  retargeted hd hd' → field_list hd' "mentions" = field_list hd "mentions".
Proof.
  destruct 1; [done|]. unfold field_list. by rewrite lookup_insert_ne.
Qed.

Lemma unpack3_Val r pem : unpack3 r = Val pem ↔ ∃ a b, r = [a; b; pem].
Proof.
  destruct r as [|a [|b [|c [|d r]]]]; simpl; split;
    try done; try (intros (?&?&?); done).
  - intros [= ->]. eauto.
  - intros (?&?&[= -> -> ->]). done.
Qed.

Lemma unpack3_Exn r e : unpack3 r = Exn e → e = ValueError ∧ ¬ pem_row r.
Proof.
  destruct r as [|a [|b [|c [|d r]]]]; simpl; try done;
    intros [= <-]; (split; [done|]); intros (?&?&?&?&?&?); done.
Qed.

Lemma find_outcome_run mm recs rd hd pem outputs all :
  mentions_mapped mm (recs.*2 ++ [hd]) →
  (∃ a b, [a; b; pem] ∈ all) →
  let s1 := run σ0 mm (recs ++ [(rd, <[KStr "pems" := PList [pem]]> hd)]) in
  match find_outcome self outputs s1 with
  | Ok outputs' s' =>
      s' = s1 ∧
      (well_behaved self → Forall (resolvable all mm) outputs →
       Forall (resolvable all mm) outputs')
  | Raise e s' => s' = s1 ∧ ¬ validation_error e ∧ ¬ well_behaved self
  end.
Proof.
  intros Hmm (a & b & Hrow) s1. unfold find_outcome.
  assert (Hrecs : dicts_of (heap s1) (conv_hist_for_pe s1)
                  = recs.*2 ++ [<[KStr "pems" := PList [pem]]> hd]).
  { unfold s1. simpl conv_hist_for_pe. rewrite history_run.
    by rewrite fmap_app. }
  assert (Htarget : field_list (<[KStr "pems" := PList [pem]]> hd) "pems"
                    = [pem]).
  { unfold field_list. by rewrite lookup_insert_eq. }
  assert (Hpre : well_behaved self → ∃ tok x,
    preprocess_get_tokens_with_info self (heap s1) (conv_hist_for_pe s1)
      = Returned tok ∧
    preprocess_get_input_of_pe_linking self (heap s1) tok = Returned [x]).
  { intros Hwb. eapply (wb_pre _ Hwb); [|exact Htarget].
    rewrite Hrecs. apply last_snoc. }
  destruct (preprocess_get_tokens_with_info _ _ _) as [tok|w] eqn:Htok.
  2:{ split; [done|]. split; [by intros []|].
      intros (?&?&?&?)%Hpre. congruence. }
  destruct (preprocess_get_input_of_pe_linking _ _ _) as [items|w] eqn:Hit.
  2:{ split; [done|]. split; [by intros []|].
      intros (?&?&?&?)%Hpre. congruence. }
  assert (Hone : ∀ x, items = [x] →
    match eemd_get_scores self (heap s1) x with
    | Failed w => Raise (ModelError w) s1
    | Returned sc =>
        match postprocess_get_results self (heap s1) x
                (conv_hist_for_pe s1) (threshold self) sc with
        | Failed w => Raise (ModelError w) s1
        | Returned results => Ok (outputs ++ results) s1
        end
    end = find_outcome self outputs s1).
  { intros x ->. unfold find_outcome. by rewrite Htok, Hit. }
  destruct items as [|x [|y items]].
  - split; [done|]. split; [by intros []|].
    intros (?&?&?&?)%Hpre. congruence.
  - destruct (eemd_get_scores _ _ _) as [sc|w] eqn:Hsc.
    2:{ split; [done|]. split; [by intros []|]. intros Hwb.
        destruct (wb_scores _ Hwb (heap s1) x) as [? ?]. congruence. }
    destruct (postprocess_get_results _ _ _ _ _ _) as [results|w] eqn:Hres.
    2:{ split; [done|]. split; [by intros []|]. intros Hwb.
        destruct (wb_post _ Hwb (heap s1) x (conv_hist_for_pe s1) sc)
          as (?&?&_). congruence. }
    split; [done|]. intros Hwb Houts. apply Forall_app. split; [done|].
    destruct (wb_post _ Hwb (heap s1) x (conv_hist_for_pe s1) sc)
      as (results'&Hres'&Hacc).
    assert (results' = results) as -> by congruence.
    eapply Forall_impl; [exact Hacc|]. intros r.
    intros (pem' & eem & target & h & Hpem & Heem & Hlast & Hin & Hh & Hmen).
    rewrite Hrecs in Hlast, Hh. rewrite last_snoc in Hlast.
    injection Hlast as <-. rewrite Htarget in Hin.
    apply list_elem_of_singleton in Hin as ->.
    assert (∃ ekey, hashable eem = Val ekey ∧ is_Some (mm !! ekey))
      as (ekey & Hk & Hsome).
    { apply elem_of_app in Hh as [Hh| ->%list_elem_of_singleton].
      - eapply Hmm; [|done]. apply elem_of_app. by left.
      - eapply (Hmm hd).
        + apply elem_of_app. right. by apply list_elem_of_singleton.
        + unfold field_list in *. by rewrite lookup_insert_ne in Hmen. }
    exists pem, eem, [a; b; pem], ekey. done.
  - split; [done|]. split; [by intros []|].
    intros (?&?&?&?)%Hpre. congruence.
Qed.

Lemma mentions_mapped_retargeted mm hs hd hd' :
  retargeted hd hd' →
  mentions_mapped mm (hs ++ [hd]) → mentions_mapped mm (hs ++ [hd']).
Proof.
  intros Hre Hmm h eem [Hh| ->%list_elem_of_singleton]%elem_of_app Heem.
  - eapply Hmm; [|done]. apply elem_of_app. by left.
  - eapply (Hmm hd).
    + apply elem_of_app. right. by apply list_elem_of_singleton.
    + by rewrite <- (retargeted_mentions _ _ Hre).
Qed.

Lemma pe_collect_run mm recs rd hd all rows outputs hd' :
  mentions_mapped mm (recs.*2 ++ [hd]) →
  retargeted hd hd' →
  (∀ r, r ∈ rows → r ∈ all) →
  match for_fold (_pe_find self) rows outputs
          (run σ0 mm (recs ++ [(rd, hd')])) with
  | Ok outputs' s' =>
      (∃ hd'', retargeted hd hd'' ∧ s' = run σ0 mm (recs ++ [(rd, hd'')])) ∧
      Forall (λ r, length r = 3) rows ∧
      (well_behaved self → Forall (resolvable all mm) outputs →
       Forall (resolvable all mm) outputs')
  | Raise e s' =>
      in_call σ0 s' ∧ ¬ validation_error e ∧
      ¬ (well_behaved self ∧ Forall pem_row rows)
  end.
Proof.
  intros Hmm Hre Hall. revert outputs hd' Hre.
  induction rows as [|r rows IH]; intros outputs hd' Hre; simpl.
  { split; [by exists hd'|]. split; [constructor|]. done. }
  unfold bind. rewrite pe_find_run.
  destruct (unpack3 r) as [pem|e] eqn:Hr.
  2:{ apply unpack3_Exn in Hr as [-> Hbad]. split; [apply run_in_call|].
      split; [by intros []|]. intros [_ Hrows]. apply Hbad.
      by eapply Forall_inv. }
  apply unpack3_Val in Hr as (a & b & ->).
  pose proof (find_outcome_run mm recs rd hd' pem outputs all) as Hfind.
  simpl in Hfind.
  destruct (find_outcome _ _) as [outputs1 s1|e s1].
  - destruct Hfind as [-> Hres].
    { by eapply mentions_mapped_retargeted. }
    { exists a, b. apply Hall. apply list_elem_of_here. }
    specialize (IH (λ r Hr, Hall r (list_elem_of_further _ _ _ Hr))
                   outputs1 _ (retargeted_step _ _ (PList [pem]) Hre)).
    destruct (for_fold _ _ _ _) as [outputs' s'|e s'].
    + destruct IH as (Hs' & Hlen & Hres'). split; [done|].
      split; [by constructor|]. auto.
    + destruct IH as (Hs' & He & Hwb). split; [done|]. split; [done|].
      intros [Hwb1 Hrows]. apply Hwb. split; [done|].
      by eapply Forall_inv_tail.
  - destruct Hfind as (-> & He & Hwb).
    { by eapply mentions_mapped_retargeted. }
    { exists a, b. apply Hall. apply list_elem_of_here. }
    split; [apply run_in_call|]. split; [done|]. by intros [? _].
Qed.

Lemma pe_entity_St rr hr mm cs pem2result acc r :
  _pe_entity pem2result acc r (St σ0 rr hr mm cs)
  = match entities_of pem2result mm acc r with
    | Val acc' => Ok acc' (St σ0 rr hr mm cs)
    | Exn e => Raise e (St σ0 rr hr mm cs)
    end.
Proof.
  unfold _pe_entity, entities_of, entity_of.
  unfold bind, pure, reading, get_ment2ent, ret.
  destruct (dict_getitem r (PStr "personal_entity_mention")) as [pem|];
    simpl; [|done].
  destruct (hashable pem) as [key|]; simpl; [|done].
  destruct (pem2result !! key) as [row|]; simpl; [|done].
  destruct (dict_getitem r (PStr "mention")) as [eem|]; simpl; [|done].
  change (σ0 ++ OList rr :: OList hr :: ODict mm :: cs)
    with (heap (St σ0 rr hr mm cs)).
  rewrite St_lookup_map.
  destruct (dict_getitem mm eem) as [ent|]; simpl; [|done].
  destruct (py_index row 0) as [start|]; simpl; [|done].
  destruct (py_index row 1) as [len|]; simpl; [|done].
  destruct (py_index row 2) as [text|]; simpl; done.
Qed.

Lemma pe_resolve_St rr hr mm cs pem2result outputs acc :
  for_fold (_pe_entity pem2result) outputs acc (St σ0 rr hr mm cs)
  = match res_fold (entities_of pem2result mm) outputs acc with
    | Val acc' => Ok acc' (St σ0 rr hr mm cs)
    | Exn e => Raise e (St σ0 rr hr mm cs)
    end.
Proof.
  revert acc. induction outputs as [|r outputs IH]; intros acc; simpl.
  { done. }
  unfold bind. rewrite pe_entity_St.
  destruct (entities_of pem2result mm acc r); simpl; [apply IH | done].
Qed.

Lemma dict_getitem_Exn d k e :
  dict_getitem d k = Exn e → e = TypeError ∨ ∃ key, e = KeyError key.
Proof.
  unfold dict_getitem. destruct (hashable k) as [key|e'] eqn:Hk; simpl.
  - destruct (d !! key); simpl; [done|]. intros [= <-]. eauto.
  - intros [= <-]. left. by eapply hashable_Exn.
Qed.

Lemma dict_getitem_str d f v :
  dict_getitem d (PStr f) = Val v ↔ d !! KStr f = Some v.
Proof.
  unfold dict_getitem. simpl. destruct (d !! KStr f); simpl; split; congruence.
Qed.

Lemma pem_entry_Val d r d' :
  pem_entry d r = Val d' ↔
  ∃ text key, r !! 2 = Some text ∧ hashable text = Val key ∧
              d' = <[key := r]> d.
Proof.
  unfold pem_entry. change 2%Z with (Z.of_nat 2). rewrite py_index_nat.
  destruct (r !! 2) as [text|]; simpl.
  2:{ split; [done|]. by intros (?&?&?&_). }
  destruct (hashable text) as [key|] eqn:Hk; simpl; split.
  - intros [= <-]. by exists text, key.
  - intros (?&?&[= <-]&?&->). congruence.
  - done.
  - intros (?&?&[= <-]&?&_). congruence.
Qed.

Lemma pem_entry_Exn d r e :
  pem_entry d r = Exn e → ¬ validation_error e ∧ ¬ pem_row r.
Proof.
  unfold pem_entry, pem_row. change 2%Z with (Z.of_nat 2).
  rewrite py_index_nat.
  destruct (r !! 2) as [text|] eqn:Hr; simpl.
  - destruct (hashable text) as [key|e'] eqn:Hk; simpl; [done|].
    intros [= <-]. apply hashable_Exn in Hk as Hk'. subst e'.
    split; [by intros []|]. intros (?&?&?&?&->&?). simplify_eq/=.
    congruence.
  - intros [= <-]. split; [by intros []|].
    intros (?&?&?&?&->&?). simplify_eq/=.
Qed.

Lemma pem_table rows d pem2result :
  res_fold pem_entry rows d = Val pem2result →
  (∀ key row, pem2result !! key = Some row →
     d !! key = Some row ∨ row ∈ rows) ∧
  (∀ row, row ∈ rows → ∃ text key,
     row !! 2 = Some text ∧ hashable text = Val key ∧
     is_Some (pem2result !! key)) ∧
  (∀ key, is_Some (d !! key) → is_Some (pem2result !! key)).
Proof.
  revert d. induction rows as [|r rows IH]; simpl; intros d.
  { intros [= <-]. split; [auto|]. split; [|done].
    intros row Hrow. by apply elem_of_nil in Hrow. }
  destruct (pem_entry d r) as [d1|] eqn:Hr; simpl; [|done].
  apply pem_entry_Val in Hr as (text & key & Htext & Hkey & ->).
  intros (Hfrom & Hto & Hmono)%IH. split; [|split].
  - intros key' row Hrow. destruct (Hfrom _ _ Hrow) as [Hd|Hin].
    + destruct (decide (key = key')) as [->|Hne].
      * rewrite lookup_insert_eq in Hd. injection Hd as <-.
        right. apply list_elem_of_here.
      * rewrite lookup_insert_ne in Hd by done. by left.
    + right. by apply list_elem_of_further.
  - intros row [->|Hin]%elem_of_cons; [|by apply Hto].
    exists text, key. split; [done|]. split; [done|].
    apply Hmono. rewrite lookup_insert_eq. eauto.
  - intros key' Hsome. apply Hmono.
    destruct (decide (key = key')) as [->|Hne].
    + rewrite lookup_insert_eq. eauto.
    + by rewrite lookup_insert_ne.
Qed.

Lemma pem_table_last rows d table key row :
  res_fold pem_entry rows d = Val table →
  table !! key = Some row →
  (d !! key = Some row ∧ Forall (other_text key) rows) ∨
  ∃ pre post text,
    rows = pre ++ row :: post ∧ row !! 2 = Some text ∧
    hashable text = Val key ∧ Forall (other_text key) post.
Proof.
  revert d. induction rows as [|r rows IH]; simpl; intros d.
  { intros [= <-] Hrow. left. by split. }
  destruct (pem_entry d r) as [d1|] eqn:Hr; simpl; [|done].
  apply pem_entry_Val in Hr as (text & k & Htext & Hk & ->).
  intros Htable Hrow.
  destruct (IH _ Htable Hrow) as [[Hd Hrows]|(pre & post & t & -> & ? & ? & ?)].
  - destruct (decide (k = key)) as [->|Hne].
    + rewrite lookup_insert_eq in Hd. injection Hd as <-.
      right. by exists [], rows, text.
    + rewrite lookup_insert_ne in Hd by done. left. split; [done|].
      constructor; [|done]. intros t Ht. congruence.
  - right. by exists (r :: pre), post, t.
Qed.

Lemma entity_of_Exn pem2result mm r e :
  entity_of pem2result mm r = Exn e → ¬ validation_error e.
Proof.
  unfold entity_of.
  destruct (dict_getitem r _) as [pem|e1] eqn:H1; simpl.
  2:{ intros [= <-]. apply dict_getitem_Exn in H1 as [->|[? ->]];
        by intros []. }
  destruct (hashable pem) as [key|e1] eqn:H2; simpl.
  2:{ intros [= <-]. apply hashable_Exn in H2 as ->. by intros []. }
  destruct (pem2result !! key) as [row|]; simpl.
  2:{ intros [= <-]. by intros []. }
  destruct (dict_getitem r (PStr "mention")) as [eem|e1] eqn:H3; simpl.
  2:{ intros [= <-]. apply dict_getitem_Exn in H3 as [->|[? ->]];
        by intros []. }
  destruct (dict_getitem mm eem) as [ent|e1] eqn:H4; simpl.
  2:{ intros [= <-]. apply dict_getitem_Exn in H4 as [->|[? ->]];
        by intros []. }
  destruct (py_index row 0) as [start|e1] eqn:H5; simpl.
  2:{ intros [= <-]. apply py_index_Exn in H5 as ->. by intros []. }
  destruct (py_index row 1) as [len|e1] eqn:H6; simpl.
  2:{ intros [= <-]. apply py_index_Exn in H6 as ->. by intros []. }
  destruct (py_index row 2) as [text|e1] eqn:H7; simpl.
  2:{ intros [= <-]. apply py_index_Exn in H7 as ->. by intros []. }
  done.
Qed.

Lemma entity_of_Val pem2result mm r a :
  entity_of pem2result mm r = Val a →
  ∃ pem key row eem ent start len text,
    r !! KStr "personal_entity_mention" = Some pem ∧
    hashable pem = Val key ∧ pem2result !! key = Some row ∧
    r !! KStr "mention" = Some eem ∧ dict_getitem mm eem = Val ent ∧
    row !! 0 = Some start ∧ row !! 1 = Some len ∧ row !! 2 = Some text ∧
    a = [start; len; text; ent].
Proof.
  unfold entity_of.
  destruct (dict_getitem r _) as [pem|e1] eqn:H1; simpl; [|done].
  destruct (hashable pem) as [key|e1] eqn:H2; simpl; [|done].
  destruct (pem2result !! key) as [row|] eqn:Hrow; simpl; [|done].
  destruct (dict_getitem r (PStr "mention")) as [eem|e1] eqn:H3;
    simpl; [|done].
  destruct (dict_getitem mm eem) as [ent|e1] eqn:H4; simpl; [|done].
  destruct (py_index row 0) as [start|e1] eqn:H5; simpl; [|done].
  destruct (py_index row 1) as [len|e1] eqn:H6; simpl; [|done].
  destruct (py_index row 2) as [text|e1] eqn:H7; simpl; [|done].
  intros [= <-].
  apply dict_getitem_str in H1, H3.
  apply (py_index_Val row 0) in H5. apply (py_index_Val row 1) in H6.
  apply (py_index_Val row 2) in H7.
  exists pem, key, row, eem, ent, start, len, text. done.
Qed.

Lemma entity_of_resolvable pems pem2result mm r :
  res_fold pem_entry pems ∅ = Val pem2result →
  Forall (λ r, length r = 3) pems →
  resolvable pems mm r →
  ∃ a, entity_of pem2result mm r = Val a.
Proof.
  intros (Hfrom & Hto & _)%pem_table Hlen.
  intros (pem & eem & row & ekey & Hpem & Hrow & Hrow2 & Heem & Hk & [ent Hent]).
  destruct (Hto _ Hrow) as (text & key & Htext & Hkey & [row' Hrow']).
  assert (text = pem) as -> by congruence.
  destruct (Hfrom _ _ Hrow') as [Hempty|Hin].
  { by rewrite lookup_empty in Hempty. }
  eapply Forall_forall in Hlen; [|exact Hin].
  destruct row' as [|start [|len [|text [|? ?]]]]; simplify_eq/=.
  unfold entity_of.
  apply dict_getitem_str in Hpem, Heem. rewrite Hpem. simpl.
  rewrite Hkey. simpl. rewrite Hrow'. simpl. rewrite Heem. simpl.
  unfold dict_getitem at 1. rewrite Hk. simpl. rewrite Hent. simpl.
  eauto.
Qed.

Lemma entities_of_Val pem2result mm outputs acc acc' :
  res_fold (entities_of pem2result mm) outputs acc = Val acc' →
  ∃ new, acc' = acc ++ new ∧
         Forall2 (λ r a, entity_of pem2result mm r = Val a) outputs new.
Proof.
  revert acc. induction outputs as [|r outputs IH]; simpl; intros acc.
  { intros [= <-]. exists []. by rewrite app_nil_r. }
  unfold entities_of at 1.
  destruct (entity_of pem2result mm r) as [a|] eqn:Hr; simpl; [|done].
  intros (new & -> & Hnew)%IH. exists (a :: new).
  rewrite <- app_assoc. split; [done|]. by constructor.
Qed.

Lemma entities_of_Exn pem2result mm outputs acc e :
  res_fold (entities_of pem2result mm) outputs acc = Exn e →
  ∃ r, r ∈ outputs ∧ entity_of pem2result mm r = Exn e.
Proof.
  revert acc. induction outputs as [|r outputs IH]; simpl; intros acc.
  { done. }
  unfold entities_of at 1.
  destruct (entity_of pem2result mm r) as [a|e'] eqn:Hr; simpl.
  - intros (r' & Hin & Hr')%IH. exists r'. split; [|done].
    by apply list_elem_of_further.
  - intros [= <-]. exists r. split; [apply list_elem_of_here | done].
Qed.

Lemma entity_of_annotation pems pem2result mm r a :
  res_fold pem_entry pems ∅ = Val pem2result →
  Forall (λ r, length r = 3) pems →
  entity_of pem2result mm r = Val a →
  personal_annotation pems mm r a.
Proof.
  intros Htable Hlen Hr.
  apply entity_of_Val in Hr
    as (pem & key & row & eem & ent & start & len & text &
        Hpem & Hkey & Hrow & Heem & Hent & H0 & H1 & H2 & ->).
  destruct (pem_table_last _ _ _ _ _ Htable Hrow)
    as [[Hempty _]|(pre & post & text' & -> & Htext & Hkey' & _)].
  { by rewrite lookup_empty in Hempty. }
  assert (length row = 3) as Hrow3.
  { eapply Forall_forall in Hlen; [exact Hlen|].
    apply elem_of_app. right. apply list_elem_of_here. }
  assert (text' = text) as -> by congruence.
  assert (text = pem) as ->.
  { apply hashable_of_key in Hkey, Hkey'. congruence. }
  exists start, len, pem, eem, ent.
  split; [done|]. split; [done|]. split; [|done].
  destruct row as [|? [|? [|? [|? ?]]]]; simplify_eq/=.
  apply elem_of_app. right. apply list_elem_of_here.
Qed.

Lemma el_run mm recs rd hd utt :
  match _el self utt (run σ0 mm (recs ++ [(rd, hd)])) with
  | Ok anns s' =>
      ∃ rows ms,
        el_done self (heap (run σ0 mm (recs ++ [(rd, hd)]))) utt rows ms ∧
        anns = map (take 4) rows ∧
        s' = run σ0 (foldl write_link mm rows)
               (recs ++ [(rd, <[KStr "mentions" := PList ms]> hd)])
  | Raise e s' => failure self σ0 e s'
  end.
Proof.
  set (s := run σ0 mm (recs ++ [(rd, hd)])). unfold _el.
  assert (Hs : in_call σ0 s) by apply run_in_call.
  destruct (bert_md_md self (heap s) utt) as [md|w] eqn:Hmd.
  2:{ erewrite bind_Raise by (by apply call_Failed).
      split; [done|]. split; [by intros []|].
      intros Hwb. destruct (wb_md _ Hwb (heap s) utt) as (?&?&_).
      congruence. }
  erewrite bind_Ok by (by apply call_Returned).
  destruct (res_map span_of md) as [spans|e] eqn:Hspans.
  2:{ erewrite bind_Raise by (by apply pure_Exn).
      split; [done|]. split.
      - eapply (res_map_Exn span_of (λ e, ¬ validation_error e));
          [|exact Hspans].
        intros r e' _ ->%span_of_Exn. by intros [].
      - intros Hwb. destruct (wb_md _ Hwb (heap s) utt) as (md'&Hmd'&Hall).
        assert (md' = md) as -> by congruence.
        destruct (res_map_total span_of md) as [? ?]; [|congruence].
        eapply Forall_impl; [exact Hall|]. apply span_of_total. }
  erewrite bind_Ok by (by apply pure_Val).
  unfold bind at 1. rewrite ed_run.
  destruct (response_model_generate_response self (heap s) utt spans)
    as [rows|w] eqn:Hrows.
  2:{ split; [done|]. split; [by intros []|].
      intros Hwb. destruct (wb_ed _ Hwb (heap s) utt spans) as (?&?&_).
      congruence. }
  destruct (res_map (λ r, py_index r 2%Z) rows) as [ms|e] eqn:Hms.
  2:{ erewrite bind_Raise by (by apply pure_Exn).
      split; [done|]. split.
      - eapply (res_map_Exn _ (λ e, ¬ validation_error e)); [|exact Hms].
        intros r e' _ ->%py_index_Exn. by intros [].
      - intros Hwb.
        destruct (wb_ed _ Hwb (heap s) utt spans) as (rows'&Hrows'&Hall).
        assert (rows' = rows) as -> by congruence.
        destruct (res_map_total (λ r, py_index r 2%Z) rows) as [? ?];
          [|congruence].
        eapply Forall_impl; [exact Hall|]. apply linked_row_text. }
  erewrite bind_Ok by (by apply pure_Val).
  erewrite bind_Ok by apply set_last_history_run.
  set (s1 := run σ0 mm (recs ++ [(rd, <[KStr "mentions" := PList ms]> hd)])).
  erewrite bind_Ok by reflexivity.
  erewrite bind_Ok by (apply reading_Val; apply method_map).
  destruct (res_fold mention_entity rows ∅) as [upd|e] eqn:Hupd.
  2:{ erewrite bind_Raise by (by apply pure_Exn).
      split; [apply run_in_call|]. split.
      - eapply (res_fold_Exn _ (λ e, ¬ validation_error e)); [|exact Hupd].
        intros d r e' _ [[->| ->] _]%mention_entity_Exn; by intros [].
      - intros Hwb.
        destruct (wb_ed _ Hwb (heap s) utt spans) as (rows'&Hrows'&Hall).
        assert (rows' = rows) as -> by congruence.
        eapply (res_fold_Exn _ (λ _, False)); [|exact Hupd].
        intros d r e' Hr [_ Hbad]%mention_entity_Exn.
        apply Hbad. by eapply Forall_forall in Hall. }
  erewrite bind_Ok by (by apply pure_Val).
  erewrite bind_Ok by apply dict_update_map.
  apply res_fold_mention_entity in Hupd as [Hlinks ->].
  exists rows, ms. split; [by exists md, spans|]. split; [done|].
  unfold ret. by rewrite <- foldl_write_link_union.
Qed.

Lemma pe_run mm recs rd hd utt :
  mentions_mapped mm (recs.*2 ++ [hd]) →
  match _pe self utt (run σ0 mm (recs ++ [(rd, hd)])) with
  | Ok anns s' =>
      s' = run σ0 mm (recs ++ [(rd, <[KStr "pems" := PList []]> hd)]) ∧
      ∃ pems table outputs s_found,
        pemd_pem_detector self (heap (run σ0 mm (recs ++ [(rd, hd)]))) utt
          = Returned pems ∧
        res_fold pem_entry pems ∅ = Val table ∧
        Forall (λ r, length r = 3) pems ∧
        for_fold (_pe_find self) pems [] (run σ0 mm (recs ++ [(rd, hd)]))
          = Ok outputs s_found ∧
        Forall2 (λ r a, entity_of table mm r = Val a) outputs anns
  | Raise e s' => failure self σ0 e s'
  end.
Proof.
  intros Hmm. set (s := run σ0 mm (recs ++ [(rd, hd)])). unfold _pe.
  assert (Hs : in_call σ0 s) by apply run_in_call.
  destruct (pemd_pem_detector self (heap s) utt) as [pems|w] eqn:Hpems.
  2:{ erewrite bind_Raise by (by apply call_Failed).
      split; [done|]. split; [by intros []|].
      intros Hwb. destruct (wb_pemd _ Hwb (heap s) utt) as (?&?&_).
      congruence. }
  erewrite bind_Ok by (by apply call_Returned).
  assert (Hrows : well_behaved self → Forall pem_row pems).
  { intros Hwb. destruct (wb_pemd _ Hwb (heap s) utt) as (pems'&?&?).
    by assert (pems' = pems) as -> by congruence. }
  destruct (res_fold pem_entry pems ∅) as [pem2result|e] eqn:Htable.
  2:{ erewrite bind_Raise by (by apply pure_Exn).
      split; [done|]. split.
      - eapply (res_fold_Exn _ (λ e, ¬ validation_error e));
          [|exact Htable].
        by intros d r e' _ [? _]%pem_entry_Exn.
      - intros Hall%Hrows.
        eapply (res_fold_Exn _ (λ _, False)); [|exact Htable].
        intros d r e' Hr [_ Hbad]%pem_entry_Exn.
        apply Hbad. by eapply Forall_forall in Hall. }
  erewrite bind_Ok by (by apply pure_Val).
  unfold bind at 1.
  pose proof (pe_collect_run mm recs rd hd pems pems [] hd Hmm
                (retargeted_same hd) (λ r Hr, Hr)) as Hcollect.
  fold s in Hcollect.
  destruct (for_fold (_pe_find self) pems [] s) as [outputs s3|e s3]
    eqn:Hfind.
  2:{ destruct Hcollect as (? & ? & Hwb). split; [done|]. split; [done|].
      intros Hwb'. apply Hwb. auto. }
  destruct Hcollect as ((hd' & Hre & ->) & Hlen & Hres).
  erewrite bind_Ok by apply set_last_history_run.
  rewrite (retargeted_insert _ _ _ Hre).
  unfold run at 1. rewrite pe_resolve_St.
  fold (run σ0 mm (recs ++ [(rd, <[KStr "pems" := PList []]> hd)])).
  destruct (res_fold (entities_of pem2result mm) outputs [])
    as [anns|e] eqn:Hanns.
  - split; [done|].
    exists pems, pem2result, outputs, (run σ0 mm (recs ++ [(rd, hd')])).
    split; [done|]. split; [done|]. split; [done|]. split; [done|].
    by apply entities_of_Val in Hanns as (new & -> & Hnew).
  - split; [apply run_in_call|].
    apply entities_of_Exn in Hanns as (r & Hin & Hr).
    split; [by eapply entity_of_Exn|].
    intros Hwb.
    assert (Hall : Forall (resolvable pems mm) outputs) by auto.
    eapply Forall_forall in Hall; [|exact Hin].
    destruct (entity_of_resolvable pems pem2result mm r) as [a Ha];
      [done..|]. congruence.
Qed.

Lemma valid_turn_inv turn :
  valid_turn σ0 turn →
  ∃ l d sp utt,
    turn = PRef l ∧ l < n0 ∧ σ0 !! l = Some (ODict d) ∧
    d !! KStr "speaker" = Some sp ∧ d !! KStr "utterance" = Some utt ∧
    (sp = PStr "USER" ∨ sp = PStr "SYSTEM").
Proof.
  intros (l & d & sp & -> & Hd & Hdom & Hsp & Hor).
  assert (is_Some (d !! KStr "utterance")) as [utt Hutt].
  { apply elem_of_dom. rewrite Hdom. set_solver. }
  exists l, d, sp, utt. split; [done|]. split; [|done].
  by eapply lookup_lt_Some.
Qed.

Lemma mentions_mapped_mono mm rows hs :
  mentions_mapped mm hs → mentions_mapped (foldl write_link mm rows) hs.
Proof.
  intros Hmm h eem Hh Heem. destruct (Hmm h eem Hh Heem) as (key & ? & ?).
  exists key. split; [done|]. by apply foldl_write_link_mono.
Qed.

Lemma annotate_turn_run mm recs turn :
  valid_turn σ0 turn →
  mentions_mapped mm recs.*2 →
  match annotate_turn self (PRef n0) turn (run σ0 mm recs) with
  | Ok _ s' =>
      ∃ ev p,
        turn_steps self (PRef n0) turn (run σ0 mm recs) ev s' ∧
        s' = run σ0 (foldl write_link mm (links [ev])) (recs ++ [p]) ∧
        mentions_mapped (foldl write_link mm (links [ev])) (recs ++ [p]).*2 ∧
        turn_shape σ0 turn ev p
  | Raise e s' => failure self σ0 e s'
  end.
Proof.
  intros (l & d & sp & utt & -> & Hl & Hd & Hsp & Hutt & Hor)%valid_turn_inv
    Hmm.
  assert (Hok : is_speaker sp = true) by (by destruct Hor as [-> | ->]).
  pose proof (annotate_turn_record_run mm recs l d sp utt Hl Hd Hsp Hok Hutt)
    as Hrec.
  set (tr := turn_record sp utt) in *.
  set (s1 := run σ0 mm (recs ++ [(tr, tr)])) in *.
  assert (Hread : py_getitem (heap s1) (PRef l) (PStr "speaker") = Val sp).
  { unfold s1, run. by eapply getitem_old. }
  assert (Hnone : field_list tr "mentions" = []).
  { unfold field_list, tr, turn_record.
    rewrite lookup_insert_ne by done. by rewrite lookup_singleton_ne. }
  destruct (annotate_turn self (PRef n0) (PRef l) (run σ0 mm recs))
    as [[] s'|e s'] eqn:Hturn; unfold annotate_turn in Hturn;
    erewrite bind_Ok in Hturn by exact Hrec;
    erewrite bind_Ok in Hturn by (by apply reading_Val);
    destruct Hor as [-> | ->]; simpl in Hturn.
  - (* USER, completed *)
    unfold annotate_turn_link in Hturn.
    pose proof (el_run mm recs tr tr utt) as Hel. fold s1 in Hel.
    destruct (_el self utt s1) as [el s2|e s2] eqn:Hel_eq.
    2:{ by erewrite bind_Raise in Hturn by exact Hel_eq. }
    erewrite bind_Ok in Hturn by exact Hel_eq.
    destruct Hel as (rows & ms & Hdone & -> & ->).
    set (mm1 := foldl write_link mm rows) in *.
    set (hd1 := <[KStr "mentions" := PList ms]> tr) in *.
    assert (Hmm1 : mentions_mapped mm1 (recs.*2 ++ [hd1])).
    { intros h eem [Hh| ->%list_elem_of_singleton]%elem_of_app Heem.
      - by eapply mentions_mapped_mono.
      - destruct Hdone as (md & spans & _ & _ & _ & Hms & Hlinks).
        unfold field_list, hd1 in Heem. rewrite lookup_insert_eq in Heem.
        destruct (mentions_of_rows _ _ _ Hms Hlinks Heem)
          as (r & key & ent & Hin & Hr & Hk).
        exists key. split; [done|].
        by eapply foldl_write_link_dom. }
    pose proof (pe_run mm1 recs tr hd1 utt Hmm1) as Hpe.
    destruct (_pe self utt _) as [pe s3|e s3] eqn:Hpe_eq.
    2:{ by erewrite bind_Raise in Hturn by exact Hpe_eq. }
    erewrite bind_Ok in Hturn by exact Hpe_eq.
    destruct Hpe as (-> & _).
    rewrite set_annotations_run in Hturn. injection Hturn as <-.
    eexists (Some (Linking utt s1 (map (take 4) rows) _ pe _)), (_, _).
    assert (Hlinks : foldl write_link mm
              (links [Some (Linking utt s1 (map (take 4) rows)
                 (run σ0 mm1 (recs ++ [(tr, hd1)])) pe
                 (run σ0 mm1 (recs ++ [(tr, <[KStr "pems" := PList []]> hd1)])))])
            = mm1).
    { unfold links. simpl. rewrite app_nil_r. unfold mm1.
      clear. revert mm. induction rows as [|r rows IH]; intros mm; [done|].
      simpl. rewrite <- IH. f_equal. unfold write_link.
      by rewrite row_link_take. }
    rewrite Hlinks. split; [|split; [done|split]].
    + eapply turn_user; [exact Hrec|exact Hread|done|exact Hel_eq|
                         exact Hpe_eq|].
      unfold annotate_turn. erewrite bind_Ok by exact Hrec.
      erewrite bind_Ok by (by apply reading_Val). simpl.
      unfold annotate_turn_link. erewrite bind_Ok by exact Hel_eq.
      erewrite bind_Ok by exact Hpe_eq. apply set_annotations_run.
    + rewrite fmap_app. simpl.
      eapply mentions_mapped_retargeted; [|exact Hmm1]. constructor.
    + exists l, d, (PStr "USER"), utt. do 4 (split; [done|]).
      split; [done|]. split; [done|]. split.
      * split; [by exists mm, recs, tr, tr|].
        split; [by exists mm1, recs, tr, hd1|].
        by exists mm1, recs, tr, hd1.
      * by exists ms.
  - (* SYSTEM, completed *)
    injection Hturn as <-.
    exists None, (tr, tr). unfold links. simpl.
    split; [|split; [done|split]].
    + eapply turn_other; [exact Hrec|exact Hread|done|].
      unfold annotate_turn. erewrite bind_Ok by exact Hrec.
      by erewrite bind_Ok by (by apply reading_Val).
    + rewrite fmap_app. simpl.
      intros h eem [Hh| ->%list_elem_of_singleton]%elem_of_app Heem.
      * by eapply Hmm.
      * rewrite Hnone in Heem. by apply elem_of_nil in Heem.
    + by exists l, d, (PStr "SYSTEM"), utt.
  - (* USER, failed *)
    unfold annotate_turn_link in Hturn.
    pose proof (el_run mm recs tr tr utt) as Hel. fold s1 in Hel.
    destruct (_el self utt s1) as [el s2|e2 s2] eqn:Hel_eq.
    2:{ erewrite bind_Raise in Hturn by exact Hel_eq. by simplify_eq. }
    erewrite bind_Ok in Hturn by exact Hel_eq.
    destruct Hel as (rows & ms & Hdone & -> & ->).
    set (mm1 := foldl write_link mm rows) in *.
    set (hd1 := <[KStr "mentions" := PList ms]> tr) in *.
    assert (Hmm1 : mentions_mapped mm1 (recs.*2 ++ [hd1])).
    { intros h eem [Hh| ->%list_elem_of_singleton]%elem_of_app Heem.
      - by eapply mentions_mapped_mono.
      - destruct Hdone as (md & spans & _ & _ & _ & Hms & Hlinks).
        unfold field_list, hd1 in Heem. rewrite lookup_insert_eq in Heem.
        destruct (mentions_of_rows _ _ _ Hms Hlinks Heem)
          as (r & key & ent & Hin & Hr & Hk).
        exists key. split; [done|].
        by eapply foldl_write_link_dom. }
    pose proof (pe_run mm1 recs tr hd1 utt Hmm1) as Hpe.
    destruct (_pe self utt _) as [pe s3|e3 s3] eqn:Hpe_eq.
    2:{ erewrite bind_Raise in Hturn by exact Hpe_eq. by simplify_eq. }
    erewrite bind_Ok in Hturn by exact Hpe_eq.
    destruct Hpe as (-> & _). by rewrite set_annotations_run in Hturn.
  - (* SYSTEM, failed *) done.
Qed.

Lemma links_cons ev evs : links (ev :: evs) = links [ev] ++ links evs.
Proof. unfold links. simpl. by rewrite app_nil_r. Qed.

Lemma annotate_loop_run turns mm recs :
  Forall (valid_turn σ0) turns →
  mentions_mapped mm recs.*2 →
  match for_each (annotate_turn self (PRef n0)) turns (run σ0 mm recs) with
  | Ok _ s' =>
      ∃ evs recs',
        conv_steps self (PRef n0) turns (run σ0 mm recs) evs s' ∧
        s' = run σ0 (foldl write_link mm (links evs)) (recs ++ recs') ∧
        mentions_mapped (foldl write_link mm (links evs))
          (recs ++ recs').*2 ∧
        Forall3 (turn_shape σ0) turns evs recs'
  | Raise e s' => failure self σ0 e s'
  end.
Proof.
  intros Hvalid. revert mm recs.
  induction Hvalid as [|turn turns Hturn _ IH]; intros mm recs Hmm; simpl.
  { exists [], []. rewrite app_nil_r. split; [constructor|].
    split; [done|]. split; [done|]. constructor. }
  unfold bind.
  pose proof (annotate_turn_run mm recs turn Hturn Hmm) as Hrun.
  destruct (annotate_turn self (PRef n0) turn (run σ0 mm recs))
    as [[] s1|e s1]; [|done].
  destruct Hrun as (ev & p & Hsteps & -> & Hmm1 & Hshape).
  specialize (IH _ _ Hmm1).
  destruct (for_each _ turns _) as [[] s'|e s']; [|done].
  destruct IH as (evs & recs' & Hconv & -> & Hmm' & Hshapes).
  exists (ev :: evs), (p :: recs').
  rewrite (links_cons ev evs), foldl_app.
  replace (recs ++ p :: recs') with ((recs ++ [p]) ++ recs')
    by (by rewrite <- app_assoc).
  split; [by econstructor|]. split; [done|]. split; [done|].
  by constructor.
Qed.

End Steps.

(** ** Input validation *)

Lemma error_check_turn_run turn s :
  match _error_check_turn turn s with
  | Ok _ s' => s' = s ∧ valid_turn (heap s) turn
  | Raise e s' => s' = s ∧ validation_error e ∧ ¬ valid_turn (heap s) turn
  end.
Proof.
  unfold _error_check_turn.
  erewrite bind_Ok by reflexivity.
  destruct (bool_decide (py_type (heap s) turn = TDict)) eqn:Hty; simpl.
  2:{ split; [done|]. split; [done|].
      intros (l & d & sp & -> & Hd & _). unfold py_type in Hty.
      rewrite Hd in Hty. by rewrite bool_decide_eq_false in Hty. }
  apply bool_decide_eq_true in Hty. erewrite bind_Ok by reflexivity.
  destruct turn as [| | | |l]; try done. simpl in Hty.
  destruct (heap s !! l) as [[d|]|] eqn:Hd; try done.
  erewrite bind_Ok by (apply reading_Val; simpl; by rewrite Hd).
  destruct (bool_decide (dom d = {[KStr "speaker"; KStr "utterance"]}))
    eqn:Hdom; simpl.
  2:{ split; [done|]. split; [done|].
      intros (l' & d' & sp & [= <-] & Hd' & Hdom' & _).
      rewrite Hd in Hd'. injection Hd' as <-.
      by rewrite bool_decide_eq_false in Hdom. }
  apply bool_decide_eq_true in Hdom. erewrite bind_Ok by reflexivity.
  assert (is_Some (d !! KStr "speaker")) as [sp Hsp].
  { apply elem_of_dom. rewrite Hdom. set_solver. }
  assert (Hread : py_getitem (heap s) (PRef l) (PStr "speaker") = Val sp).
  { unfold py_getitem, dict_getitem. rewrite Hd. simpl. by rewrite Hsp. }
  unfold assert_speaker. erewrite bind_Ok by (by apply reading_Val).
  destruct (is_speaker sp) eqn:Hok.
  - split; [done|]. exists l, d, sp. do 4 (split; [done|]).
    unfold is_speaker, py_eq_str in Hok.
    destruct sp as [| |sp| |]; try done.
    apply orb_true_iff in Hok as [Hu|Hs];
      apply bool_decide_eq_true in Hu || apply bool_decide_eq_true in Hs;
      subst; auto.
  - erewrite bind_Ok by (by apply reading_Val).
    split; [done|]. split; [done|].
    intros (l' & d' & sp' & [= <-] & Hd' & _ & Hsp' & Hor).
    rewrite Hd in Hd'. injection Hd' as <-.
    rewrite Hsp in Hsp'. injection Hsp' as <-.
    by destruct Hor as [-> | ->].
Qed.

Lemma error_check_turns_run turns s :
  match for_each _error_check_turn turns s with
  | Ok _ s' => s' = s ∧ Forall (valid_turn (heap s)) turns
  | Raise e s' =>
      s' = s ∧ validation_error e ∧ ¬ Forall (valid_turn (heap s)) turns
  end.
Proof.
  induction turns as [|turn turns IH]; simpl; [by split|].
  unfold bind. pose proof (error_check_turn_run turn s) as Hturn.
  destruct (_error_check_turn turn s) as [[] s1|e s1].
  - destruct Hturn as [-> Hturn].
    destruct (for_each _error_check_turn turns s) as [[] s'|e s'].
    + destruct IH as [-> IH]. split; [done|]. by constructor.
    + destruct IH as (-> & ? & IH). split; [done|]. split; [done|].
      intros Hall. apply IH. by eapply Forall_inv_tail.
  - destruct Hturn as (-> & ? & Hturn). split; [done|]. split; [done|].
    intros Hall. apply Hturn. by eapply Forall_inv.
Qed.

Lemma error_check_run conv s :
  match _error_check conv s with
  | Ok _ s' => s' = s ∧ ∃ turns, valid_conversation (heap s) conv turns
  | Raise e s' =>
      s' = s ∧ validation_error e ∧
      ¬ ∃ turns, valid_conversation (heap s) conv turns
  end.
Proof.
  unfold _error_check. erewrite bind_Ok by reflexivity.
  destruct (bool_decide (py_type (heap s) conv = TList)) eqn:Hty; simpl.
  2:{ split; [done|]. split; [done|]. intros (turns & Hty' & _).
      by rewrite bool_decide_eq_false in Hty. }
  apply bool_decide_eq_true in Hty. erewrite bind_Ok by reflexivity.
  assert (∃ turns, py_iter (heap s) conv = Val turns) as [turns Hturns].
  { unfold py_type in Hty. unfold py_iter.
    destruct conv as [| | |vs|l]; try done; [eauto|].
    destruct (heap s !! l) as [[d|vs]|]; try done. eauto. }
  erewrite bind_Ok by (by apply reading_Val).
  pose proof (error_check_turns_run turns s) as Hcheck.
  destruct (for_each _error_check_turn turns s) as [[] s'|e s'].
  - destruct Hcheck as [-> Hall]. split; [done|]. by exists turns.
  - destruct Hcheck as (-> & ? & Hbad). split; [done|]. split; [done|].
    intros (turns' & _ & Hturns' & Hall). apply Hbad. congruence.
Qed.


(** ** The whole call *)

Section Annotate.
Context {tokens item scores thr : Type} (self : @ConvEL tokens item scores thr).

Lemma fresh_call_run s : fresh_call s = run (heap s) ∅ [].
Proof. done. Qed.

Lemma py_iter_old σ0 rr hr mm cs v vs :
  py_iter σ0 v = Val vs → py_iter (heap (St σ0 rr hr mm cs)) v = Val vs.
Proof.
  destruct v as [| | | |l]; try done. unfold py_iter. intros Hv.
  rewrite St_lookup_old; [done|].
  destruct (σ0 !! l) as [o|] eqn:Hl; [|done]. by eapply lookup_lt_Some.
Qed.

(** After validation, the call is the loop run from [fresh_call]. *)
Lemma annotate_begin conv turns s :
  valid_conversation (heap s) conv turns →
  annotate self conv s
  = bind (for_each (annotate_turn self (PRef (length (heap s)))) turns)
         (λ _, ret (PRef (length (heap s)))) (fresh_call s).
Proof.
  intros Hvalid. unfold annotate.
  pose proof (error_check_run conv s) as Hcheck.
  destruct (_error_check conv s) as [[] s1|e s1] eqn:Hc.
  2:{ destruct Hcheck as (_ & _ & []). eauto. }
  destruct Hcheck as [-> _]. erewrite bind_Ok by exact Hc.
  unfold bind at 1. unfold alloc at 1. simpl.
  unfold bind at 1. unfold alloc at 1. simpl.
  unfold bind at 1. unfold set_conv_hist_for_pe at 1. simpl.
  unfold bind at 1. unfold alloc at 1. simpl.
  unfold bind at 1. unfold set_ment2ent at 1. simpl.
  rewrite !length_app. simpl length.
  replace (State _ _ _) with (fresh_call s).
  2:{ unfold fresh_call. rewrite <- !app_assoc. simpl.
      by replace (length (heap s) + 1 + 1) with (length (heap s) + 2)
        by lia. }
  destruct Hvalid as (_ & Hturns & _).
  erewrite bind_Ok; [done|]. apply reading_Val.
  rewrite fresh_call_run. unfold run. by apply py_iter_old.
Qed.

Lemma annotate_run conv turns s :
  valid_conversation (heap s) conv turns →
  match annotate self conv s with
  | Ok r s' =>
      r = PRef (length (heap s)) ∧
      ∃ evs recs,
        conv_steps self r turns (fresh_call s) evs s' ∧
        s' = run (heap s) (foldl write_link ∅ (links evs)) recs ∧
        mentions_mapped (foldl write_link ∅ (links evs)) recs.*2 ∧
        Forall3 (turn_shape (heap s)) turns evs recs
  | Raise e s' => failure self (heap s) e s'
  end.
Proof.
  intros Hvalid. rewrite (annotate_begin _ _ _ Hvalid).
  destruct Hvalid as (_ & _ & Hall). unfold bind.
  pose proof (annotate_loop_run self (heap s) turns ∅ [] Hall) as Hloop.
  rewrite fresh_call_run.
  destruct (for_each _ turns _) as [[] s'|e s']; [|apply Hloop].
  2:{ intros h eem Hh. by apply elem_of_nil in Hh. }
  destruct Hloop as (evs & recs & ? & ? & ? & ?).
  { intros h eem Hh. by apply elem_of_nil in Hh. }
  split; [done|]. by exists evs, recs.
Qed.

End Annotate.

(** ** Reading a state of the call *)

Section Readers.
Context (σ0 : list pyobj).

Lemma records_run mm recs :
  list_of_dicts (heap (run σ0 mm recs)) (PRef (length σ0)) recs.*1.
Proof.
  exists (refs (length σ0 + 3) (length recs)). unfold run, py_type, py_iter.
  rewrite St_lookup_ret. split; [done|]. split; [done|].
  apply Forall2_same_length_lookup_2.
  - by rewrite refs_length, length_fmap.
  - intros j v d Hv Hd.
    apply lookup_lt_Some in Hv as Hlt. rewrite refs_length in Hlt.
    rewrite refs_lookup in Hv by done. injection Hv as <-.
    unfold deref_dict.
    replace (length σ0 + 3 + 2 * j) with (length σ0 + 3 + (2 * j)) by lia.
    rewrite St_lookup_cell, cells_lookup_fst.
    rewrite list_lookup_fmap in Hd.
    destruct (recs !! j) as [[rd hd]|]; simpl in *; congruence.
Qed.

Lemma mention_map_run mm recs : mention_map (run σ0 mm recs) = Some mm.
Proof.
  unfold mention_map, run.
  change (ment2ent (St _ _ _ _ _)) with (PRef (length σ0 + 2)).
  unfold deref_dict. by rewrite St_lookup_map.
Qed.

Lemma in_call_frame s l o :
  in_call σ0 s → σ0 !! l = Some o → heap s !! l = Some o.
Proof.
  intros (rr & hr & mm & cs & ->) Hl.
  rewrite St_lookup_old; [done|]. by eapply lookup_lt_Some.
Qed.

Lemma turn_shape_augmented turn ev p :
  turn_shape σ0 turn ev p → augmented σ0 turn p.1.
Proof.
  intros (l & d & sp & utt & -> & Hd & Hsp & Hutt & Hev).
  exists sp, utt. unfold py_getitem, dict_getitem. rewrite Hd. simpl.
  rewrite Hsp, Hutt. split; [done|]. split; [done|].
  destruct ev as [lk|].
  - destruct Hev as (-> & _ & _ & ms & ->). simpl. unfold turn_record.
    rewrite lookup_insert_ne, lookup_insert_ne, lookup_singleton_eq by done.
    rewrite lookup_insert_ne, lookup_insert_eq by done.
    split; [done|]. split; [done|]. left. split; [done|].
    rewrite !dom_insert_L, dom_singleton_L. set_solver.
  - destruct Hev as (-> & ->). simpl. unfold turn_record.
    rewrite lookup_insert_ne, lookup_singleton_eq by done.
    rewrite lookup_insert_eq.
    split; [done|]. split; [done|]. right. split; [done|].
    rewrite !dom_insert_L, dom_singleton_L. set_solver.
Qed.

End Readers.

(** * The claims *)

Section Claims.
Context {tokens item scores thr : Type} (self : @ConvEL tokens item scores thr).

(** C1, as amended.  On a valid conversation, whenever [annotate] returns,
    it returns a list with one dictionary per turn, in order; each carries
    the speaker and the utterance of its turn, and the key [annotations] is
    present exactly for USER turns.  It does return whenever the
    collaborators are well behaved. *)
Theorem annotate_augments_turns conv turns s :
  valid_conversation (heap s) conv turns →
  (∀ r s', annotate self conv s = Ok r s' →
     ∃ ds, list_of_dicts (heap s') r ds ∧
           Forall2 (augmented (heap s)) turns ds) ∧
  (well_behaved self → ∃ r s', annotate self conv s = Ok r s').
Proof.
  intros Hvalid. pose proof (annotate_run self conv turns s Hvalid) as Hrun.
  split.
  - intros r s' Heq. rewrite Heq in Hrun.
    destruct Hrun as (-> & evs & recs & _ & -> & _ & Hshapes).
    exists recs.*1. split; [apply records_run|].
    clear -Hshapes. induction Hshapes as [|turn ev p turns evs recs H _ IH].
    + constructor.
    + constructor; [|done]. by eapply turn_shape_augmented.
  - intros Hwb. destruct (annotate self conv s) as [r s'|e s']; [eauto|].
    by destruct Hrun as (_ & _ & []).
Qed.

(** C2, as amended.  [annotate] fails with an input-validation assertion
    (a message-less one or the speaker one) exactly when the input is not a
    valid conversation: not a list, or with an element that is not a dict,
    or a dict whose keys are not exactly [speaker] and [utterance], or a
    speaker that is neither ["USER"] nor ["SYSTEM"].  The assertion of
    [_pe] on the number of pre-processed items is not among them: it can
    fail on a valid conversation. *)
Theorem validation_failure_iff conv s :
  (∃ e s', annotate self conv s = Raise e s' ∧ validation_error e) ↔
  ¬ ∃ turns, valid_conversation (heap s) conv turns.
Proof.
  split.
  - intros (e & s' & Heq & He) [turns Hvalid].
    pose proof (annotate_run self conv turns s Hvalid) as Hrun.
    rewrite Heq in Hrun. by destruct Hrun as (_ & [] & _).
  - intros Hbad. pose proof (error_check_run conv s) as Hcheck.
    destruct (_error_check conv s) as [[] s1|e s1] eqn:Hc.
    + by destruct Hcheck as [_ ?].
    + destruct Hcheck as (-> & He & _). exists e, s. split; [|done].
      unfold annotate. by erewrite bind_Raise by exact Hc.
Qed.

(** C8.  Whatever the outcome, every object that existed when [annotate]
    was called is unchanged afterwards; the list returned and the
    dictionaries in it are new objects. *)
Theorem annotate_leaves_input_alone conv s :
  (∀ l o, heap s !! l = Some o →
          heap (final_state (annotate self conv s)) !! l = Some o) ∧
  (∀ r s', annotate self conv s = Ok r s' →
     ∃ lr vs,
       r = PRef lr ∧ (length (heap s) ≤ lr)%nat ∧
       heap s' !! lr = Some (OList vs) ∧
       Forall (λ v, ∃ l, v = PRef l ∧ (length (heap s) ≤ l)%nat ∧
                         ∃ d, heap s' !! l = Some (ODict d)) vs).
Proof.
  pose proof (error_check_run conv s) as Hcheck.
  destruct (_error_check conv s) as [[] s1|e s1] eqn:Hc.
  - destruct Hcheck as [-> [turns Hvalid]].
    pose proof (annotate_run self conv turns s Hvalid) as Hrun. split.
    + intros l o Hl. destruct (annotate self conv s) as [r s'|e s']; simpl.
      * destruct Hrun as (_ & evs & recs & _ & -> & _).
        eapply in_call_frame; [apply run_in_call | done].
      * destruct Hrun as (Hin & _). by eapply in_call_frame.
    + intros r s' Heq. rewrite Heq in Hrun.
      destruct Hrun as (-> & evs & recs & _ & -> & _).
      exists (length (heap s)), (refs (length (heap s) + 3) (length recs)).
      split; [done|]. split; [done|]. unfold run.
      split; [apply St_lookup_ret|].
      apply Forall_forall. intros v Hv.
      apply list_elem_of_lookup in Hv as [j Hj].
      apply lookup_lt_Some in Hj as Hlt. rewrite refs_length in Hlt.
      rewrite refs_lookup in Hj by done. injection Hj as <-.
      eexists. split; [done|]. split; [lia|].
      rewrite St_lookup_cell, cells_lookup_fst.
      destruct (lookup_lt_is_Some_2 recs j Hlt) as [p ->]. simpl. eauto.
  - destruct Hcheck as (-> & _).
    assert (Heq : annotate self conv s = Raise e s).
    { unfold annotate. by erewrite bind_Raise by exact Hc. }
    rewrite Heq. simpl. split; [done|]. intros ??; done.
Qed.

(** C3.  The list attached to a USER turn is what [_el] returned for the
    turn followed by what [_pe] returned, in that order and otherwise as
    returned; other turns get no [annotations] key. *)
Theorem annotations_explicit_then_personal conv turns s r s' :
  valid_conversation (heap s) conv turns →
  annotate self conv s = Ok r s' →
  ∃ evs ds,
    conv_steps self r turns (fresh_call s) evs s' ∧
    list_of_dicts (heap s') r ds ∧
    Forall2 (λ ev d,
      d !! KStr "annotations"
      = match ev with
        | Some lk => Some (PList (map PList (lk_el lk ++ lk_pe lk)))
        | None => None
        end) evs ds.
Proof.
  intros Hvalid Heq.
  pose proof (annotate_run self conv turns s Hvalid) as Hrun.
  rewrite Heq in Hrun.
  destruct Hrun as (-> & evs & recs & Hsteps & -> & _ & Hshapes).
  exists evs, recs.*1. split; [done|]. split; [apply records_run|].
  clear -Hshapes. induction Hshapes as [|turn ev p turns evs recs H _ IH].
  { constructor. }
  constructor; [|done].
  destruct H as (l & d & sp & utt & _ & _ & _ & _ & Hev).
  destruct ev as [lk|].
  - destruct Hev as (_ & _ & _ & ms & ->). simpl.
    by rewrite lookup_insert_eq.
  - destruct Hev as (_ & ->). simpl. unfold turn_record.
    rewrite lookup_insert_ne by done. by rewrite lookup_singleton_ne.
Qed.

(** C4, as amended.  Once validation has passed, the call proceeds from a
    state in which the history and the map are new and empty, whatever an
    earlier call left in the attributes; what the call does is the same
    for any such leftovers. *)
Theorem annotate_resets_bookkeeping conv turns s :
  valid_conversation (heap s) conv turns →
  history (fresh_call s) = [] ∧
  mention_map (fresh_call s) = Some ∅ ∧
  annotate self conv s
  = bind (for_each (annotate_turn self (PRef (length (heap s)))) turns)
         (λ _, ret (PRef (length (heap s)))) (fresh_call s) ∧
  ∀ hist m2e,
    annotate self conv (State (heap s) hist m2e) = annotate self conv s.
Proof.
  intros Hvalid. split; [|split; [|split]].
  - rewrite fresh_call_run. unfold history.
    change (conv_hist_for_pe (run (heap s) ∅ []))
      with (PRef (length (heap s) + 1)).
    by rewrite history_run.
  - rewrite fresh_call_run. apply mention_map_run.
  - by apply annotate_begin.
  - intros hist m2e.
    rewrite (annotate_begin self conv turns (State (heap s) hist m2e) Hvalid).
    by rewrite (annotate_begin self conv turns s Hvalid).
Qed.

Lemma conv_steps_linking ret_ turns s evs s' lk :
  conv_steps self ret_ turns s evs s' → Some lk ∈ evs →
  _el self (lk_utt lk) (lk_before_el lk) = Ok (lk_el lk) (lk_before_pe lk) ∧
  _pe self (lk_utt lk) (lk_before_pe lk) = Ok (lk_pe lk) (lk_after_pe lk).
Proof.
  induction 1 as [|turn turns s ev s1 evs s' Hturn _ IH].
  { intros Hin. by apply elem_of_nil in Hin. }
  intros [<-|Hin]%elem_of_cons; [|by apply IH].
  by inversion Hturn; subst.
Qed.

Lemma shapes_linking σ0 turns evs recs lk :
  Forall3 (turn_shape σ0) turns evs recs → Some lk ∈ evs → linking_ok σ0 lk.
Proof.
  induction 1 as [|turn ev p turns evs recs H _ IH].
  { intros Hin. by apply elem_of_nil in Hin. }
  intros [<-|Hin]%elem_of_cons; [|by apply IH].
  by destruct H as (l & d & sp & utt & _ & _ & _ & _ & _ & _ & ? & _).
Qed.

Lemma turn_record_speaker sp utt :
  turn_record sp utt !! KStr "speaker" = Some sp.
Proof.
  unfold turn_record. rewrite lookup_insert_ne by done.
  apply lookup_singleton_eq.
Qed.

Lemma linking_facts σ0 lk :
  linking_ok σ0 lk →
  _el self (lk_utt lk) (lk_before_el lk) = Ok (lk_el lk) (lk_before_pe lk) →
  _pe self (lk_utt lk) (lk_before_pe lk) = Ok (lk_pe lk) (lk_after_pe lk) →
  explicit_annotations self lk ∧ personal_annotations self lk ∧
  Forall (λ a, length a = 4) (lk_el lk ++ lk_pe lk) ∧
  ∃ h, last (history (lk_after_pe lk)) = Some h ∧
       h !! KStr "pems" = Some (PList []).
Proof.
  intros ((mm0 & recs0 & rd0 & hd0 & Hs1) &
          (mm & recs & rd & hd & Hs2 & Hmm) &
          (mm3 & recs3 & rd3 & hd3 & Hs3)) Hel Hpe.
  pose proof (el_run self σ0 mm0 recs0 rd0 hd0 (lk_utt lk)) as Hel_run.
  rewrite <- Hs1, Hel in Hel_run.
  destruct Hel_run as (rows & ms & (md & spans & ? & ? & ? & _ & Hlinks)
                       & Hrows & _).
  pose proof (pe_run self σ0 mm recs rd hd (lk_utt lk) Hmm) as Hpe_run.
  rewrite <- Hs2, Hpe in Hpe_run.
  destruct Hpe_run
    as (_ & pems & table & outputs & s_found & Hpems & Htable & Hlen
        & Hfind & Hanns).
  assert (Hpersonal : Forall2 (personal_annotation pems mm) outputs (lk_pe lk)).
  { eapply Forall2_impl; [exact Hanns|].
    intros r a. by apply entity_of_annotation. }
  split; [by exists md, spans, rows|].
  split.
  { exists pems, table, outputs, s_found, mm.
    split; [done|]. split; [done|]. split; [done|].
    split; [rewrite Hs2; apply mention_map_run|]. done. }
  split.
  { apply Forall_app. split.
    - rewrite Hrows. apply Forall_fmap.
      eapply Forall_impl; [exact Hlinks|]. intros row. apply row_link_length.
    - clear -Hpersonal.
      induction Hpersonal as [|r a ? ? Ha _ IH]; constructor; [|done].
      by destruct Ha as (?&?&?&?&?&_&_&_&_&->). }
  exists (<[KStr "pems" := PList []]> hd3). rewrite Hs3. unfold history.
  change (conv_hist_for_pe (run σ0 mm3 _)) with (PRef (length σ0 + 1)).
  rewrite history_run, fmap_app. simpl.
  split; [apply last_snoc | apply lookup_insert_eq].
Qed.

Lemma foldl_write_link_take d rows :
  foldl write_link d (map (take 4) rows) = foldl write_link d rows.
Proof.
  revert d. induction rows as [|r rows IH]; intros d; simpl; [done|].
  rewrite IH. unfold write_link at 2 4. by rewrite row_link_take.
Qed.

Lemma el_recorded σ0 lk :
  linking_ok σ0 lk →
  _el self (lk_utt lk) (lk_before_el lk) = Ok (lk_el lk) (lk_before_pe lk) →
  ∃ rows,
    disambiguated self lk rows ∧ mentions_recorded lk rows ∧
    lk_el lk = map (take 4) rows.
Proof.
  intros ((mm0 & recs0 & rd0 & hd0 & Hs1) & _) Hel.
  pose proof (el_run self σ0 mm0 recs0 rd0 hd0 (lk_utt lk)) as Hel_run.
  rewrite <- Hs1, Hel in Hel_run.
  destruct Hel_run as (rows & ms & (md & spans & ? & ? & ? & Hms & _)
                       & Hrows & Hs2).
  exists rows. split; [by exists md, spans|]. split; [|done].
  exists (<[KStr "mentions" := PList ms]> hd0), ms. rewrite Hs2.
  unfold history.
  change (conv_hist_for_pe (run σ0 _ _)) with (PRef (length σ0 + 1)).
  rewrite history_run, fmap_app. simpl.
  split; [apply last_snoc|]. split; [apply lookup_insert_eq|].
  apply res_map_Val in Hms. eapply Forall2_impl; [exact Hms|].
  intros r m Hr. by apply (py_index_Val r 2).
Qed.

Lemma links_disambiguated evs :
  (∀ lk, Some lk ∈ evs →
     ∃ rows, disambiguated self lk rows ∧ mentions_recorded lk rows ∧
             lk_el lk = map (take 4) rows) →
  ∃ rowss,
    Forall2 (λ lk rows, disambiguated self lk rows ∧ mentions_recorded lk rows)
      (omap id evs) rowss ∧
    links evs = map (take 4) (concat rowss).
Proof.
  induction evs as [|ev evs IH]; intros Hall.
  { exists []. split; [constructor|done]. }
  destruct IH as (rowss & Hrowss & Hlinks).
  { intros lk Hlk. apply Hall. by apply list_elem_of_further. }
  rewrite (links_cons ev evs), Hlinks. destruct ev as [lk|]; simpl.
  - destruct (Hall lk) as (rows & Hrows & Hrec & Hel);
      [apply list_elem_of_here|].
    exists (rows :: rowss). split.
    + by constructor.
    + unfold links. simpl. by rewrite Hel, app_nil_r, fmap_app.
  - by exists rowss.
Qed.

(** C5.  When [annotate] returns, the map is what the disambiguation rows
    of the call make it, written turn after turn and, within a turn, row
    after row: a mention text is sent to the entity of the last row that
    carries it, and a text no row carries is not a key.  The rows are those
    [self.ed] returned for each USER turn; [_el] recorded their texts in
    the history, and the explicit annotations are their first four
    fields. *)
Theorem mention_map_last_write_wins conv turns s r s' :
  valid_conversation (heap s) conv turns →
  annotate self conv s = Ok r s' →
  ∃ evs rowss mm,
    conv_steps self r turns (fresh_call s) evs s' ∧
    Forall2 (λ lk rows, disambiguated self lk rows ∧ mentions_recorded lk rows)
      (omap id evs) rowss ∧
    links evs = map (take 4) (concat rowss) ∧
    mention_map s' = Some mm ∧
    (∀ pre row post key ent,
       concat rowss = pre ++ row :: post →
       row_link row = Some (key, ent) →
       Forall (λ row', fst <$> row_link row' ≠ Some key) post →
       mm !! key = Some ent) ∧
    (∀ key,
       Forall (λ row, fst <$> row_link row ≠ Some key) (concat rowss) →
       mm !! key = None).
Proof.
  intros Hvalid Heq.
  pose proof (annotate_run self conv turns s Hvalid) as Hrun.
  rewrite Heq in Hrun.
  destruct Hrun as (-> & evs & recs & Hsteps & -> & _ & Hshapes).
  destruct (links_disambiguated evs) as (rowss & Hrowss & Hlinks).
  { intros lk Hlk.
    destruct (conv_steps_linking _ _ _ _ _ _ Hsteps Hlk) as [Hel _].
    pose proof (shapes_linking _ _ _ _ _ Hshapes Hlk) as Hok.
    by eapply el_recorded. }
  exists evs, rowss, (foldl write_link ∅ (concat rowss)).
  split; [done|]. split; [done|]. split; [done|].
  split; [rewrite Hlinks, foldl_write_link_take; apply mention_map_run|].
  split.
  - intros pre row post key ent -> Hrow Hpost.
    by apply foldl_write_link_last.
  - intros key Hall. by rewrite foldl_write_link_other.
Qed.

(** C7.  For a USER turn, what [_el] returns is the first four fields of
    each disambiguation row.  What [_pe] returns has one row for each
    result the post-processor accepted in step 2, in the same order: the
    detector row (start, length, text) of the personal mention the result
    names, followed by the entity the map gives for the antecedent the
    result names.  Every row attached has four fields. *)
Theorem annotations_are_four_field_records conv turns s r s' :
  valid_conversation (heap s) conv turns →
  annotate self conv s = Ok r s' →
  ∃ evs,
    conv_steps self r turns (fresh_call s) evs s' ∧
    ∀ lk, Some lk ∈ evs →
      explicit_annotations self lk ∧ personal_annotations self lk ∧
      Forall (λ a, length a = 4) (lk_el lk ++ lk_pe lk).
Proof.
  intros Hvalid Heq.
  pose proof (annotate_run self conv turns s Hvalid) as Hrun.
  rewrite Heq in Hrun.
  destruct Hrun as (-> & evs & recs & Hsteps & -> & _ & Hshapes).
  exists evs. split; [done|]. intros lk Hlk.
  destruct (conv_steps_linking _ _ _ _ _ _ Hsteps Hlk) as [Hel Hpe].
  pose proof (shapes_linking _ _ _ _ _ Hshapes Hlk) as Hok.
  destruct (linking_facts _ _ Hok Hel Hpe) as (? & ? & ? & _). done.
Qed.

(** C9.  In the state reached after any number of turns of a call, the
    history has one record per turn processed: a USER record has its
    [mentions] and an empty [pems], a SYSTEM record has neither key.  And
    each [_pe] leaves the last record with an empty [pems]. *)
Theorem history_settled_between_turns conv turns s k s_k :
  valid_conversation (heap s) conv turns →
  for_each (annotate_turn self (PRef (length (heap s)))) (take k turns)
    (fresh_call s) = Ok tt s_k →
  Forall2 (settled (heap s)) (take k turns) (history s_k) ∧
  ∃ evs,
    conv_steps self (PRef (length (heap s))) (take k turns)
      (fresh_call s) evs s_k ∧
    ∀ lk, Some lk ∈ evs →
      ∃ h, last (history (lk_after_pe lk)) = Some h ∧
           h !! KStr "pems" = Some (PList []).
Proof.
  intros (_ & _ & Hall) Heq.
  pose proof (annotate_loop_run self (heap s) (take k turns) ∅ []
                (Forall_take _ _ _ Hall)) as Hloop.
  rewrite <- fresh_call_run, Heq in Hloop.
  destruct Hloop as (evs & recs & Hsteps & -> & _ & Hshapes).
  { intros h eem Hh. by apply elem_of_nil in Hh. }
  simpl in Hshapes. split.
  - unfold history.
    change (conv_hist_for_pe (run (heap s) _ _))
      with (PRef (length (heap s) + 1)).
    rewrite history_run. simpl. clear -Hshapes.
    induction Hshapes as [|turn ev p turns' evs recs H _ IH].
    { constructor. }
    constructor; [|done].
    destruct H as (l & d & sp & utt & -> & Hd & Hsp & Hutt & Hev).
    exists sp. unfold py_getitem, dict_getitem. rewrite Hd. simpl.
    rewrite Hsp. split; [done|].
    destruct ev as [lk|].
    + destruct Hev as (-> & _ & _ & ms & ->). simpl.
      rewrite !lookup_insert_ne by done. rewrite turn_record_speaker.
      split; [done|]. left. split; [done|].
      rewrite lookup_insert_eq. split; [done|]. exists ms.
      rewrite lookup_insert_ne by done. apply lookup_insert_eq.
    + destruct Hev as (-> & ->). simpl. rewrite turn_record_speaker.
      split; [done|]. right. split; [done|]. unfold turn_record.
      rewrite !lookup_insert_ne by done.
      by rewrite !lookup_singleton_ne.
  - exists evs. split; [done|]. intros lk Hlk.
    destruct (conv_steps_linking _ _ _ _ _ _ Hsteps Hlk) as [Hel Hpe].
    pose proof (shapes_linking _ _ _ _ _ Hshapes Hlk) as Hok.
    destruct (linking_facts _ _ Hok Hel Hpe) as (_ & _ & _ & ?). done.
Qed.

(** C6.  One round of step 2, on a history whose last record is a dict:
    the record's [pems] becomes the list of that one mention before the
    pre-processor is called; if the pre-processor does not yield exactly one
    item the round fails with the assertion of the source, and otherwise
    [input_data[0]] is that item and only a collaborator can fail. *)
Theorem one_target_mention_at_a_time s h vs l hd outputs a b pem :
  conv_hist_for_pe s = PRef h →
  heap s !! h = Some (OList (vs ++ [PRef l])) →
  heap s !! l = Some (ODict hd) →
  (∃ target, last (history (with_target l hd pem s)) = Some target ∧
             field_list target "pems" = [pem]) ∧
  ∀ tok items,
    preprocess_get_tokens_with_info self (heap (with_target l hd pem s))
      (conv_hist_for_pe (with_target l hd pem s)) = Returned tok →
    preprocess_get_input_of_pe_linking self (heap (with_target l hd pem s))
      tok = Returned items →
    (length items ≠ 1 →
     _pe_find self outputs [a; b; pem] s
     = Raise (AssertionError OnePemMessage) (with_target l hd pem s)) ∧
    (length items = 1 →
     ∃ x, items = [x] ∧ py_index items 0%Z = Val x ∧
          ∀ e s', _pe_find self outputs [a; b; pem] s = Raise e s' →
                  ∃ w, e = ModelError w).
Proof.
  intros Hh Hvs Hl. split.
  - exists (<[KStr "pems" := PList [pem]]> hd).
    split; [|unfold field_list; by rewrite lookup_insert_eq].
    unfold history, with_target, dicts_of, py_iter. simpl. rewrite Hh.
    assert (l ≠ h) by (intros ->; congruence).
    rewrite list_lookup_insert_ne by done.
    change (@lookup loc) with (@lookup nat) in Hvs, Hl. rewrite Hvs.
    rewrite omap_app. simpl.
    rewrite list_lookup_insert_eq by (by eapply lookup_lt_Some).
    apply last_snoc.
  - intros tok items Htok Hitems.
    rewrite (pe_find_closed self s h vs l hd outputs [a; b; pem] Hh Hvs Hl).
    simpl. unfold find_outcome. rewrite Htok, Hitems. split.
    + intros Hlen. by destruct items as [|x [|y items]].
    + intros Hlen. destruct items as [|x [|y items]]; try done.
      exists x. split; [done|]. split; [done|]. intros e s'.
      destruct (eemd_get_scores _ _ _) as [sc|w]; [|intros [= <- _]; eauto].
      destruct (postprocess_get_results _ _ _ _ _ _) as [res|w]; [done|].
      intros [= <- _]. eauto.
Qed.

Lemma entities_of_unresolved pem2result mm outputs acc :
  (∀ key row, pem2result !! key = Some row → length row = 3) →
  Forall texts_hashable outputs →
  Exists (unresolved pem2result mm) outputs →
  ∃ key, res_fold (entities_of pem2result mm) outputs acc
         = Exn (KeyError key).
Proof.
  intros Hrows Hall. revert acc.
  induction Hall as [|r outputs [Hpem Heem] _ IH]; intros acc Hex.
  { by apply Exists_nil in Hex. }
  simpl. unfold entities_of at 1. unfold entity_of.
  unfold dict_getitem at 1. simpl.
  destruct (r !! KStr "personal_entity_mention") as [pem|] eqn:Hr1; simpl;
    [|eauto].
  specialize (Hpem pem eq_refl). unfold is_hashable in Hpem.
  destruct (hashable pem) as [pkey|] eqn:Hpk; [|done]. simpl.
  destruct (pem2result !! pkey) as [row|] eqn:Hrow; simpl; [|eauto].
  unfold dict_getitem at 1. simpl.
  destruct (r !! KStr "mention") as [eem|] eqn:Hr2; simpl; [|eauto].
  specialize (Heem eem eq_refl). unfold is_hashable in Heem.
  unfold dict_getitem. destruct (hashable eem) as [ekey|] eqn:Hek; [|done].
  simpl. destruct (mm !! ekey) as [ent|] eqn:Hent; simpl; [|eauto].
  apply Hrows in Hrow as Hlen.
  destruct row as [|x0 [|x1 [|x2 [|? ?]]]]; simplify_eq/=.
  apply IH. apply Exists_cons in Hex as [Hbad|Hex]; [|done].
  destruct Hbad as [(pem' & key' & ? & ? & ?)|(eem' & key' & ? & ? & ?)];
    exfalso; congruence.
Qed.

(** C10.  On a USER turn, once step 2 of [_pe] has gone through every
    detected personal mention, a result whose personal mention is not a key
    of the detector table, or whose antecedent is not a key of the map as it
    stands, makes [annotate] fail with a [KeyError]: the result is not
    skipped and nothing is returned. *)
Theorem unresolved_antecedent_raises_KeyError
    conv pre turn post s s_i utt s1 el s2 pems pem2result outputs s3 mm :
  valid_conversation (heap s) conv (pre ++ turn :: post) →
  for_each (annotate_turn self (PRef (length (heap s)))) pre (fresh_call s)
    = Ok tt s_i →
  annotate_turn_record (PRef (length (heap s))) turn s_i = Ok utt s1 →
  py_getitem (heap s1) turn (PStr "speaker") = Val (PStr "USER") →
  _el self utt s1 = Ok el s2 →
  pemd_pem_detector self (heap s2) utt = Returned pems →
  res_fold pem_entry pems ∅ = Val pem2result →
  for_fold (_pe_find self) pems [] s2 = Ok outputs s3 →
  mention_map s3 = Some mm →
  Forall texts_hashable outputs →
  Exists (unresolved pem2result mm) outputs →
  ∃ key s', annotate self conv s = Raise (KeyError key) s'.
Proof.
  intros Hvalid Hpre Hrec Hsp Hel Hpems Htable Hfind Hmap Hhash Hbad.
  rewrite (annotate_begin self conv _ s Hvalid).
  destruct Hvalid as (_ & _ & Hall).
  apply Forall_app in Hall as [Hall_pre Hall_turn].
  apply Forall_cons in Hall_turn as [Hturn _].
  (* the state before the turn *)
  pose proof (annotate_loop_run self (heap s) pre ∅ [] Hall_pre) as Hloop.
  rewrite <- fresh_call_run, Hpre in Hloop.
  destruct Hloop as (evs & recs & _ & -> & Hmm & _).
  { intros h eem Hh. by apply elem_of_nil in Hh. }
  simpl in Hmm, Hrec. set (mm0 := foldl write_link ∅ (links evs)) in *.
  (* the records of the turn *)
  apply valid_turn_inv in Hturn
    as (l & d & sp & utt' & -> & Hl & Hd & Hd_sp & Hd_utt & Hor).
  assert (Hok : is_speaker sp = true) by (by destruct Hor as [-> | ->]).
  rewrite (annotate_turn_record_run (heap s) mm0 recs l d sp utt'
             Hl Hd Hd_sp Hok Hd_utt) in Hrec.
  injection Hrec as <- <-.
  set (tr := turn_record sp utt') in *.
  (* explicit linking *)
  pose proof (el_run self (heap s) mm0 recs tr tr utt') as Hel_run.
  rewrite Hel in Hel_run.
  destruct Hel_run as (rows & ms & Hdone & -> & ->).
  set (mm1 := foldl write_link mm0 rows) in *.
  set (hd1 := <[KStr "mentions" := PList ms]> tr) in *.
  assert (Hmm1 : mentions_mapped mm1 (recs.*2 ++ [hd1])).
  { intros h eem [Hh| ->%list_elem_of_singleton]%elem_of_app Heem.
    - by eapply mentions_mapped_mono.
    - destruct Hdone as (md & spans & _ & _ & _ & Hms & Hlinks).
      unfold field_list, hd1 in Heem. rewrite lookup_insert_eq in Heem.
      destruct (mentions_of_rows _ _ _ Hms Hlinks Heem)
        as (r & key & ent & Hin & Hr & Hk).
      exists key. split; [done|]. by eapply foldl_write_link_dom. }
  (* step 2 *)
  pose proof (pe_collect_run self (heap s) mm1 recs tr hd1 pems pems [] hd1
                Hmm1 (retargeted_same hd1) (λ r Hr, Hr)) as Hcollect.
  rewrite Hfind in Hcollect.
  destruct Hcollect as ((hd2 & Hre & ->) & Hlen & _).
  rewrite mention_map_run in Hmap. injection Hmap as <-.
  (* step 3 *)
  assert (Hrows : ∀ key row, pem2result !! key = Some row → length row = 3).
  { intros key row Hrow.
    apply pem_table in Htable as (Hfrom & _ & _).
    destruct (Hfrom _ _ Hrow) as [Hempty|Hin].
    - by rewrite lookup_empty in Hempty.
    - by eapply Forall_forall in Hlen. }
  destruct (entities_of_unresolved pem2result mm1 outputs [] Hrows Hhash Hbad)
    as [key Hkey].
  assert (Hpe : ∃ s', _pe self utt'
                  (run (heap s) mm1 (recs ++ [(tr, hd1)]))
                = Raise (KeyError key) s').
  { eexists. unfold _pe.
    erewrite bind_Ok by (by apply call_Returned).
    erewrite bind_Ok by (by apply pure_Val).
    erewrite bind_Ok by exact Hfind.
    erewrite bind_Ok by apply set_last_history_run.
    unfold run at 1. rewrite pe_resolve_St, Hkey. reflexivity. }
  destruct Hpe as [s' Hpe]. exists key, s'.
  unfold bind at 1. rewrite for_each_app. unfold bind at 1.
  rewrite Hpre. simpl for_each.
  unfold bind at 1. unfold annotate_turn.
  erewrite bind_Ok
    by (by apply (annotate_turn_record_run (heap s) mm0 recs l d sp utt')).
  assert (Hread : py_getitem
            (heap (run (heap s) mm0 (recs ++ [(tr, tr)]))) (PRef l)
            (PStr "speaker") = Val sp).
  { unfold run. by eapply getitem_old. }
  rewrite Hread in Hsp. injection Hsp as ->.
  erewrite bind_Ok by (by apply reading_Val). simpl.
  unfold annotate_turn_link.
  erewrite bind_Ok by exact Hel.
  by erewrite bind_Raise by exact Hpe.
Qed.

End Claims.

(** * The claims on the small instance *)

Lemma Ok_final {A} (o : outcome A) (a : A) :
  match o with Ok a' _ => a' = a | Raise _ _ => False end →
  o = Ok a (final_state o).
Proof. destruct o; [by intros ->|done]. Qed.

Lemma Raise_final {A} (o : outcome A) (e : exn) :
  match o with Ok _ _ => False | Raise e' _ => e' = e end →
  o = Raise e (final_state o).
Proof. destruct o; [done|by intros ->]. Qed.

Lemma demo_turn_valid σ l sp utt :
  σ !! l = Some (Demo.turn sp utt) → sp = "USER" ∨ sp = "SYSTEM" →
  valid_turn σ (PRef l).
Proof.
  intros Hl Hsp. exists l, (turn_record (PStr sp) (PStr utt)), (PStr sp).
  split; [done|]. split; [done|]. split.
  { unfold turn_record. rewrite dom_insert_L, dom_singleton_L. set_solver. }
  split; [apply turn_record_speaker|]. by destruct Hsp as [-> | ->]; [left|right].
Qed.

Lemma demo_valid :
  valid_conversation (heap Demo.start) Demo.conv Demo.turns.
Proof.
  split; [reflexivity|]. split; [reflexivity|].
  repeat apply Forall_cons_2; [..|apply Forall_nil_2].
  - eapply demo_turn_valid; [reflexivity|by left].
  - eapply demo_turn_valid; [reflexivity|by right].
  - eapply demo_turn_valid; [reflexivity|by left].
Qed.

Lemma demo_well_behaved : well_behaved Demo.el.
Proof.
  split.
  - intros σ utt. simpl. destruct (py_eq_str utt _); eexists;
      (split; [reflexivity|]); repeat constructor.
  - intros σ utt spans. simpl. eexists. split; [reflexivity|].
    apply Forall_fmap, Forall_forall. intros sp _.
    by eexists _, _, _, _, _, _.
  - intros σ utt. simpl. destruct (py_eq_str utt _); eexists;
      (split; [reflexivity|]); repeat constructor.
    by eexists _, _, _, _.
  - intros σ hist target pem Hlast Hpems. simpl.
    eexists _, _. split; [reflexivity|].
    unfold Demo.targets_of. by rewrite Hlast, Hpems.
  - intros σ x. by exists tt.
  - intros σ x hist sc. simpl. unfold Demo.targets_of.
    destruct (last (dicts_of σ hist)) as [target|] eqn:Hlast;
      [|eexists; split; [reflexivity|constructor]].
    destruct (field_list target "pems") as [|pem pems] eqn:Hpems;
      [eexists; split; [reflexivity|constructor]|].
    destruct (last (Demo.mentions_of (dicts_of σ hist))) as [eem|] eqn:Heem;
      [|eexists; split; [reflexivity|constructor]].
    eexists. split; [reflexivity|]. constructor; [|constructor].
    apply last_Some_elem_of in Heem. unfold Demo.mentions_of in Heem.
    apply list_elem_of_In, in_flat_map in Heem as (h & Hh & Hin).
    apply list_elem_of_In in Hh, Hin.
    exists pem, eem, target, h. unfold Demo.accept.
    rewrite lookup_insert_ne, lookup_singleton_eq, lookup_insert_eq by done.
    rewrite Hpems. split; [done|]. split; [done|]. split; [done|].
    split; [apply list_elem_of_here|]. done.
Qed.

Lemma demo_returns :
  annotate Demo.el Demo.conv Demo.start = Ok (PRef 4) Demo.final.
Proof. apply Ok_final. vm_compute. reflexivity. Qed.

Lemma demo_aborts :
  annotate Demo.no_item Demo.conv Demo.start
  = Raise (AssertionError OnePemMessage)
      (final_state (annotate Demo.no_item Demo.conv Demo.start)).
Proof. apply Raise_final. vm_compute. reflexivity. Qed.

Lemma demo_between :
  for_each (annotate_turn Demo.el (PRef (length (heap Demo.start))))
    (take 2 Demo.turns) (fresh_call Demo.start) = Ok tt Demo.between.
Proof. apply Ok_final. vm_compute. reflexivity. Qed.

(** C1 as first stated fails: a valid conversation on which [annotate]
    returns nothing, the pre-processor having yielded no item. *)
Lemma annotate_may_abort :
  valid_conversation (heap Demo.start) Demo.conv Demo.turns ∧
  (∃ s', annotate Demo.no_item Demo.conv Demo.start
         = Raise (AssertionError OnePemMessage) s') ∧
  ¬ ∃ r s', annotate Demo.no_item Demo.conv Demo.start = Ok r s'.
Proof.
  split; [apply demo_valid|]. split; [eexists; apply demo_aborts|].
  intros (r & s' & Heq). by rewrite demo_aborts in Heq.
Qed.

(** C2 as first stated fails: an assertion failure on a valid conversation,
    raised by the one-item assertion of [_pe]. *)
Lemma assertion_failure_on_valid_input :
  (∃ turns, valid_conversation (heap Demo.start) Demo.conv turns) ∧
  (∃ m s', annotate Demo.no_item Demo.conv Demo.start
           = Raise (AssertionError m) s') ∧
  ¬ ((∃ m s', annotate Demo.no_item Demo.conv Demo.start
              = Raise (AssertionError m) s') ↔
     ¬ ∃ turns, valid_conversation (heap Demo.start) Demo.conv turns).
Proof.
  assert (Hvalid : ∃ turns,
            valid_conversation (heap Demo.start) Demo.conv turns)
    by (eexists; apply demo_valid).
  assert (Hraise : ∃ m s', annotate Demo.no_item Demo.conv Demo.start
                           = Raise (AssertionError m) s')
    by (eexists _, _; apply demo_aborts).
  split; [done|]. split; [done|]. intros [Hbad _]. by apply Hbad.
Qed.

Lemma annotate_augments_turns_witness :
  valid_conversation (heap Demo.start) Demo.conv Demo.turns ∧
  well_behaved Demo.el ∧
  annotate Demo.el Demo.conv Demo.start = Ok (PRef 4) Demo.final ∧
  ∃ ds, list_of_dicts (heap Demo.final) (PRef 4) ds ∧
        Forall2 (augmented (heap Demo.start)) Demo.turns ds.
Proof.
  split; [apply demo_valid|]. split; [apply demo_well_behaved|].
  split; [apply demo_returns|].
  destruct (annotate_augments_turns Demo.el Demo.conv Demo.turns Demo.start
              demo_valid) as [Hshape _].
  exact (Hshape _ _ demo_returns).
Defined.

Lemma annotations_explicit_then_personal_witness :
  ∃ evs ds,
    conv_steps Demo.el (PRef 4) Demo.turns (fresh_call Demo.start) evs
      Demo.final ∧
    list_of_dicts (heap Demo.final) (PRef 4) ds ∧
    Forall2 (λ ev d,
      d !! KStr "annotations"
      = match ev with
        | Some lk => Some (PList (map PList (lk_el lk ++ lk_pe lk)))
        | None => None
        end) evs ds.
Proof.
  exact (annotations_explicit_then_personal Demo.el Demo.conv Demo.turns
           Demo.start (PRef 4) Demo.final demo_valid demo_returns).
Defined.

(** C4 as first stated fails: when the call has returned, the attributes
    still hold the history and the map of the conversation. *)
Lemma bookkeeping_kept_after_return :
  annotate Demo.el Demo.conv Demo.start = Ok (PRef 4) Demo.final ∧
  history Demo.final ≠ [] ∧ mention_map Demo.final ≠ Some ∅.
Proof.
  split; [apply demo_returns|]. split.
  - intros Heq. apply (f_equal length) in Heq. vm_compute in Heq. done.
  - intros Heq.
    assert (Hrex : match mention_map Demo.final with
                   | Some mm => mm !! KStr "Rex"
                   | None => None
                   end = Some (PStr "Rex_(dog)"))
      by (vm_compute; reflexivity).
    rewrite Heq in Hrex. by rewrite lookup_empty in Hrex.
Qed.

Lemma annotate_resets_bookkeeping_witness :
  history (fresh_call Demo.start) = [] ∧
  mention_map (fresh_call Demo.start) = Some ∅ ∧
  annotate Demo.el Demo.conv Demo.start
  = bind (for_each (annotate_turn Demo.el (PRef 4)) Demo.turns)
         (λ _, ret (PRef 4)) (fresh_call Demo.start) ∧
  ∀ hist m2e,
    annotate Demo.el Demo.conv (State (heap Demo.start) hist m2e)
    = annotate Demo.el Demo.conv Demo.start.
Proof.
  exact (annotate_resets_bookkeeping Demo.el Demo.conv Demo.turns Demo.start
           demo_valid).
Defined.

Lemma turn_steps_det {tokens item scores thr : Type}
    (self : @ConvEL tokens item scores thr) ret_ turn s ev s1 ev' s1' :
  turn_steps self ret_ turn s ev s1 → turn_steps self ret_ turn s ev' s1' →
  ev = ev' ∧ s1 = s1'.
Proof.
  intros H1 H2.
  destruct H1 as [utt sp t1 Hrec Hsp Huser Hturn
                 |utt sp el pe t1 t2 t3 t4 Hrec Hsp Huser Hel Hpe Hturn];
    destruct H2 as [utt' sp' t1' Hrec' Hsp' Huser' Hturn'
                   |utt' sp' el' pe' t1' t2' t3' t4' Hrec' Hsp' Huser'
                      Hel' Hpe' Hturn'];
    rewrite Hrec in Hrec'; injection Hrec' as <- <-;
    rewrite Hsp in Hsp'; injection Hsp' as <-.
  - done.
  - congruence.
  - congruence.
  - rewrite Hel in Hel'. injection Hel' as <- <-.
    rewrite Hpe in Hpe'. injection Hpe' as <- <-.
    rewrite Hturn in Hturn'. by injection Hturn' as <-.
Qed.

Lemma conv_steps_det {tokens item scores thr : Type}
    (self : @ConvEL tokens item scores thr) ret_ turns s evs s' evs' s'' :
  conv_steps self ret_ turns s evs s' → conv_steps self ret_ turns s evs' s'' →
  evs = evs' ∧ s' = s''.
Proof.
  intros H1. revert evs' s''.
  induction H1 as [|turn turns s ev s1 evs s' Hturn _ IH]; intros evs' s'' H2.
  - by inversion H2.
  - inversion H2 as [|? ? ? ev' s1' evs'' ? Hturn' Hrest]; subst.
    destruct (turn_steps_det _ _ _ _ _ _ _ _ Hturn Hturn') as [-> ->].
    by destruct (IH _ _ Hrest) as [-> ->].
Qed.

Lemma fan_valid :
  valid_conversation (heap Edge.fan) (PRef 2) [PRef 0; PRef 1].
Proof.
  split; [reflexivity|]. split; [reflexivity|].
  repeat apply Forall_cons_2; [..|apply Forall_nil_2].
  - eapply demo_turn_valid; [reflexivity|by left].
  - eapply demo_turn_valid; [reflexivity|by left].
Qed.

Lemma fan_returns :
  annotate Edge.relinking (PRef 2) Edge.fan = Ok (PRef 3) Edge.final_fan.
Proof. apply Ok_final. vm_compute. reflexivity. Qed.

Lemma fan_steps :
  conv_steps Edge.relinking (PRef 3) [PRef 0; PRef 1] (fresh_call Edge.fan)
    Edge.fan_course Edge.fan_after2.
Proof.
  eapply conv_steps_cons; [|eapply conv_steps_cons; [|apply conv_steps_nil]].
  - apply (turn_user Edge.relinking (PRef 3) (PRef 0) (fresh_call Edge.fan)
             Edge.utt1 (PStr "USER")).
    + apply Ok_final. vm_compute. reflexivity.
    + vm_compute. reflexivity.
    + reflexivity.
    + apply Ok_final. vm_compute. reflexivity.
    + apply Ok_final. vm_compute. reflexivity.
    + apply Ok_final. vm_compute. reflexivity.
  - apply (turn_user Edge.relinking (PRef 3) (PRef 1) Edge.fan_after1
             Edge.utt2 (PStr "USER")).
    + apply Ok_final. vm_compute. reflexivity.
    + vm_compute. reflexivity.
    + reflexivity.
    + apply Ok_final. vm_compute. reflexivity.
    + apply Ok_final. vm_compute. reflexivity.
    + apply Ok_final. vm_compute. reflexivity.
Qed.

(** On [Edge.fan] the name of the first turn is linked again in the second:
    the theorem gives the map the entity of the second row. *)
Lemma mention_map_last_write_wins_witness :
  ∃ mm, mention_map Edge.final_fan = Some mm ∧
        mm !! KStr "Rex" = Some (PStr "Rex_(band)").
Proof.
  destruct (mention_map_last_write_wins Edge.relinking (PRef 2)
              [PRef 0; PRef 1] Edge.fan (PRef 3) Edge.final_fan
              fan_valid fan_returns)
    as (evs & rowss & mm & Hsteps & Hrows & _ & Hmm & Hlast & _).
  exists mm. split; [exact Hmm|].
  destruct (conv_steps_det _ _ _ _ _ _ _ _ Hsteps fan_steps) as [-> _].
  simpl in Hrows.
  apply Forall2_cons_inv_l in Hrows as (rows1 & rowss1 & H1 & Hrows & ->).
  apply Forall2_cons_inv_l in Hrows as (rows2 & rowss2 & H2 & Hrows & ->).
  apply Forall2_nil_inv_l in Hrows as ->.
  destruct H1 as ((md1 & spans1 & Hmd1 & Hspans1 & Hed1) & _).
  destruct H2 as ((md2 & spans2 & Hmd2 & Hspans2 & Hed2) & _).
  injection Hmd1 as <-. injection Hspans1 as <-. injection Hed1 as <-.
  injection Hmd2 as <-. injection Hspans2 as <-. injection Hed2 as <-.
  apply (Hlast [Edge.row_dog] Edge.row_band [] (KStr "Rex")
           (PStr "Rex_(band)")).
  - reflexivity.
  - reflexivity.
  - constructor.
Defined.

Lemma one_target_mention_at_a_time_witness :
  (∃ target,
     last (history (with_target 0 (turn_record (PStr "USER") Demo.utt3)
                      (PStr "my dog") Demo.one_record)) = Some target ∧
     field_list target "pems" = [PStr "my dog"]) ∧
  ∀ tok items,
    preprocess_get_tokens_with_info Demo.no_item
      (heap (with_target 0 (turn_record (PStr "USER") Demo.utt3)
               (PStr "my dog") Demo.one_record))
      (conv_hist_for_pe
         (with_target 0 (turn_record (PStr "USER") Demo.utt3)
            (PStr "my dog") Demo.one_record)) = Returned tok →
    preprocess_get_input_of_pe_linking Demo.no_item
      (heap (with_target 0 (turn_record (PStr "USER") Demo.utt3)
               (PStr "my dog") Demo.one_record)) tok = Returned items →
    (length items ≠ 1 →
     _pe_find Demo.no_item [] [PInt 0; PInt 6; PStr "my dog"]
       Demo.one_record
     = Raise (AssertionError OnePemMessage)
         (with_target 0 (turn_record (PStr "USER") Demo.utt3)
            (PStr "my dog") Demo.one_record)) ∧
    (length items = 1 →
     ∃ x, items = [x] ∧ py_index items 0%Z = Val x ∧
          ∀ e s', _pe_find Demo.no_item [] [PInt 0; PInt 6; PStr "my dog"]
                    Demo.one_record = Raise e s' →
                  ∃ w, e = ModelError w).
Proof.
  apply (one_target_mention_at_a_time Demo.no_item Demo.one_record 1 [] 0
           (turn_record (PStr "USER") Demo.utt3) []
           (PInt 0) (PInt 6) (PStr "my dog")); reflexivity.
Defined.

Lemma annotations_are_four_field_records_witness :
  ∃ evs,
    conv_steps Demo.el (PRef 4) Demo.turns (fresh_call Demo.start) evs
      Demo.final ∧
    ∀ lk, Some lk ∈ evs →
      explicit_annotations Demo.el lk ∧ personal_annotations Demo.el lk ∧
      Forall (λ a, length a = 4) (lk_el lk ++ lk_pe lk).
Proof.
  exact (annotations_are_four_field_records Demo.el Demo.conv Demo.turns
           Demo.start (PRef 4) Demo.final demo_valid demo_returns).
Defined.

Lemma history_settled_between_turns_witness :
  Forall2 (settled (heap Demo.start)) (take 2 Demo.turns)
    (history Demo.between) ∧
  ∃ evs,
    conv_steps Demo.el (PRef (length (heap Demo.start))) (take 2 Demo.turns)
      (fresh_call Demo.start) evs Demo.between ∧
    ∀ lk, Some lk ∈ evs →
      ∃ h, last (history (lk_after_pe lk)) = Some h ∧
           h !! KStr "pems" = Some (PList []).
Proof.
  exact (history_settled_between_turns Demo.el Demo.conv Demo.turns
           Demo.start 2 Demo.between demo_valid demo_between).
Defined.

Lemma unresolved_antecedent_raises_KeyError_witness :
  ∃ key s', annotate Demo.stray Demo.conv Demo.start = Raise (KeyError key) s'.
Proof.
  apply (unresolved_antecedent_raises_KeyError Demo.stray Demo.conv
           [PRef 0; PRef 1] (PRef 2) [] Demo.start
           Demo.before3 Demo.utt3 Demo.recorded3 [] Demo.linked3 Demo.pems3
           (<[KStr "my dog" := [PInt 0; PInt 6; PStr "my dog"]]> ∅)
           [Demo.accept (PStr "my dog") (PStr "Lassie")] Demo.found3
           {[KStr "Rex" := PStr "Rex_(dog)"]}).
  - apply demo_valid.
  - apply Ok_final. vm_compute. reflexivity.
  - apply Ok_final. vm_compute. reflexivity.
  - vm_compute. reflexivity.
  - apply Ok_final. vm_compute. reflexivity.
  - reflexivity.
  - reflexivity.
  - apply Ok_final. vm_compute. reflexivity.
  - vm_compute. reflexivity.
  - constructor; [|constructor]. unfold Demo.accept. split; intros v.
    + rewrite lookup_insert_ne, lookup_singleton_eq by done. by intros [= <-].
    + rewrite lookup_insert_eq. by intros [= <-].
  - apply Exists_cons_hd. right. exists (PStr "Lassie"), (KStr "Lassie").
    unfold Demo.accept. rewrite lookup_insert_eq.
    split; [done|]. split; [done|]. by apply lookup_singleton_ne.
Defined.

(** * Further properties of the module *)

Section Further.
Context {tokens item scores thr : Type} (self : @ConvEL tokens item scores thr).

(** X1.  [_error_check] never changes the state; it returns exactly on
    valid conversations and otherwise fails with one of its own
    assertions: the subscripts and the call of [keys] it makes are guarded
    by the checks before them. *)
Theorem error_check_only_validates conv s :
  (∀ u s', _error_check conv s = Ok u s' →
     s' = s ∧ ∃ turns, valid_conversation (heap s) conv turns) ∧
  (∀ e s', _error_check conv s = Raise e s' →
     s' = s ∧ validation_error e) ∧
  ((∃ turns, valid_conversation (heap s) conv turns) →
   _error_check conv s = Ok tt s).
Proof.
  pose proof (error_check_run conv s) as Hrun.
  destruct (_error_check conv s) as [[] s1|e s1].
  - destruct Hrun as [-> Hvalid]. split; [|split].
    + by intros u s' [= _ <-].
    + intros e s' [=].
    + done.
  - destruct Hrun as (-> & He & Hbad). split; [|split].
    + intros u s' [=].
    + by intros e' s' [= <- <-].
    + intros Hvalid. by destruct Hbad.
Qed.

(** X2.  When [annotate] fails with an input-validation assertion, nothing
    has happened: the store and the two attributes are as they were, the
    reset of the history and of the map included. *)
Theorem annotate_rejects_untouched conv s e s' :
  annotate self conv s = Raise e s' → validation_error e → s' = s.
Proof.
  intros Heq He. pose proof (error_check_run conv s) as Hcheck.
  destruct (_error_check conv s) as [[] s1|e1 s1] eqn:Hc.
  - destruct Hcheck as [-> [turns Hvalid]].
    pose proof (annotate_run self conv turns s Hvalid) as Hrun.
    rewrite Heq in Hrun. by destruct Hrun as (_ & [] & _).
  - destruct Hcheck as (-> & _).
    unfold annotate in Heq. erewrite bind_Raise in Heq by exact Hc.
    by injection Heq as _ <-.
Qed.

Lemma error_check_turns_valid turns s :
  Forall (valid_turn (heap s)) turns →
  for_each _error_check_turn turns s = Ok tt s.
Proof.
  intros Hall. pose proof (error_check_turns_run turns s) as Hrun.
  destruct (for_each _error_check_turn turns s) as [[] s1|e s1].
  - by destruct Hrun as [-> _].
  - by destruct Hrun as (_ & _ & []).
Qed.

(** X3.  The first turn that fails validation decides the error: when the
    turns before it are valid and it is a dict with the right keys but
    another speaker, [annotate] fails with the speaker assertion, whose
    message carries that speaker, and leaves the state alone. *)
Theorem bad_speaker_is_reported conv pre l d sp post s :
  py_type (heap s) conv = TList →
  py_iter (heap s) conv = Val (pre ++ PRef l :: post) →
  Forall (valid_turn (heap s)) pre →
  heap s !! l = Some (ODict d) →
  dom d = {[KStr "speaker"; KStr "utterance"]} →
  d !! KStr "speaker" = Some sp →
  is_speaker sp = false →
  annotate self conv s = Raise (AssertionError (SpeakerMessage sp)) s.
Proof.
  intros Hty Hiter Hpre Hl Hdom Hsp Hbad.
  unfold annotate. erewrite bind_Raise; [done|].
  unfold _error_check. erewrite bind_Ok by reflexivity.
  rewrite Hty. simpl. erewrite bind_Ok by reflexivity.
  erewrite bind_Ok by (by apply reading_Val).
  rewrite for_each_app. erewrite bind_Ok by (by apply error_check_turns_valid).
  simpl. erewrite bind_Raise; [done|].
  unfold _error_check_turn. erewrite bind_Ok by reflexivity.
  assert (Hty_l : py_type (heap s) (PRef l) = TDict).
  { unfold py_type. by rewrite Hl. }
  assert (Hkeys : py_keys (heap s) (PRef l) = Val (dom d)).
  { unfold py_keys. by rewrite Hl. }
  rewrite Hty_l. simpl. erewrite bind_Ok by reflexivity.
  erewrite bind_Ok by (by apply reading_Val).
  rewrite Hdom, bool_decide_eq_true_2 by done. simpl.
  erewrite bind_Ok by reflexivity.
  assert (Hread : py_getitem (heap s) (PRef l) (PStr "speaker") = Val sp).
  { unfold py_getitem, dict_getitem. rewrite Hl. simpl. by rewrite Hsp. }
  unfold assert_speaker. erewrite bind_Ok by (by apply reading_Val).
  rewrite Hbad. by erewrite bind_Ok by (by apply reading_Val).
Qed.

(** X5.  A failure of the mention detector on a USER turn comes out of
    [annotate] as it is: the same error, raised in the state in which the
    detector was called, after the records of the turn were made. *)
Theorem detector_failure_propagates
    conv pre turn post s s_i utt s1 w :
  valid_conversation (heap s) conv (pre ++ turn :: post) →
  for_each (annotate_turn self (PRef (length (heap s)))) pre (fresh_call s)
    = Ok tt s_i →
  annotate_turn_record (PRef (length (heap s))) turn s_i = Ok utt s1 →
  py_getitem (heap s1) turn (PStr "speaker") = Val (PStr "USER") →
  bert_md_md self (heap s1) utt = Failed w →
  annotate self conv s = Raise (ModelError w) s1.
Proof.
  intros Hvalid Hpre Hrec Hsp Hmd.
  rewrite (annotate_begin self conv _ s Hvalid).
  unfold bind at 1. rewrite for_each_app. unfold bind at 1.
  rewrite Hpre. simpl for_each. unfold bind at 1. unfold annotate_turn.
  erewrite bind_Ok by exact Hrec.
  erewrite bind_Ok by (by apply reading_Val). simpl.
  unfold annotate_turn_link, _el.
  by erewrite bind_Raise by (erewrite bind_Raise; [done|by apply call_Failed]).
Qed.

Lemma short_row_Exn (rows : list (list pyval)) :
  Exists (λ r, length r < 3) rows →
  res_map (λ r, py_index r 2%Z) rows = Exn IndexError.
Proof.
  intros Hex.
  destruct (res_map (λ r, py_index r 2%Z) rows) as [ms|e] eqn:Hms.
  - apply res_map_Val in Hms. exfalso.
    induction Hms as [|r m rows ms Hr _ IH].
    + by apply Exists_nil in Hex.
    + apply Exists_cons in Hex as [Hshort|Hex]; [|by apply IH].
      apply (py_index_Val r 2) in Hr. apply lookup_lt_Some in Hr. lia.
  - f_equal. eapply (res_map_Exn _ (λ e, e = IndexError)); [|exact Hms].
    intros r e' _. apply py_index_Exn.
Qed.

(** X13.  A disambiguation row with fewer than three fields makes [_el]
    fail with IndexError before anything is written: the state, history
    included, is as it was. *)
Theorem el_rejects_short_rows utt s md spans rows :
  bert_md_md self (heap s) utt = Returned md →
  res_map span_of md = Val spans →
  response_model_generate_response self (heap s) utt spans = Returned rows →
  Exists (λ r, length r < 3) rows →
  _el self utt s = Raise IndexError s.
Proof.
  intros Hmd Hspans Hrows Hshort. unfold _el.
  erewrite bind_Ok by (by apply call_Returned).
  erewrite bind_Ok by (by apply pure_Val).
  unfold bind at 1. rewrite ed_run, Hrows.
  erewrite bind_Raise; [done|]. apply pure_Exn. by apply short_row_Exn.
Qed.

(** X12.  A detector row that does not have exactly three fields makes
    [_pe] fail with ValueError when the loop of step 2 reaches it; for the
    first row this is before the history is touched. *)
Theorem pe_rejects_wrong_arity utt s r rest table :
  pemd_pem_detector self (heap s) utt = Returned (r :: rest) →
  res_fold pem_entry (r :: rest) ∅ = Val table →
  length r ≠ 3 →
  _pe self utt s = Raise ValueError s.
Proof.
  intros Hpems Htable Hlen. unfold _pe.
  erewrite bind_Ok by (by apply call_Returned).
  erewrite bind_Ok by (by apply pure_Val).
  erewrite bind_Raise; [done|]. simpl for_fold.
  erewrite bind_Raise; [done|]. unfold _pe_find.
  erewrite bind_Raise; [done|]. apply pure_Exn.
  by destruct r as [|a [|b [|c [|? ?]]]].
Qed.

(** X7.  When the detector finds no personal mention, [_pe] returns the
    empty list and only sets [pems] of the last history record to the
    empty list; pre-processor, scorer and post-processor are not
    consulted. *)
Theorem pe_without_mentions σ0 mm recs rd hd utt :
  pemd_pem_detector self (heap (run σ0 mm (recs ++ [(rd, hd)]))) utt
    = Returned [] →
  _pe self utt (run σ0 mm (recs ++ [(rd, hd)]))
  = Ok [] (run σ0 mm (recs ++ [(rd, <[KStr "pems" := PList []]> hd)])).
Proof.
  intros Hpems. unfold _pe.
  erewrite bind_Ok by (by apply call_Returned).
  erewrite bind_Ok by reflexivity.
  erewrite bind_Ok by reflexivity.
  by erewrite bind_Ok by apply set_last_history_run.
Qed.

Lemma annotate_turn_system σ0 mm recs l d utt :
  l < length σ0 → σ0 !! l = Some (ODict d) →
  d !! KStr "speaker" = Some (PStr "SYSTEM") →
  d !! KStr "utterance" = Some utt →
  annotate_turn self (PRef (length σ0)) (PRef l) (run σ0 mm recs)
  = Ok tt (run σ0 mm (recs ++ [(turn_record (PStr "SYSTEM") utt,
                                turn_record (PStr "SYSTEM") utt)])).
Proof.
  intros Hl Hd Hsp Hutt. unfold annotate_turn.
  erewrite bind_Ok
    by (by apply (annotate_turn_record_run σ0 mm recs l d (PStr "SYSTEM") utt)).
  erewrite bind_Ok by (apply reading_Val; unfold run; by eapply getitem_old).
  done.
Qed.

Lemma system_loop σ0 mm turns recs :
  Forall (valid_turn σ0) turns →
  Forall (λ turn, py_getitem σ0 turn (PStr "speaker") = Val (PStr "SYSTEM"))
    turns →
  for_each (annotate_turn self (PRef (length σ0))) turns (run σ0 mm recs)
  = Ok tt (run σ0 mm (recs ++ system_records σ0 turns)) ∧
  length (system_records σ0 turns) = length turns.
Proof.
  intros Hvalid. revert recs.
  induction Hvalid as [|turn turns Hturn _ IH]; intros recs Hsys.
  { simpl. by rewrite app_nil_r. }
  apply Forall_cons in Hsys as [Hsp Hsys].
  apply valid_turn_inv in Hturn
    as (l & d & sp & utt & -> & Hl & Hd & Hd_sp & Hd_utt & _).
  assert (sp = PStr "SYSTEM") as ->.
  { unfold py_getitem, dict_getitem in Hsp. rewrite Hd in Hsp. simpl in Hsp.
    rewrite Hd_sp in Hsp. by injection Hsp. }
  assert (Hrecs : system_records σ0 (PRef l :: turns)
                  = (turn_record (PStr "SYSTEM") utt,
                     turn_record (PStr "SYSTEM") utt)
                    :: system_records σ0 turns).
  { unfold system_records. simpl. unfold dict_getitem. rewrite Hd. simpl.
    by rewrite Hd_utt. }
  rewrite Hrecs. simpl for_each. unfold bind.
  rewrite (annotate_turn_system σ0 mm recs l d utt Hl Hd Hd_sp Hd_utt).
  destruct (IH (recs ++ [(turn_record (PStr "SYSTEM") utt,
                          turn_record (PStr "SYSTEM") utt)]) Hsys)
    as [Hloop Hlen].
  rewrite Hloop, <- app_assoc. simpl. by rewrite Hlen.
Qed.

(** X4.  A valid conversation in which only the system speaks (the empty
    conversation included) is annotated without consulting any
    collaborator: [annotate] returns, whatever the collaborators are, and
    leaves for each turn a record of speaker and utterance and its copy in
    the history, with an empty map. *)
Theorem system_turns_need_no_collaborator conv turns s :
  valid_conversation (heap s) conv turns →
  Forall (λ turn,
    py_getitem (heap s) turn (PStr "speaker") = Val (PStr "SYSTEM")) turns →
  annotate self conv s
  = Ok (PRef (length (heap s)))
       (run (heap s) ∅ (system_records (heap s) turns)) ∧
  length (system_records (heap s) turns) = length turns.
Proof.
  intros Hvalid Hsys. rewrite (annotate_begin self conv turns s Hvalid).
  destruct Hvalid as (_ & _ & Hall).
  destruct (system_loop (heap s) ∅ turns [] Hall Hsys) as [Hloop Hlen].
  split; [|done]. unfold bind. rewrite fresh_call_run, Hloop. done.
Qed.

Lemma el_failure_shape σ0 mm recs rd hd utt e s' :
  _el self utt (run σ0 mm (recs ++ [(rd, hd)])) = Raise e s' →
  ∃ hd', s' = run σ0 mm (recs ++ [(rd, hd')]) ∧
         (hd' = hd ∨ ∃ ms, hd' = <[KStr "mentions" := PList ms]> hd).
Proof.
  set (s := run σ0 mm (recs ++ [(rd, hd)])). unfold _el. intros Heq.
  destruct (bert_md_md self (heap s) utt) as [md|w] eqn:Hmd.
  2:{ erewrite bind_Raise in Heq by (by apply call_Failed).
      injection Heq as _ <-. exists hd. split; [done|by left]. }
  erewrite bind_Ok in Heq by (by apply call_Returned).
  destruct (res_map span_of md) as [spans|e1] eqn:Hspans.
  2:{ erewrite bind_Raise in Heq by (by apply pure_Exn).
      injection Heq as _ <-. exists hd. split; [done|by left]. }
  erewrite bind_Ok in Heq by (by apply pure_Val).
  unfold bind at 1 in Heq. rewrite ed_run in Heq.
  destruct (response_model_generate_response self (heap s) utt spans)
    as [rows|w] eqn:Hrows.
  2:{ injection Heq as _ <-. exists hd. split; [done|by left]. }
  destruct (res_map (λ r, py_index r 2%Z) rows) as [ms|e1] eqn:Hms.
  2:{ erewrite bind_Raise in Heq by (by apply pure_Exn).
      injection Heq as _ <-. exists hd. split; [done|by left]. }
  erewrite bind_Ok in Heq by (by apply pure_Val).
  erewrite bind_Ok in Heq by apply set_last_history_run.
  erewrite bind_Ok in Heq by reflexivity.
  erewrite bind_Ok in Heq by (apply reading_Val; apply method_map).
  destruct (res_fold mention_entity rows ∅) as [upd|e1] eqn:Hupd.
  2:{ erewrite bind_Raise in Heq by (by apply pure_Exn).
      injection Heq as _ <-. eexists. split; [done|]. right. by exists ms. }
  erewrite bind_Ok in Heq by (by apply pure_Val).
  erewrite bind_Ok in Heq by apply dict_update_map. done.
Qed.

(** X6.  A failing [_el] never leaves a partial update: the map is as it
    was before the call, and so are the output records; at most the
    [mentions] of the last history record have been written, every other
    object and both attributes being as they were. *)
Theorem el_failure_keeps_map σ0 mm recs rd hd utt e s' :
  _el self utt (run σ0 mm (recs ++ [(rd, hd)])) = Raise e s' →
  mention_map s' = Some mm ∧
  list_of_dicts (heap s') (PRef (length σ0)) (recs.*1 ++ [rd]) ∧
  ∃ hd', s' = run σ0 mm (recs ++ [(rd, hd')]) ∧
         (hd' = hd ∨ ∃ ms, hd' = <[KStr "mentions" := PList ms]> hd).
Proof.
  intros (hd' & -> & Hhd)%el_failure_shape. split; [apply mention_map_run|].
  split.
  - pose proof (records_run σ0 mm (recs ++ [(rd, hd')])) as Hrecs.
    by rewrite fmap_app in Hrecs.
  - by exists hd'.
Qed.

Lemma refs_elem_of base k v :
  v ∈ refs base k ↔ ∃ j, j < k ∧ v = PRef (base + 2 * j).
Proof.
  unfold refs. rewrite list_elem_of_fmap. split.
  - intros (j & -> & Hj). apply elem_of_seq in Hj. exists j. split; [lia|done].
  - intros (j & Hj & ->). exists j. split; [done|]. apply elem_of_seq. lia.
Qed.

Lemma refs_NoDup base k : NoDup (refs base k).
Proof.
  unfold refs. apply NoDup_fmap_2; [|apply NoDup_seq].
  intros i j [= Heq]. lia.
Qed.

(** X9.  When [annotate] returns, the records of the returned list and the
    records of the history are pairwise distinct objects, one of each per
    turn: the history holds copies, never the returned dictionaries. *)
Theorem returned_records_are_separate_objects conv s r s' :
  annotate self conv s = Ok r s' →
  ∃ vs hs,
    py_iter (heap s') r = Val vs ∧
    py_iter (heap s') (conv_hist_for_pe s') = Val hs ∧
    length vs = length hs ∧ NoDup (vs ++ hs).
Proof.
  intros Heq. pose proof (error_check_run conv s) as Hcheck.
  destruct (_error_check conv s) as [[] s1|e s1] eqn:Hc.
  2:{ unfold annotate in Heq. by erewrite bind_Raise in Heq by exact Hc. }
  destruct Hcheck as [-> [turns Hvalid]].
  pose proof (annotate_run self conv turns s Hvalid) as Hrun.
  rewrite Heq in Hrun.
  destruct Hrun as (-> & evs & recs & _ & -> & _).
  exists (refs (length (heap s) + 3) (length recs)),
         (refs (length (heap s) + 4) (length recs)).
  unfold run, py_iter.
  change (conv_hist_for_pe (St _ _ _ _ _)) with (PRef (length (heap s) + 1)).
  rewrite St_lookup_ret, St_lookup_hist. split; [done|]. split; [done|].
  rewrite !refs_length. split; [done|].
  apply NoDup_app. split; [apply refs_NoDup|]. split; [|apply refs_NoDup].
  intros v (j & _ & ->)%refs_elem_of (j' & _ & [= Hj])%refs_elem_of. lia.
Qed.

(** X10.  Between two turns of a call, every mention recorded in the
    history is a key of the map: an antecedent taken from the history can
    always be resolved. *)
Theorem recorded_mentions_are_keys conv turns s k s_k :
  valid_conversation (heap s) conv turns →
  for_each (annotate_turn self (PRef (length (heap s)))) (take k turns)
    (fresh_call s) = Ok tt s_k →
  ∃ mm, mention_map s_k = Some mm ∧ mentions_mapped mm (history s_k).
Proof.
  intros (_ & _ & Hall) Heq.
  pose proof (annotate_loop_run self (heap s) (take k turns) ∅ []
                (Forall_take _ _ _ Hall)) as Hloop.
  rewrite <- fresh_call_run, Heq in Hloop.
  destruct Hloop as (evs & recs & _ & -> & Hmm & _).
  { intros h eem Hh. by apply elem_of_nil in Hh. }
  eexists. split; [apply mention_map_run|]. unfold history.
  change (conv_hist_for_pe (run (heap s) _ _))
    with (PRef (length (heap s) + 1)).
  by rewrite history_run.
Qed.

(** X11.  Within a call, the map only grows: a mention text that is a key
    after some turns is still a key when [annotate] returns (its entity
    may have been overwritten). *)
Theorem mention_keys_persist conv turns s k s_k r s' mm_k mm key :
  valid_conversation (heap s) conv turns →
  for_each (annotate_turn self (PRef (length (heap s)))) (take k turns)
    (fresh_call s) = Ok tt s_k →
  annotate self conv s = Ok r s' →
  mention_map s_k = Some mm_k → mention_map s' = Some mm →
  is_Some (mm_k !! key) → is_Some (mm !! key).
Proof.
  intros Hvalid Hpre Heq Hmm_k Hmm Hkey.
  rewrite (annotate_begin self conv turns s Hvalid) in Heq.
  destruct Hvalid as (_ & _ & Hall).
  pose proof (annotate_loop_run self (heap s) (take k turns) ∅ []
                (Forall_take _ _ _ Hall)) as Hloop.
  rewrite <- fresh_call_run, Hpre in Hloop.
  destruct Hloop as (evs & recs & _ & -> & Hmapped & _).
  { intros h eem Hh. by apply elem_of_nil in Hh. }
  simpl in Hmapped. rewrite mention_map_run in Hmm_k. injection Hmm_k as <-.
  unfold bind in Heq. rewrite <- (take_drop k turns) in Heq at 1.
  rewrite for_each_app in Heq. unfold bind in Heq. rewrite Hpre in Heq.
  pose proof (annotate_loop_run self (heap s) (drop k turns) _ recs
                (Forall_drop _ _ _ Hall) Hmapped) as Hrest.
  simpl in Heq.
  destruct (for_each _ (drop k turns) _) as [[] s2|e s2]; [|done].
  destruct Hrest as (evs' & recs' & _ & -> & _).
  injection Heq as _ <-. rewrite mention_map_run in Hmm. injection Hmm as <-.
  by apply foldl_write_link_mono.
Qed.

Lemma pe_rows σ0 mm recs rd hd utt anns s' :
  mentions_mapped mm (recs.*2 ++ [hd]) →
  _pe self utt (run σ0 mm (recs ++ [(rd, hd)])) = Ok anns s' →
  ∃ pems table,
    pemd_pem_detector self (heap (run σ0 mm (recs ++ [(rd, hd)]))) utt
      = Returned pems ∧
    res_fold pem_entry pems ∅ = Val table ∧
    Forall (λ r, length r = 3) pems ∧
    Forall (λ a, ∃ key row ent, table !! key = Some row ∧ a = row ++ [ent])
      anns.
Proof.
  intros Hmm. set (s := run σ0 mm (recs ++ [(rd, hd)])). unfold _pe.
  intros Heq.
  destruct (pemd_pem_detector self (heap s) utt) as [pems|w] eqn:Hpems.
  2:{ by erewrite bind_Raise in Heq by (by apply call_Failed). }
  erewrite bind_Ok in Heq by (by apply call_Returned).
  destruct (res_fold pem_entry pems ∅) as [table|e] eqn:Htable.
  2:{ by erewrite bind_Raise in Heq by (by apply pure_Exn). }
  erewrite bind_Ok in Heq by (by apply pure_Val).
  unfold bind at 1 in Heq.
  pose proof (pe_collect_run self σ0 mm recs rd hd pems pems [] hd Hmm
                (retargeted_same hd) (λ r Hr, Hr)) as Hcollect.
  fold s in Hcollect.
  destruct (for_fold (_pe_find self) pems [] s) as [outputs s3|e s3];
    [|done].
  destruct Hcollect as ((hd' & Hre & ->) & Hlen & _).
  erewrite bind_Ok in Heq by apply set_last_history_run.
  unfold run at 1 in Heq. rewrite pe_resolve_St in Heq.
  destruct (res_fold (entities_of table mm) outputs []) as [anns'|e] eqn:Hanns;
    [|done].
  injection Heq as <- _.
  exists pems, table. split; [done|]. split; [done|]. split; [done|].
  apply entities_of_Val in Hanns as (new & -> & Hnew). simpl.
  pose proof (pem_table _ _ _ Htable) as (Hfrom & _ & _).
  clear -Hnew Hfrom Hlen.
  induction Hnew as [|r a outputs new Hr _ IH]; constructor; [|done].
  apply entity_of_Val in Hr
    as (pem & key & row & eem & ent & start & len & text &
        _ & _ & Hrow & _ & _ & H0 & H1 & H2 & ->).
  destruct (Hfrom _ _ Hrow) as [Hempty|Hin].
  { by rewrite lookup_empty in Hempty. }
  eapply Forall_forall in Hlen as Hlen'; [|exact Hin].
  destruct row as [|? [|? [|? [|? ?]]]]; simplify_eq/=.
  by exists key, [start; len; text], ent.
Qed.

(** X8.  Personal annotations are looked up by mention text: when the
    detector returns several rows with the same text, every personal
    annotation for that text carries the start and length of the last of
    these rows. *)
Theorem repeated_mention_takes_last_row conv turns s r s' :
  valid_conversation (heap s) conv turns →
  annotate self conv s = Ok r s' →
  ∃ evs,
    conv_steps self r turns (fresh_call s) evs s' ∧
    ∀ lk, Some lk ∈ evs →
      ∃ pems,
        pemd_pem_detector self (heap (lk_before_pe lk)) (lk_utt lk)
          = Returned pems ∧
        Forall (λ a, ∃ pre row post text key,
                  pems = pre ++ row :: post ∧ take 3 a = row ∧
                  row !! 2 = Some text ∧ hashable text = Val key ∧
                  Forall (other_text key) post) (lk_pe lk).
Proof.
  intros Hvalid Heq.
  pose proof (annotate_run self conv turns s Hvalid) as Hrun.
  rewrite Heq in Hrun.
  destruct Hrun as (-> & evs & recs & Hsteps & -> & _ & Hshapes).
  exists evs. split; [done|]. intros lk Hlk.
  destruct (conv_steps_linking _ _ _ _ _ _ _ Hsteps Hlk) as [_ Hpe].
  destruct (shapes_linking _ _ _ _ _ Hshapes Hlk)
    as (_ & (mm1 & recs1 & rd & hd & Hs2 & Hmm) & _).
  rewrite Hs2 in Hpe.
  destruct (pe_rows _ _ _ _ _ _ _ _ Hmm Hpe)
    as (pems & table & Hpems & Htable & Hlen & Hanns).
  exists pems. rewrite Hs2. split; [done|].
  eapply Forall_impl; [exact Hanns|].
  intros a (key & row & ent & Hrow & ->).
  destruct (pem_table_last _ _ _ _ _ Htable Hrow)
    as [[Hempty _]|(pre & post & text & -> & Htext & Hkey & Hpost)].
  { by rewrite lookup_empty in Hempty. }
  exists pre, row, post, text, key. split; [done|]. split; [|done].
  assert (length row = 3) as Hrow3.
  { eapply Forall_forall in Hlen; [exact Hlen|].
    apply elem_of_app. right. apply list_elem_of_here. }
  rewrite take_app_length'; done.
Qed.

End Further.

(** * The further properties on the small instances *)

Lemma twice_returns :
  annotate Edge.twice Demo.conv Demo.start = Ok (PRef 4) Edge.final_twice.
Proof. apply Ok_final. vm_compute. reflexivity. Qed.

Lemma annotate_rejects_untouched_witness :
  annotate Demo.el (PRef 0) Demo.start
  = Raise (AssertionError NoMessage)
      (final_state (annotate Demo.el (PRef 0) Demo.start)) ∧
  final_state (annotate Demo.el (PRef 0) Demo.start) = Demo.start.
Proof.
  assert (Heq : annotate Demo.el (PRef 0) Demo.start
                = Raise (AssertionError NoMessage)
                    (final_state (annotate Demo.el (PRef 0) Demo.start)))
    by (apply Raise_final; vm_compute; reflexivity).
  split; [exact Heq|].
  exact (annotate_rejects_untouched Demo.el (PRef 0) Demo.start
           (AssertionError NoMessage) _ Heq I).
Defined.

Lemma bad_speaker_is_reported_witness :
  annotate Demo.el (PRef 2) Edge.intruder
  = Raise (AssertionError (SpeakerMessage (PStr "BOT"))) Edge.intruder.
Proof.
  apply (bad_speaker_is_reported Demo.el (PRef 2) [PRef 0] 1
           (turn_record (PStr "BOT") (PStr "beep")) (PStr "BOT") []
           Edge.intruder).
  - reflexivity.
  - reflexivity.
  - constructor; [|constructor].
    eapply demo_turn_valid; [reflexivity|by left].
  - reflexivity.
  - unfold turn_record. rewrite dom_insert_L, dom_singleton_L. set_solver.
  - apply turn_record_speaker.
  - reflexivity.
Defined.

Lemma system_turns_need_no_collaborator_witness :
  annotate Demo.no_item (PRef 2) Edge.quiet
  = Ok (PRef 3)
       (run (heap Edge.quiet) ∅
          (system_records (heap Edge.quiet) [PRef 0; PRef 1])) ∧
  length (system_records (heap Edge.quiet) [PRef 0; PRef 1]) = 2.
Proof.
  apply (system_turns_need_no_collaborator Demo.no_item (PRef 2)
           [PRef 0; PRef 1] Edge.quiet).
  - split; [reflexivity|]. split; [reflexivity|].
    repeat apply Forall_cons_2; [..|apply Forall_nil_2].
    + eapply demo_turn_valid; [reflexivity|by right].
    + eapply demo_turn_valid; [reflexivity|by right].
  - repeat apply Forall_cons_2; [..|apply Forall_nil_2];
      vm_compute; reflexivity.
Defined.

Lemma detector_failure_propagates_witness :
  annotate Edge.offline Demo.conv Demo.start
  = Raise (ModelError "detector not loaded") Edge.recorded1.
Proof.
  apply (detector_failure_propagates Edge.offline Demo.conv [] (PRef 0)
           [PRef 1; PRef 2] Demo.start (fresh_call Demo.start) Edge.utt1
           Edge.recorded1 "detector not loaded").
  - apply demo_valid.
  - reflexivity.
  - apply Ok_final. vm_compute. reflexivity.
  - vm_compute. reflexivity.
  - reflexivity.
Defined.

Lemma el_failure_keeps_map_witness :
  _el Edge.no_entity Edge.utt1 Edge.linking1
  = Raise IndexError (final_state (_el Edge.no_entity Edge.utt1 Edge.linking1)) ∧
  mention_map (final_state (_el Edge.no_entity Edge.utt1 Edge.linking1))
  = Some ∅ ∧
  list_of_dicts
    (heap (final_state (_el Edge.no_entity Edge.utt1 Edge.linking1)))
    (PRef 4) [Edge.record1] ∧
  ∃ hd',
    final_state (_el Edge.no_entity Edge.utt1 Edge.linking1)
    = run (heap Demo.start) ∅ ([] ++ [(Edge.record1, hd')]) ∧
    (hd' = Edge.record1 ∨
     ∃ ms, hd' = <[KStr "mentions" := PList ms]> Edge.record1).
Proof.
  assert (Heq : _el Edge.no_entity Edge.utt1 Edge.linking1
                = Raise IndexError
                    (final_state (_el Edge.no_entity Edge.utt1 Edge.linking1)))
    by (apply Raise_final; vm_compute; reflexivity).
  split; [exact Heq|].
  exact (el_failure_keeps_map Edge.no_entity (heap Demo.start) ∅ []
           Edge.record1 Edge.record1 Edge.utt1 IndexError _ Heq).
Defined.

Lemma pe_without_mentions_witness :
  _pe Demo.el Edge.utt1 Edge.linking1
  = Ok [] (run (heap Demo.start) ∅
             ([] ++ [(Edge.record1,
                      <[KStr "pems" := PList []]> Edge.record1)])).
Proof.
  apply (pe_without_mentions Demo.el (heap Demo.start) ∅ [] Edge.record1
           Edge.record1 Edge.utt1).
  reflexivity.
Defined.

Lemma repeated_mention_takes_last_row_witness :
  ∃ evs,
    conv_steps Edge.twice (PRef 4) Demo.turns (fresh_call Demo.start) evs
      Edge.final_twice ∧
    ∀ lk, Some lk ∈ evs →
      ∃ pems,
        pemd_pem_detector Edge.twice (heap (lk_before_pe lk)) (lk_utt lk)
          = Returned pems ∧
        Forall (λ a, ∃ pre row post text key,
                  pems = pre ++ row :: post ∧ take 3 a = row ∧
                  row !! 2 = Some text ∧ hashable text = Val key ∧
                  Forall (other_text key) post) (lk_pe lk).
Proof.
  exact (repeated_mention_takes_last_row Edge.twice Demo.conv Demo.turns
           Demo.start (PRef 4) Edge.final_twice demo_valid twice_returns).
Defined.

Lemma returned_records_are_separate_objects_witness :
  ∃ vs hs,
    py_iter (heap Demo.final) (PRef 4) = Val vs ∧
    py_iter (heap Demo.final) (conv_hist_for_pe Demo.final) = Val hs ∧
    length vs = length hs ∧ NoDup (vs ++ hs).
Proof.
  exact (returned_records_are_separate_objects Demo.el Demo.conv Demo.start
           (PRef 4) Demo.final demo_returns).
Defined.

Lemma recorded_mentions_are_keys_witness :
  ∃ mm, mention_map Demo.between = Some mm ∧
        mentions_mapped mm (history Demo.between).
Proof.
  exact (recorded_mentions_are_keys Demo.el Demo.conv Demo.turns Demo.start 2
           Demo.between demo_valid demo_between).
Defined.

Lemma mention_keys_persist_witness :
  ∃ mm, mention_map Demo.final = Some mm ∧ is_Some (mm !! KStr "Rex").
Proof.
  exists {[KStr "Rex" := PStr "Rex_(dog)"]}.
  assert (Hfinal : mention_map Demo.final
                   = Some {[KStr "Rex" := PStr "Rex_(dog)"]})
    by (vm_compute; reflexivity).
  split; [exact Hfinal|].
  apply (mention_keys_persist Demo.el Demo.conv Demo.turns Demo.start 2
           Demo.between (PRef 4) Demo.final
           {[KStr "Rex" := PStr "Rex_(dog)"]}
           {[KStr "Rex" := PStr "Rex_(dog)"]} (KStr "Rex")).
  - apply demo_valid.
  - apply demo_between.
  - apply demo_returns.
  - vm_compute. reflexivity.
  - exact Hfinal.
  - eexists. apply lookup_singleton_eq.
Defined.

Lemma pe_rejects_wrong_arity_witness :
  _pe Edge.wide Edge.utt1 Edge.linking1 = Raise ValueError Edge.linking1.
Proof.
  eapply (pe_rejects_wrong_arity Edge.wide Edge.utt1 Edge.linking1
            [PInt 0; PInt 6; PStr "my dog"; PInt 1] []).
  - reflexivity.
  - vm_compute. reflexivity.
  - simpl. lia.
Defined.

Lemma el_rejects_short_rows_witness :
  _el Edge.no_text Edge.utt1 Edge.linking1 = Raise IndexError Edge.linking1.
Proof.
  apply (el_rejects_short_rows Edge.no_text Edge.utt1 Edge.linking1
           [[PInt 7; PInt 3]] [[PInt 7; PInt 3]] [[PInt 7; PInt 3]]).
  - reflexivity.
  - reflexivity.
  - reflexivity.
  - apply Exists_cons_hd. simpl. lia.
Defined.
